(** * Terrain pipeline of [fractale]: geo.c, plasma.c and iso.c

    A shallow embedding of the synthesis, resampling, smoothing, flooding
    and triangle-fill routines, with the properties stated about them.

    Conventions of the embedding.
    - A C [int] or [long] is a [Z].  Where a property depends on the width
      of the integers, the routine is modelled with the arithmetic of the
      machine as well ([wrap], [int32], the module [Iso32]), and the
      theorems give the range in which the two models agree.
    - A C [double] is modelled twice.  In the modules [Geo], [Plasma] and
      [Iso_main] it is the exact rational [Q] it stands for, with division
      as the one partial operation ([qdiv]): these carry the properties of
      control flow, allocation, flooding, colouring and painting order.
      In the modules [GeoF] and [PlasmaF] it is a binary64 float, with the
      rounding, the NaN and the infinities of IEEE 754: these carry the
      properties that depend on the values computed.  The flood fill,
      which only compares elevations, is generic in the elevation type.
    - A [malloc]'ed array is a [list]; what it holds before the first
      write is whatever the [heap] of the model left there, an
      arbitrary value per cell.
    - A [for (i = lo; i < hi; i += step)] loop is [for_range lo hi step].
    - The conversion [(int)v] of a double is [to_int v] on the rationals
      and [int_trunc v] on the floats, the truncation towards zero. *)

From Stdlib Require Import ZArith QArith Qround Qabs Floats Lia Lqa List Bool
  String Ascii Sorted.
From stdpp Require Import base list numbers.

Open Scope Z_scope.

(** * Part I: the embedding *)

(** ** Loops *)

Section Loops.
Context {St : Type}.

(** [while (cond) body], with fuel; [None] when the fuel runs out. *)
Fixpoint while_loop (fuel : nat) (cond : St -> bool) (body : St -> St)
    (s : St) : option St :=
  match fuel with
  | O => None
  | S f => if cond s then while_loop f cond body (body s) else Some s
  end.

(** [for (i = lo; i < hi; i += step) body], the trip count being known
    when the loop is entered. *)
Fixpoint for_fuel (fuel : nat) (i hi step : Z) (body : Z -> St -> St)
    (s : St) : St :=
  match fuel with
  | O => s
  | S f => if i <? hi then for_fuel f (i + step) hi step body (body i s)
           else s
  end.

Definition for_range (lo hi step : Z) (body : Z -> St -> St) (s : St) : St :=
  for_fuel (Z.to_nat (hi - lo)) lo hi step body s.

(** [for (step = start; step > 1; step /= 2) body]. *)
Fixpoint halving_fuel (fuel : nat) (step : Z) (body : Z -> St -> St)
    (s : St) : St :=
  match fuel with
  | O => s
  | S f => if 1 <? step then halving_fuel f (Z.quot step 2) body (body step s)
           else s
  end.

Definition for_halving (start : Z) (body : Z -> St -> St) (s : St) : St :=
  halving_fuel (Z.to_nat start) start body s.
End Loops.

(** The indices a [for_range] visits, in order. *)
Fixpoint idx_fuel (fuel : nat) (i hi step : Z) : list Z :=
  match fuel with
  | O => []
  | S f => if i <? hi then i :: idx_fuel f (i + step) hi step else []
  end.

Definition idx_range (lo hi step : Z) : list Z :=
  idx_fuel (Z.to_nat (hi - lo)) lo hi step.

(** The pairs of indices a loop nest visits, in order. *)
Definition idx_pairs (ys : list Z) (xs : Z -> list Z) : list (Z * Z) :=
  flat_map (fun y => List.map (pair y) (xs y)) ys.

(** ** Arrays *)

(** [a[i]] and [a[i] = v] on a C array.  An index outside the array is
    undefined in C; here such a read gives [d] and such a write is dropped,
    and the theorems establish the indices they rely on. *)
Definition rd {A} (d : A) (a : list A) (i : Z) : A :=
  if i <? 0 then d else nth (Z.to_nat i) a d.

Definition wr {A} (a : list A) (i : Z) (v : A) : list A :=
  if i <? 0 then a else <[Z.to_nat i := v]> a.

(** ** Doubles *)

Definition Qltb (a b : Q) : bool := negb (Qle_bool b a).

(** [a / b]; [None] stands for a division by zero. *)
Definition qdiv (a b : Q) : option Q :=
  if Qeq_bool b 0 then None else Some (a / b)%Q.

(** ** Machine integers *)

(** The signed [w]-bit integer congruent to [z] modulo [2^w]: what an
    operation on [w]-bit two's complement integers leaves when its exact
    result is [z], and what a conversion to a narrower type leaves.  C
    leaves a signed overflow undefined; the programs are modelled as
    compiled for a two's complement machine, where the result wraps
    around. *)
Definition wrap (w z : Z) : Z := (z + 2 ^ (w - 1)) mod 2 ^ w - 2 ^ (w - 1).

(** An [int] has 32 bits. *)
Definition int32 (z : Z) : Z := wrap 32 z.

Definition INT_MAX : Z := 2 ^ 31 - 1.

(** ** Side of the synthesis grid *)

(** geo.c, [main]:
    [maxdim = (GRID_W > GRID_H) ? GRID_W : GRID_H;
     n = 1; while (((1<<n) + 1) < maxdim) n++;  P = (1<<n) + 1;] *)
Module Geo_side.
Definition maxdim (GRID_W GRID_H : Z) : Z :=
  if GRID_W >? GRID_H then GRID_W else GRID_H.

Definition find_n (fuel : nat) (maxdim : Z) : option Z :=
  while_loop fuel (fun n => Z.shiftl 1 n + 1 <? maxdim) (fun n => n + 1) 1.

(** An [int] shift [1<<n] is defined for [n <= 30] only: a run whose
    loop reaches [n = 31] is undefined ([None]), and 32 rounds of fuel
    cover every other run. *)
Definition side (GRID_W GRID_H : Z) : option Z :=
  match find_n 32 (maxdim GRID_W GRID_H) with
  | Some n => if n <=? 30 then Some (Z.shiftl 1 n + 1) else None
  | None => None
  end.

(** The [-x] and [-y] options: [v] is the [long] that [strtol] returns; a
    value [v <= 1] prints the usage and returns 1, any other is stored as
    [(int)v]. *)
Definition accept_dim (v : Z) : option Z :=
  if v <=? 1 then None else Some (int32 v).
End Geo_side.

(** plasma.c, [pow2plus1_at_least] and the size check of [main]. *)
Module Plasma_side.
Definition MAX_CELLS : Z := 2000000.

Definition pow2plus1_at_least_fuel (fuel : nat) (need : Z) : option Z :=
  let target := if need <=? 1 then 1 else need - 1 in
  match while_loop fuel (fun side => side <? target)
                   (fun side => Z.shiftl side 1) 1 with
  | Some side => Some (side + 1)
  | None => None
  end.

(** [need] is an [int]: 32 doublings pass every [int]. *)
Definition pow2plus1_at_least (need : Z) : option Z :=
  pow2plus1_at_least_fuel 32 need.

Definition side (width height : Z) : option Z :=
  pow2plus1_at_least (if width >? height then width else height).

(** [-x], [-y]: [v <= 0] is refused; then
    [total = width * height; if (total <= 0 || total > MAX_CELLS) return 1]. *)
Definition accept_dims (width height : Z) : bool :=
  (0 <? width) && (0 <? height) &&
  negb ((width * height <=? 0) || (width * height >? MAX_CELLS)).

(** The same from the command line: [vx] and [vy] are the [long]s that
    [strtol] returns, of 64 bits; [(int)vx] and [(int)vy] are stored, and
    the size check is made on them. *)
Definition accept_opts (vx vy : Z) : option (Z * Z) :=
  if (vx <=? 0) || (vy <=? 0) then None
  else
    let width := int32 vx in
    let height := int32 vy in
    let total := width * height in
    if (total <=? 0) || (total >? MAX_CELLS) then None
    else Some (width, height).
End Plasma_side.

(** [P = 2^n + 1] for the least [n >= n0] with [P - 1 >= max(W,H) - 1]. *)
Definition minimal_side (n0 W H P : Z) : Prop :=
  exists n, n0 <= n /\ P = 2 ^ n + 1 /\ Z.max W H - 1 <= P - 1 /\
    forall m, n0 <= m -> Z.max W H - 1 <= (2 ^ m + 1) - 1 -> n <= m.

(** ** The heap *)

(** [malloc] as the program sees it: the [k]-th call fails when [refuse k],
    and otherwise returns a block holding whatever was left there
    ([junkQ k] in a block of doubles, [junkZ k] in a block of integers or
    bytes). *)
Record heap := {
  allocs : nat;
  refuse : nat -> bool;
  junkQ : nat -> Z -> Q;
  junkZ : nat -> Z -> Z
}.

Definition heap_next (hp : heap) : heap :=
  {| allocs := S (allocs hp); refuse := refuse hp;
     junkQ := junkQ hp; junkZ := junkZ hp |}.

Definition malloc_double (n : Z) (hp : heap) : option (list Q) * heap :=
  (if refuse hp (allocs hp) then None
   else Some (map (junkQ hp (allocs hp)) (seqZ 0 n)),
   heap_next hp).

Definition malloc_int (n : Z) (hp : heap) : option (list Z) * heap :=
  (if refuse hp (allocs hp) then None
   else Some (map (junkZ hp (allocs hp)) (seqZ 0 n)),
   heap_next hp).

(** ** geo.c *)

(** The routines of geo.c with the doubles as exact rationals.  This
    model carries what does not depend on the value that an operation on
    doubles returns: which cells are read and written, and in what order,
    what [malloc] is asked for and what follows its refusal, what the
    flood marks.  The values themselves, with rounding, NaN and the
    infinities, are those of the module [GeoF] further down. *)
Module Geo.

(** *** The generator: a linear congruential one on [unsigned long] *)

(** [w] is the width of [unsigned long]: 32 or 64. *)
Definition rng_srand (s : Z) : Z := if s =? 0 then 1 else s.

Definition rng_nextu (w : Z) (rng_state : Z) : Z :=
  (rng_state * 1664525 + 1013904223) mod 2 ^ w.

(** Returns the draw and the new [rng_state]. *)
Definition rng_rand01 (w : Z) (rng_state : Z) : Q * Z :=
  let u := rng_nextu w rng_state in
  ((inject_Z (Z.land u 0xFFFFFF) / inject_Z 0x1000000)%Q, u).

Definition rng_randm1p1 (w : Z) (rng_state : Z) : Q * Z :=
  let '(r, st) := rng_rand01 w rng_state in ((r * 2 - 1)%Q, st).

Definition clamp01d (v : Q) : Q :=
  if Qltb v 0 then 0%Q else if Qltb 1 v then 1%Q else v.

(** *** Diamond-square on a [P] x [P] buffer *)

(** The buffer and [rng_state]. *)
Definition ds_state : Type := list Q * Z.

(** Body of the diamond loops; the index expressions are the source's. *)
Definition diamond_cell (w : Z) (P step half : Z) (scale : Q) (y x : Z)
    (s : ds_state) : ds_state :=
  let '(buf, st) := s in
  let a := rd 0%Q buf ((y - half) * P + (x - half)) in
  let b := rd 0%Q buf ((y - half) * P + (x + half - step + step - half)) in
  let c := rd 0%Q buf ((y + half - step + step - half) * P + (x - half)) in
  let d := rd 0%Q buf ((y + half - step + step - half) * P
                       + (x + half - step + step - half)) in
  let avg := ((a + b + c + d) * 0.25)%Q in
  let '(r, st') := rng_randm1p1 w st in
  let off := (r * scale)%Q in
  (wr buf (y * P + x) (clamp01d (avg + off)), st').

(** Body of the square loops. *)
Definition square_cell (w : Z) (P half : Z) (scale : Q) (y x : Z)
    (s : ds_state) : ds_state :=
  let '(buf, st) := s in
  let '(sum, cnt) := (0%Q, 0) in
  let '(sum, cnt) :=
    if 0 <=? x - half then ((sum + rd 0%Q buf (y * P + (x - half)))%Q, cnt + 1)
    else (sum, cnt) in
  let '(sum, cnt) :=
    if x + half <? P then ((sum + rd 0%Q buf (y * P + (x + half)))%Q, cnt + 1)
    else (sum, cnt) in
  let '(sum, cnt) :=
    if 0 <=? y - half then ((sum + rd 0%Q buf ((y - half) * P + x))%Q, cnt + 1)
    else (sum, cnt) in
  let '(sum, cnt) :=
    if y + half <? P then ((sum + rd 0%Q buf ((y + half) * P + x))%Q, cnt + 1)
    else (sum, cnt) in
  if 0 <? cnt then
    let avg := (sum / inject_Z cnt)%Q in
    let '(r, st') := rng_randm1p1 w st in
    let off := (r * scale)%Q in
    (wr buf (y * P + x) (clamp01d (avg + off)), st')
  else s.

(** [AMP0 * pow(ROUGH, (int)(log(P-1)/log(2)) - (int)(log(step)/log(2)))],
    the logarithms taken exactly. *)
Definition ds_scale (AMP0 ROUGH : Q) (P step : Z) : Q :=
  (AMP0 * ROUGH ^ (Z.log2 (P - 1) - Z.log2 step))%Q.

(** One round of the loop on [step]. *)
Definition ds_level (w : Z) (AMP0 ROUGH : Q) (P : Z) (step : Z)
    (s : ds_state) : ds_state :=
  let half := Z.quot step 2 in
  let scale := ds_scale AMP0 ROUGH P step in
  let s :=
    for_range half P step (fun y =>
      for_range half P step (fun x => diamond_cell w P step half scale y x))
      s in
  for_range 0 P half (fun y =>
    let xstart := if Z.rem (Z.quot y half) 2 =? 0 then half else 0 in
    for_range xstart P step (fun x => square_cell w P half scale y x))
    s.

Definition ds_generate (w : Z) (AMP0 ROUGH : Q) (buf : list Q) (P : Z)
    (rng_state : Z) : ds_state :=
  let '(r, st) := rng_rand01 w rng_state in
  let buf := wr buf 0 r in
  let '(r, st) := rng_rand01 w st in
  let buf := wr buf (P - 1) r in
  let '(r, st) := rng_rand01 w st in
  let buf := wr buf ((P - 1) * P) r in
  let '(r, st) := rng_rand01 w st in
  let buf := wr buf ((P - 1) * P + (P - 1)) r in
  for_halving (P - 1) (ds_level w AMP0 ROUGH P) (buf, st).

(** *** Bilinear resampling, [P] x [P] to [W] x [H] *)

Definition resample_cell (src : list Q) (P : Z) (W : Z) (y y0 y1 : Z)
    (fy : Q) (x : Z) (o : option (list Q)) : option (list Q) :=
  match o with
  | None => None
  | Some out =>
    match qdiv (inject_Z x * inject_Z (P - 1)) (inject_Z (W - 1)) with
    | None => None
    | Some u =>
      let x0 := Qfloor u in
      let x1 := x0 + 1 in
      let x1 := if P <=? x1 then P - 1 else x1 in
      let fx := (u - inject_Z x0)%Q in
      let a := rd 0%Q src (y0 * P + x0) in
      let b := rd 0%Q src (y0 * P + x1) in
      let c := rd 0%Q src (y1 * P + x0) in
      let d := rd 0%Q src (y1 * P + x1) in
      let v0 := (a * (1 - fx) + b * fx)%Q in
      let v1 := (c * (1 - fx) + d * fx)%Q in
      Some (wr out (y * W + x) (v0 * (1 - fy) + v1 * fy)%Q)
    end
  end.

Definition resample_row (src : list Q) (P : Z) (W H : Z) (y : Z)
    (o : option (list Q)) : option (list Q) :=
  match o with
  | None => None
  | Some out =>
    match qdiv (inject_Z y * inject_Z (P - 1)) (inject_Z (H - 1)) with
    | None => None
    | Some v =>
      let y0 := Qfloor v in
      let y1 := y0 + 1 in
      let y1 := if P <=? y1 then P - 1 else y1 in
      let fy := (v - inject_Z y0)%Q in
      for_range 0 W 1 (resample_cell src P W y y0 y1 fy) (Some out)
    end
  end.

(** [None]: a division by zero was reached. *)
Definition resample_bilinear (src : list Q) (P : Z) (out : list Q)
    (W H : Z) : option (list Q) :=
  for_range 0 H 1 (resample_row src P W H) (Some out).

(** *** Box blur 3x3 *)

Definition clamp_idx (c n : Z) : Z :=
  let c := if c <? 0 then 0 else c in
  if n <=? c then n - 1 else c.

Definition smooth_cell (buf : list Q) (W H : Z) (y x : Z) : Q :=
  let '(sum, cnt) :=
    for_range (y - 1) (y + 1 + 1) 1 (fun yy =>
      for_range (x - 1) (x + 1 + 1) 1 (fun xx '(sum, cnt) =>
        let cx := clamp_idx xx W in
        let cy := clamp_idx yy H in
        ((sum + rd 0%Q buf (cy * W + cx))%Q, cnt + 1)))
      (0%Q, 0) in
  (sum / inject_Z cnt)%Q.

(** One pass, given the block [tmp] that [malloc] returned. *)
Definition smooth_pass (buf tmp : list Q) (W H : Z) : list Q :=
  let tmp :=
    for_range 0 H 1 (fun y =>
      for_range 0 W 1 (fun x tmp =>
        wr tmp (y * W + x) (smooth_cell buf W H y x))) tmp in
  for_range 0 H 1 (fun y =>
    for_range 0 W 1 (fun x buf =>
      wr buf (y * W + x) (rd 0%Q tmp (y * W + x)))) buf.

(** The loop on [p]; [if (!tmp) return;] leaves it at the first refused
    block. *)
Fixpoint smooth_passes (n : nat) (buf : list Q) (W H : Z) (hp : heap)
    : list Q * heap :=
  match n with
  | O => (buf, hp)
  | S n' =>
    match malloc_double (W * H) hp with
    | (None, hp') => (buf, hp')
    | (Some tmp, hp') => smooth_passes n' (smooth_pass buf tmp W H) W H hp'
    end
  end.

Definition smooth_box (buf : list Q) (W H : Z) (passes : Z) (hp : heap)
    : list Q * heap :=
  if passes <=? 0 then (buf, hp)
  else smooth_passes (Z.to_nat passes) buf W H hp.

(** *** Water *)

(** The mask, the two queue arrays and the queue indices. *)
Record fstate := {
  mask : list Z;
  queue_x : list Z;
  queue_y : list Z;
  qh : Z;
  qt : Z
}.

(** [Overrun]: a write at [queue_x[qt]] with [qt >= qcap] was reached,
    past the end of the queue arrays; the state is the one at that
    write. *)
Inductive fres :=
| Ok (s : fstate)
| Overrun (s : fstate).

(** How [flood_from_edges_or_seed] returns: after the search, at
    [if (!queue_x || !queue_y) return;], or not at all. *)
Inductive flood_result :=
| Flooded (m : list Z)
| NoQueue (m : list Z)
| QueueOverrun (m : list Z).

Definition result_mask (r : flood_result) : list Z :=
  match r with Flooded m | NoQueue m | QueueOverrun m => m end.

Definition dx : list Z := [1; -1; 0; 0].
Definition dy : list Z := [0; 0; 1; -1].

Section Flood.
(** Elevations, their comparison [a <= b], and a value for reads
    outside the grid. *)
Context {E : Type} (le : E -> E -> bool) (e0 : E).

(** [mask[y*W+x] = 1; queue_x[qt] = x; queue_y[qt] = y; qt++;] *)
Definition mark_push (qcap W : Z) (x y : Z) (s : fstate) : fres :=
  let m := wr (mask s) (y * W + x) 1 in
  if qcap <=? qt s then
    Overrun {| mask := m; queue_x := queue_x s; queue_y := queue_y s;
               qh := qh s; qt := qt s |}
  else
    Ok {| mask := m;
          queue_x := wr (queue_x s) (qt s) x;
          queue_y := wr (queue_y s) (qt s) y;
          qh := qh s; qt := qt s + 1 |}.

(** [if (h[y*W+x] <= level) { mark and push }] of the edge loops. *)
Definition seed_cell (h : list E) (W : Z) (level : E) (qcap : Z)
    (x y : Z) (r : fres) : fres :=
  match r with
  | Overrun _ => r
  | Ok s =>
    if le (rd e0 h (y * W + x)) level then mark_push qcap W x y s
    else Ok s
  end.

Definition seed_edges (h : list E) (W H : Z) (level : E) (qcap : Z)
    (r : fres) : fres :=
  let r :=
    for_range 0 W 1 (fun x r =>
      seed_cell h W level qcap x (H - 1)
        (seed_cell h W level qcap x 0 r)) r in
  for_range 0 H 1 (fun y r =>
    seed_cell h W level qcap (W - 1) y
      (seed_cell h W level qcap 0 y r)) r.

(** The optional single seed, clamped into the grid. *)
Definition seed_point (h : list E) (W H : Z) (level : E) (qcap : Z)
    (sx sy : Z) (r : fres) : fres :=
  match r with
  | Overrun _ => r
  | Ok s =>
    let sx := clamp_idx sx W in
    let sy := clamp_idx sy H in
    if le (rd e0 h (sy * W + sx)) level
       && (rd 0 (mask s) (sy * W + sx) =? 0)
    then mark_push qcap W sx sy s
    else Ok s
  end.

(** Body of [for (k = 0; k < 4; ++k)]. *)
Definition visit_neighbor (h : list E) (W H : Z) (level : E) (qcap : Z)
    (cx cy : Z) (k : Z) (r : fres) : fres :=
  match r with
  | Overrun _ => r
  | Ok s =>
    let nx := cx + rd 0 dx k in
    let ny := cy + rd 0 dy k in
    if (nx <? 0) || (ny <? 0) || (W <=? nx) || (H <=? ny) then Ok s
    else if negb (rd 0 (mask s) (ny * W + nx) =? 0) then Ok s
    else if le (rd e0 h (ny * W + nx)) level then mark_push qcap W nx ny s
    else Ok s
  end.

(** Body of [while (qh < qt)]. *)
Definition bfs_step (h : list E) (W H : Z) (level : E) (qcap : Z)
    (s : fstate) : fres :=
  let cx := rd 0 (queue_x s) (qh s) in
  let cy := rd 0 (queue_y s) (qh s) in
  let s := {| mask := mask s; queue_x := queue_x s; queue_y := queue_y s;
              qh := qh s + 1; qt := qt s |} in
  for_range 0 4 1 (visit_neighbor h W H level qcap cx cy) (Ok s).

Fixpoint bfs_loop (fuel : nat) (h : list E) (W H : Z) (level : E)
    (qcap : Z) (r : fres) : fres :=
  match r with
  | Overrun _ => r
  | Ok s =>
    match fuel with
    | O => r
    | S f =>
      if qh s <? qt s
      then bfs_loop f h W H level qcap (bfs_step h W H level qcap s)
      else r
    end
  end.

(** Every round of the search consumes one queue entry and there are
    at most [qcap] of them: [qcap + 1] rounds of fuel reach the exit
    test ([bfs_loop_inv] below). *)
Definition flood_from_edges_or_seed (h : list E) (W H : Z) (level : E)
    (from_edge seed_set sx sy : Z) (mask : list Z) (hp : heap)
    : flood_result * heap :=
  let mask := for_range 0 (W * H) 1 (fun i m => wr m i 0) mask in
  let qcap := W * H in
  let '(queue_x, hp) := malloc_int qcap hp in
  let '(queue_y, hp) := malloc_int qcap hp in
  match queue_x, queue_y with
  | Some queue_x, Some queue_y =>
    let r := Ok {| mask := mask; queue_x := queue_x; queue_y := queue_y;
                   qh := 0; qt := 0 |} in
    let r := if from_edge =? 0 then r
             else seed_edges h W H level qcap r in
    let r := if seed_set =? 0 then r
             else seed_point h W H level qcap sx sy r in
    match bfs_loop (S (Z.to_nat qcap)) h W H level qcap r with
    | Ok s => (Flooded (Geo.mask s), hp)
    | Overrun s => (QueueOverrun (Geo.mask s), hp)
    end
  | _, _ => (NoQueue mask, hp)
  end.

Definition mark_all_below (h : list E) (W H : Z) (level : E)
    (mask : list Z) : list Z :=
  for_range 0 (W * H) 1 (fun i m =>
    wr m i (if le (rd e0 h i) level then 1 else 0)) mask.
End Flood.

(** *** What the flood is to compute *)

Definition in_grid (W H x y : Z) : Prop := 0 <= x < W /\ 0 <= y < H.

Definition on_border (W H x y : Z) : Prop :=
  x = 0 \/ x = W - 1 \/ y = 0 \/ y = H - 1.

(** Two cells are 4-connected neighbours. *)
Definition adjacent (x y x' y' : Z) : Prop :=
  (x' = x + 1 /\ y' = y) \/ (x' = x - 1 /\ y' = y)
  \/ (x' = x /\ y' = y + 1) \/ (x' = x /\ y' = y - 1).

Section Flood_spec.
Context {E : Type} (le : E -> E -> bool) (e0 : E).
Context (h : list E) (W H : Z) (level : E).
Context (from_edge seed_set sx sy : Z).

(** The cell is in the grid and its elevation is [<= level]. *)
Definition low (x y : Z) : Prop :=
  in_grid W H x y /\ le (rd e0 h (y * W + x)) level = true.

(** A source: a low border cell (when flooding from the edges), or the
    seed point, clamped into the grid, when it is low. *)
Definition is_source (x y : Z) : Prop :=
  low x y
  /\ ((from_edge <> 0 /\ on_border W H x y)
      \/ (seed_set <> 0 /\ x = clamp_idx sx W /\ y = clamp_idx sy H)).

(** [p] is a 4-connected path of low cells. *)
Fixpoint low_path (p : list (Z * Z)) : Prop :=
  match p with
  | [] => True
  | (x, y) :: q =>
    low x y
    /\ match q with
       | [] => True
       | (x', y') :: _ => adjacent x y x' y'
       end
    /\ low_path q
  end.

(** The cell [(x, y)] is low and a 4-connected path of low cells leads
    to it from a source. *)
Definition reached (x y : Z) : Prop :=
  exists p x0 y0,
    is_source x0 y0
    /\ hd_error p = Some (x0, y0)
    /\ last p (x0, y0) = (x, y)
    /\ low_path p.

(** The same, one step at a time. *)
Inductive flooded : Z -> Z -> Prop :=
| flooded_source x y : is_source x y -> flooded x y
| flooded_step x y x' y' :
    flooded x y -> adjacent x y x' y' -> low x' y' -> flooded x' y'.
End Flood_spec.

(** *** Invariants of the search *)

Section Flood_inv.
Context {E : Type} (le : E -> E -> bool) (e0 : E).
Context (h : list E) (W H : Z) (level : E).
Context (from_edge seed_set sx sy : Z).

Definition marked (m : list Z) (x y : Z) : Prop := rd 0 m (y * W + x) = 1.

Definition queue_cell (s : fstate) (k : Z) : Z * Z :=
  (rd 0 (queue_x s) k, rd 0 (queue_y s) k).

(** Every cell of the mask is 0 or 1, and 1 on low cells only. *)
Definition mask_ok (m : list Z) : Prop :=
  Z.of_nat (length m) = W * H
  /\ forall x y, in_grid W H x y ->
       rd 0 m (y * W + x) = 0 \/ (marked m x y /\ low le e0 h W H level x y).

(** The marks of [m] are marks of [m']. *)
Definition grows (m m' : list Z) : Prop :=
  forall x y, in_grid W H x y -> marked m x y -> marked m' x y.

(** [s'] is [s] after more marks and more queue entries. *)
Definition extends (s s' : fstate) : Prop :=
  grows (mask s) (mask s')
  /\ qh s' = qh s /\ qt s <= qt s'
  /\ forall k, 0 <= k < qt s -> queue_cell s' k = queue_cell s k.

(** The state during the search, [d] queue entries having been handled. *)
Record search_inv (d : Z) (s : fstate) : Prop := {
  si_mask : mask_ok (mask s);
  si_qx : Z.of_nat (length (queue_x s)) = W * H;
  si_qy : Z.of_nat (length (queue_y s)) = W * H;
  si_idx : 0 <= d <= qh s /\ qh s <= qt s <= W * H;
  si_sound : forall x y, in_grid W H x y -> marked (mask s) x y ->
               flooded le e0 h W H level from_edge seed_set sx sy x y;
  si_queue : forall k, 0 <= k < qt s ->
               in_grid W H (fst (queue_cell s k)) (snd (queue_cell s k))
               /\ marked (mask s) (fst (queue_cell s k)) (snd (queue_cell s k));
  si_queued : forall x y, in_grid W H x y -> marked (mask s) x y ->
                exists k, 0 <= k < qt s /\ queue_cell s k = (x, y);
  si_done : forall k x' y', 0 <= k < d ->
              adjacent (fst (queue_cell s k)) (snd (queue_cell s k)) x' y' ->
              low le e0 h W H level x' y' -> marked (mask s) x' y'
}.

(** What holds of a result: the whole invariant while the queue holds,
    the mask alone after an overrun. *)
Definition result_inv (d : Z) (r : fres) : Prop :=
  match r with
  | Ok s => search_inv d s
  | Overrun s => mask_ok (mask s)
  end.

(** A step of the seeding or of the search: it keeps the invariant and,
    when the queue holds, extends the state and marks the cells of [C]. *)
Definition marks_step (d : Z) (f : fres -> fres) (C : Z -> Z -> Prop) : Prop :=
  forall r, result_inv d r ->
    result_inv d (f r)
    /\ forall s', f r = Ok s' ->
         exists s, r = Ok s /\ extends s s'
           /\ forall x y, C x y -> marked (mask s') x y.
End Flood_inv.

(** *** [main], after the options are read *)

Record config := {
  GRID_W : Z;
  GRID_H : Z;
  SEED : Z;
  AMP0 : Q;
  ROUGH : Q;
  SMOOTH_PASSES : Z;
  WATER_ENABLE : bool;
  WATER_LEVEL : Q;
  WATER_FROM_EDGE : bool;
  WATER_SEED_SET : Z;
  WATER_SEED_X : Z;
  WATER_SEED_Y : Z;
  VALUES_WITH_WATER : bool;
  OUT_VALUES : bool;
  OUT_PPM : bool
}.

(** What a run leaves behind.  [status = None]: the run reached an
    undefined operation (a queue overrun, a division by zero, a shift
    out of range) and left no defined status. *)
Record run := {
  status : option Z;
  stderr : list string;
  values : list Q;
  map_out : list Q;
  water_out : option (list Z)
}.

Definition failed (msg : string) : run :=
  {| status := Some 1; stderr := [msg]; values := [];
     map_out := []; water_out := None |}.

Definition undefined_run : run :=
  {| status := None; stderr := []; values := [];
     map_out := []; water_out := None |}.

(** The value printed for cell [i]. *)
Definition printed (c : config) (map : list Q) (water : option (list Z))
    (i : Z) : Q :=
  let v := rd 0%Q map i in
  if WATER_ENABLE c && VALUES_WITH_WATER c then
    match water with
    | Some wm => if negb (rd 0 wm i =? 0) then WATER_LEVEL c else v
    | None => v
    end
  else v.

(** The output stage: the printed values, then the PPM branch, of which
    only the allocation of [rgb] and the result [write_ok] of
    [write_ppm] are kept. *)
Definition output (c : config) (write_ok : bool) (map : list Q)
    (water : option (list Z)) (hp : heap) : run :=
  let vals :=
    if OUT_VALUES c
    then List.map (printed c map water) (seqZ 0 (GRID_W c * GRID_H c))
    else [] in
  if OUT_PPM c then
    match malloc_int (GRID_W c * GRID_H c * 3) hp with
    | (None, _) =>
      {| status := Some 1; stderr := ["Alloc RGB impossible."%string];
         values := vals; map_out := map; water_out := water |}
    | (Some _, _) =>
      if write_ok then
        {| status := Some 0; stderr := []; values := vals;
           map_out := map; water_out := water |}
      else
        {| status := Some 1; stderr := ["Echec ecriture"%string];
           values := vals; map_out := map; water_out := water |}
    end
  else
    {| status := Some 0; stderr := []; values := vals;
       map_out := map; water_out := water |}.

(** The water stage. *)
Definition water_stage (c : config) (write_ok : bool) (map : list Q)
    (hp : heap) : run :=
  if WATER_ENABLE c then
    match malloc_int (GRID_W c * GRID_H c) hp with
    | (None, _) => failed "Alloc eau impossible."
    | (Some water, hp) =>
      if WATER_FROM_EDGE c then
        match flood_from_edges_or_seed Qle_bool 0%Q map (GRID_W c)
                (GRID_H c) (WATER_LEVEL c) 1 (WATER_SEED_SET c)
                (WATER_SEED_X c) (WATER_SEED_Y c) water hp with
        | (QueueOverrun _, _) => undefined_run
        | (Flooded m, hp) | (NoQueue m, hp) =>
          output c write_ok map (Some m) hp
        end
      else
        output c write_ok map
          (Some (mark_all_below Qle_bool 0%Q map (GRID_W c) (GRID_H c)
                   (WATER_LEVEL c) water)) hp
    end
  else output c write_ok map None hp.

(** [w]: the width of [unsigned long]; [write_ok]: whether [write_ppm]
    succeeds; [hp]: the heap. *)
Definition main (w : Z) (c : config) (write_ok : bool) (hp : heap) : run :=
  match Geo_side.side (GRID_W c) (GRID_H c) with
  | None => undefined_run
  | Some P =>
    let '(ds, hp) := malloc_double (P * P) hp in
    let '(map, hp) := malloc_double (GRID_W c * GRID_H c) hp in
    match ds, map with
    | Some ds, Some map =>
      let '(ds, _) :=
        ds_generate w (AMP0 c) (ROUGH c) ds P (rng_srand (SEED c)) in
      match resample_bilinear ds P map (GRID_W c) (GRID_H c) with
      | None => undefined_run
      | Some map =>
        let '(map, hp) :=
          if 0 <? SMOOTH_PASSES c
          then smooth_box map (GRID_W c) (GRID_H c) (SMOOTH_PASSES c) hp
          else (map, hp) in
        water_stage c write_ok map hp
      end
    | _, _ => failed "Alloc DS/map impossible."
    end
  end.

End Geo.

(** ** plasma.c *)

(** As for geo.c, the module [Plasma] has the doubles as exact rationals
    and carries the reads, the writes and the allocations; the values in
    binary64 are those of the module [PlasmaF] further down. *)

(** What plasma.c takes from the C library: [rand], [srand], [RAND_MAX]
    and [pow].  The generator behind [rand] is the library's own. *)
Record libc := {
  rand_state : Type;
  RAND_MAX : Z;
  srand : Z -> rand_state;
  rand : rand_state -> Z * rand_state;
  pow : Q -> Q -> Q
}.

Module Plasma.
Section WithLibc.
Context (L : libc).

Definition frand01 (rs : rand_state L) : Q * rand_state L :=
  let '(r, rs) := rand L rs in
  ((inject_Z r / inject_Z (RAND_MAX L))%Q, rs).

Definition frand_symmetric (amp : Q) (rs : rand_state L)
    : Q * rand_state L :=
  let '(r, rs) := frand01 rs in (((r * 2 - 1) * amp)%Q, rs).

Definition get_src (src : list Q) (n x y : Z) : Q :=
  let x := if x <? 0 then 0 else if n <=? x then n - 1 else x in
  let y := if y <? 0 then 0 else if n <=? y then n - 1 else y in
  rd 0%Q src (y * n + x).

Definition set_src (src : list Q) (n x y : Z) (v : Q) : list Q :=
  wr src (y * n + x) v.

(** The buffer, the generator's state and [scale]. *)
Definition ds_state : Type := list Q * rand_state L * Q.

Definition diamond_cell (n half : Z) (y x : Z) (s : ds_state) : ds_state :=
  let '(src, rs, scale) := s in
  let a := get_src src n (x - half) (y - half) in
  let b := get_src src n (x + half) (y - half) in
  let c := get_src src n (x - half) (y + half) in
  let d := get_src src n (x + half) (y + half) in
  let avg := ((a + b + c + d) * 0.25)%Q in
  let '(off, rs) := frand_symmetric scale rs in
  (set_src src n x y (avg + off)%Q, rs, scale).

Definition square_cell (n half : Z) (y x : Z) (s : ds_state) : ds_state :=
  let '(src, rs, scale) := s in
  let '(sum, cnt) := (0%Q, 0) in
  let '(sum, cnt) :=
    if 0 <=? y - half then ((sum + get_src src n x (y - half))%Q, cnt + 1)
    else (sum, cnt) in
  let '(sum, cnt) :=
    if y + half <? n then ((sum + get_src src n x (y + half))%Q, cnt + 1)
    else (sum, cnt) in
  let '(sum, cnt) :=
    if 0 <=? x - half then ((sum + get_src src n (x - half) y)%Q, cnt + 1)
    else (sum, cnt) in
  let '(sum, cnt) :=
    if x + half <? n then ((sum + get_src src n (x + half) y)%Q, cnt + 1)
    else (sum, cnt) in
  if 0 <? cnt then
    let avg := (sum / inject_Z cnt)%Q in
    let '(off, rs) := frand_symmetric scale rs in
    (set_src src n x y (avg + off)%Q, rs, scale)
  else
    let '(off, rs) := frand_symmetric scale rs in
    (set_src src n x y off, rs, scale).

(** One round of [while (step > 1)]. *)
Definition ds_level (n : Z) (decay : Q) (step : Z) (s : ds_state)
    : ds_state :=
  let half := Z.quot step 2 in
  let s :=
    for_range half n step (fun y =>
      for_range half n step (fun x => diamond_cell n half y x)) s in
  let s :=
    for_range 0 n half (fun y =>
      let xstart := if negb (Z.rem (Z.quot y half) 2 =? 0) then 0
                    else half in
      for_range xstart n step (fun x => square_cell n half y x)) s in
  let '(src, rs, scale) := s in
  (src, rs, (scale * decay)%Q).

Definition diamond_square (src : list Q) (n : Z) (amp decay : Q)
    (rs : rand_state L) : list Q * rand_state L :=
  let step := n - 1 in
  let scale := amp in
  let '(v, rs) := frand_symmetric scale rs in
  let src := set_src src n 0 0 v in
  let '(v, rs) := frand_symmetric scale rs in
  let src := set_src src n step 0 v in
  let '(v, rs) := frand_symmetric scale rs in
  let src := set_src src n 0 step v in
  let '(v, rs) := frand_symmetric scale rs in
  let src := set_src src n step step v in
  let '(src, rs, _) := for_halving step (ds_level n decay) (src, rs, scale) in
  (src, rs).

(** *** Bilinear resampling *)

Definition resample_cell (src : list Q) (n : Z) (W : Z) (denomX : Q)
    (y v0 v1 : Z) (fy : Q) (x : Z) (o : option (list Q))
    : option (list Q) :=
  match o with
  | None => None
  | Some dst =>
    match qdiv (inject_Z x * inject_Z (n - 1)) denomX with
    | None => None
    | Some u =>
      let u0 := Qfloor u in
      let u1 := u0 + 1 in
      let u1 := if n <=? u1 then n - 1 else u1 in
      let fx := (u - inject_Z u0)%Q in
      let p00 := get_src src n u0 v0 in
      let p10 := get_src src n u1 v0 in
      let p01 := get_src src n u0 v1 in
      let p11 := get_src src n u1 v1 in
      let a := (p00 * (1 - fx) + p10 * fx)%Q in
      let b := (p01 * (1 - fx) + p11 * fx)%Q in
      Some (wr dst (y * W + x) (a * (1 - fy) + b * fy)%Q)
    end
  end.

Definition resample_row (src : list Q) (n : Z) (W : Z) (denomX denomY : Q)
    (y : Z) (o : option (list Q)) : option (list Q) :=
  match o with
  | None => None
  | Some dst =>
    match qdiv (inject_Z y * inject_Z (n - 1)) denomY with
    | None => None
    | Some v =>
      let v0 := Qfloor v in
      let v1 := v0 + 1 in
      let v1 := if n <=? v1 then n - 1 else v1 in
      let fy := (v - inject_Z v0)%Q in
      for_range 0 W 1 (resample_cell src n W denomX y v0 v1 fy) (Some dst)
    end
  end.

Definition denom (W : Z) : Q := if 1 <? W then inject_Z (W - 1) else 1%Q.

(** [None]: a division by zero was reached. *)
Definition resample_bilinear (src : list Q) (n : Z) (dst : list Q)
    (W H : Z) : option (list Q) :=
  let denomX := denom W in
  let denomY := denom H in
  for_range 0 H 1 (resample_row src n W denomX denomY) (Some dst).


(** *** Box blur of radius [r] *)

Definition blur_cell (src : list Q) (W H r : Z) (y x : Z) : Q :=
  let '(sum, cnt) :=
    for_range (- r) (r + 1) 1 (fun dy =>
      let yy := y + dy in
      let yy := if yy <? 0 then 0 else yy in
      let yy := if H <=? yy then H - 1 else yy in
      for_range (- r) (r + 1) 1 (fun dx '(sum, cnt) =>
        let xx := x + dx in
        let xx := if xx <? 0 then 0 else xx in
        let xx := if W <=? xx then W - 1 else xx in
        ((sum + rd 0%Q src (yy * W + xx))%Q, cnt + 1)))
      (0%Q, 0) in
  (sum / inject_Z cnt)%Q.

Definition blur_into (src dst : list Q) (W H r : Z) : list Q :=
  for_range 0 H 1 (fun y =>
    for_range 0 W 1 (fun x dst =>
      wr dst (y * W + x) (blur_cell src W H r y x))) dst.

(** Body of [for (pass = 0; pass < p; ++pass)] on the pair
    ([grid], [tmp]). *)
Definition blur_pass (W H r : Z) (pass : Z) (s : list Q * list Q)
    : list Q * list Q :=
  let '(grid, tmp) := s in
  if Z.rem pass 2 =? 0 then (grid, blur_into grid tmp W H r)
  else (blur_into tmp grid W H r, tmp).

Definition box_blur (grid : list Q) (W H r p : Z) (hp : heap)
    : list Q * heap :=
  if (r <=? 0) || (p <=? 0) then (grid, hp)
  else
    match malloc_double (W * H) hp with
    | (None, hp) => (grid, hp)
    | (Some tmp, hp) =>
      let '(grid, tmp) := for_range 0 p 1 (blur_pass W H r) (grid, tmp) in
      let grid :=
        if Z.rem p 2 =? 1
        then for_range 0 (W * H) 1 (fun i2 g => wr g i2 (rd 0%Q tmp i2)) grid
        else grid in
      (grid, hp)
    end.

(** *** Normalisation and gamma *)

Definition min_max (grid : list Q) (N : Z) : Q * Q :=
  for_range 1 N 1 (fun i '(mn, mx) =>
    let mn := if Qltb (rd 0%Q grid i) mn then rd 0%Q grid i else mn in
    let mx := if Qltb mx (rd 0%Q grid i) then rd 0%Q grid i else mx in
    (mn, mx)) (rd 0%Q grid 0, rd 0%Q grid 0).

Definition normalize01 (grid : list Q) (N : Z) : list Q :=
  let '(mn, mx) := min_max grid N in
  if Qle_bool (mx - mn) (1 # 1000000000000) then
    for_range 0 N 1 (fun i g => wr g i 0.5%Q) grid
  else
    for_range 0 N 1 (fun i g =>
      wr g i ((rd 0%Q g i - mn) / (mx - mn))%Q) grid.

Definition apply_gamma (grid : list Q) (N : Z) (gamma : Q) : list Q :=
  if Qle_bool gamma 0 || Qltb (Qabs (gamma - 1)) (1 # 1000000000000)
  then grid
  else
    for_range 0 N 1 (fun i g =>
      let v := rd 0%Q g i in
      let v := if Qltb v 0 then 0%Q else v in
      let v := if Qltb 1 v then 1%Q else v in
      wr g i (pow L v (1 / gamma)%Q)) grid.

(** *** [main], after the options are read *)

Record config := {
  width : Z;
  height : Z;
  SEED : Z;
  AMP : Q;
  DECAY : Q;
  FILT_RADIUS : Z;
  FILT_PASSES : Z;
  GAMMA_CORR : Q;
  PRINT_VALUES : bool;
  ONLY_VALUES : bool
}.

(** [status = None]: no defined status (see [Geo.run]). *)
Record run := {
  status : option Z;
  stderr : list string;
  values : list Q;
  grid_out : list Q
}.

Definition main (c : config) (hp : heap) : run :=
  let total := width c * height c in
  if (total <=? 0) || (total >? Plasma_side.MAX_CELLS) then
    {| status := Some 1; stderr := ["Taille invalide ou trop grande."%string];
       values := []; grid_out := [] |}
  else
    let rs := srand L (SEED c mod 2 ^ 32) in
    match Plasma_side.side (width c) (height c) with
    | None => {| status := None; stderr := []; values := []; grid_out := [] |}
    | Some n =>
      let '(src, hp) := malloc_double (n * n) hp in
      let '(dst, hp) := malloc_double (width c * height c) hp in
      match src, dst with
      | Some src, Some dst =>
        let '(src, _) := diamond_square src n (AMP c) (DECAY c) rs in
        match resample_bilinear src n dst (width c) (height c) with
        | None =>
          {| status := None; stderr := []; values := []; grid_out := [] |}
        | Some dst =>
          let '(dst, hp) :=
            if (0 <? FILT_RADIUS c) && (0 <? FILT_PASSES c)
            then box_blur dst (width c) (height c) (FILT_RADIUS c)
                   (FILT_PASSES c) hp
            else (dst, hp) in
          let dst := normalize01 dst (width c * height c) in
          let dst := apply_gamma dst (width c * height c) (GAMMA_CORR c) in
          {| status := Some 0; stderr := [];
             values := if PRINT_VALUES c || ONLY_VALUES c
                       then List.map (rd 0%Q dst)
                              (seqZ 0 (width c * height c))
                       else [];
             grid_out := dst |}
        end
      | _, _ =>
        {| status := Some 1;
           stderr := ["Allocation memoire impossible."%string];
           values := []; grid_out := [] |}
      end
    end.
End WithLibc.

End Plasma.

(** ** iso.c *)

(** The fill routines on unbounded integers: what they compute as long as
    no operation on [int] or [long] leaves its range.  The module [Iso32]
    further down has them with the arithmetic of the machine. *)
Module Iso.
Definition clamp8 (v : Z) : Z :=
  if v <? 0 then 0 else if 255 <? v then 255 else v.

(** The framebuffer is an array of [W * H * 3] bytes. *)
Definition put_px (fb : list Z) (W H x y r g b : Z) : list Z :=
  if (x <? 0) || (y <? 0) || (W <=? x) || (H <=? y) then fb
  else
    let off := (y * W + x) * 3 in
    let fb := wr fb (off + 0) (clamp8 r) in
    let fb := wr fb (off + 1) (clamp8 g) in
    wr fb (off + 2) (clamp8 b).

Definition fill_tri (fb : list Z) (W H x0 y0 x1 y1 x2 y2 r g b : Z)
    : list Z :=
  let minx := x0 in
  let minx := if x1 <? minx then x1 else minx in
  let minx := if x2 <? minx then x2 else minx in
  let maxx := x0 in
  let maxx := if maxx <? x1 then x1 else maxx in
  let maxx := if maxx <? x2 then x2 else maxx in
  let miny := y0 in
  let miny := if y1 <? miny then y1 else miny in
  let miny := if y2 <? miny then y2 else miny in
  let maxy := y0 in
  let maxy := if maxy <? y1 then y1 else maxy in
  let maxy := if maxy <? y2 then y2 else maxy in
  let minx := if minx <? 0 then 0 else minx in
  let miny := if miny <? 0 then 0 else miny in
  let maxx := if W <=? maxx then W - 1 else maxx in
  let maxy := if H <=? maxy then H - 1 else maxy in
  let A01 := y0 - y1 in let B01 := x1 - x0 in
  let A12 := y1 - y2 in let B12 := x2 - x1 in
  let A20 := y2 - y0 in let B20 := x0 - x2 in
  for_range miny (maxy + 1) 1 (fun y =>
    for_range minx (maxx + 1) 1 (fun x fb =>
      let w0 := (x - x1) * A12 + (y - y1) * B12 in
      let w1 := (x - x2) * A20 + (y - y2) * B20 in
      let w2 := (x - x0) * A01 + (y - y0) * B01 in
      if ((0 <=? w0) && (0 <=? w1) && (0 <=? w2))
         || ((w0 <=? 0) && (w1 <=? 0) && (w2 <=? 0))
      then put_px fb W H x y r g b
      else fb)) fb.

Definition fill_quad (fb : list Z) (W H x0 y0 x1 y1 x2 y2 x3 y3 r g b : Z)
    : list Z :=
  let fb := fill_tri fb W H x0 y0 x1 y1 x2 y2 r g b in
  fill_tri fb W H x0 y0 x2 y2 x3 y3 r g b.

(** *** What [fill_tri] is to do *)

(** The edge function of the directed edge from [(ax, ay)] to [(bx, by)],
    at [(x, y)]. *)
Definition edge (ax ay bx by_ x y : Z) : Z :=
  (x - ax) * (ay - by_) + (y - ay) * (bx - ax).

(** The three edge functions at [(x, y)] are all [>= 0] or all [<= 0]. *)
Definition same_sign (x0 y0 x1 y1 x2 y2 x y : Z) : Prop :=
  let w0 := edge x1 y1 x2 y2 x y in
  let w1 := edge x2 y2 x0 y0 x y in
  let w2 := edge x0 y0 x1 y1 x y in
  (0 <= w0 /\ 0 <= w1 /\ 0 <= w2) \/ (w0 <= 0 /\ w1 <= 0 /\ w2 <= 0).

(** [(x, y)] is in the bounding box of the triangle, clipped to a
    [W] x [H] framebuffer. *)
Definition in_clipped_box (W H x0 y0 x1 y1 x2 y2 x y : Z) : Prop :=
  Z.max 0 (Z.min x0 (Z.min x1 x2)) <= x <= Z.min (W - 1) (Z.max x0 (Z.max x1 x2))
  /\ Z.max 0 (Z.min y0 (Z.min y1 y2)) <= y
     <= Z.min (H - 1) (Z.max y0 (Z.max y1 y2)).

Definition tri_pixel (W H x0 y0 x1 y1 x2 y2 x y : Z) : Prop :=
  in_clipped_box W H x0 y0 x1 y1 x2 y2 x y /\ same_sign x0 y0 x1 y1 x2 y2 x y.

(** Byte [c] (0, 1 or 2) of the pixel [(x, y)] of a [W]-wide framebuffer. *)
Definition px_byte (fb : list Z) (W x y c : Z) : Z :=
  rd 0 fb ((y * W + x) * 3 + c).

(** The bytes [put_px] stores for the colour [(r, g, b)]. *)
Definition colour_byte (r g b c : Z) : Z :=
  if c =? 0 then clamp8 r else if c =? 1 then clamp8 g else clamp8 b.

(** The test of [fill_tri], as a function of the pixel. *)
Definition same_sign_b (x0 y0 x1 y1 x2 y2 x y : Z) : bool :=
  ((0 <=? (x - x1) * (y1 - y2) + (y - y1) * (x2 - x1))
   && (0 <=? (x - x2) * (y2 - y0) + (y - y2) * (x0 - x2))
   && (0 <=? (x - x0) * (y0 - y1) + (y - y0) * (x1 - x0)))
  || (((x - x1) * (y1 - y2) + (y - y1) * (x2 - x1) <=? 0)
      && ((x - x2) * (y2 - y0) + (y - y2) * (x0 - x2) <=? 0)
      && ((x - x0) * (y0 - y1) + (y - y0) * (x1 - x0) <=? 0)).

End Iso.

(** ** The unit interval *)


(** ** Inputs of the worked runs *)

(** A heap that refuses nothing and whose blocks hold [q], resp. 0. *)
Definition heap_with (q : Q) : heap :=
  {| allocs := 0; refuse := fun _ => false;
     junkQ := fun _ _ => q; junkZ := fun _ _ => 0 |}.

(** The same, with the [k]-th [malloc] refused. *)
Definition heap_refusing (k : nat) : heap :=
  {| allocs := 0; refuse := fun i => Nat.eqb i k;
     junkQ := fun _ _ => 0%Q; junkZ := fun _ _ => 0 |}.

(** The doubles 0.1, 0.2, 0.3 and 0.9. *)
Definition d0_1 : float := 0x1.999999999999ap-4%float.
Definition d0_2 : float := 0x1.999999999999ap-3%float.
Definition d0_3 : float := 0x1.3333333333333p-2%float.
Definition d0_9 : float := 0x1.ccccccccccccdp-1%float.

(** A flat 4 x 4 grid at elevation 0.3. *)
Definition flat_grid : list float := repeat d0_3 16.

(** A 4 x 4 grid at elevation 0.9 with one interior cell at 0.1. *)
Definition basin_grid : list float :=
  [d0_9; d0_9; d0_9; d0_9;
   d0_9; d0_1; d0_9; d0_9;
   d0_9; d0_9; d0_9; d0_9;
   d0_9; d0_9; d0_9; d0_9].

(** [geo -x 3 -y 3 -s 42], with the water options as given. *)
Definition geo_3x3 (smooth : Z) (sea : option Q) : Geo.config :=
  {| Geo.GRID_W := 3; Geo.GRID_H := 3; Geo.SEED := 42;
     Geo.AMP0 := 1; Geo.ROUGH := 0.65; Geo.SMOOTH_PASSES := smooth;
     Geo.WATER_ENABLE := match sea with Some _ => true | None => false end;
     Geo.WATER_LEVEL := match sea with Some l => l | None => 0.5 end;
     Geo.WATER_FROM_EDGE := true;
     Geo.WATER_SEED_SET := 0; Geo.WATER_SEED_X := 0; Geo.WATER_SEED_Y := 0;
     Geo.VALUES_WITH_WATER := false; Geo.OUT_VALUES := true;
     Geo.OUT_PPM := false |}.

(** A C library for the worked runs of plasma.c: the sample generator
    of the C standard ([next = next * 1103515245 + 12345], returning
    [(next / 65536) % 32768], on a 32-bit [unsigned long]), and a stand-in
    for [pow] that is exact at the exponent 1, the one the default gamma
    leads to, and returns its base elsewhere. *)
Definition sample_libc : libc :=
  {| rand_state := Z;
     RAND_MAX := 32767;
     srand := fun seed => seed;
     rand := fun next =>
       let next := (next * 1103515245 + 12345) mod 2 ^ 32 in
       ((next / 65536) mod 32768, next);
     pow := fun v _ => v |}.

(** [plasma -x 3 -y 2 --only-values], with the filter as given. *)
Definition plasma_3x2 (radius passes : Z) : Plasma.config :=
  {| Plasma.width := 3; Plasma.height := 2; Plasma.SEED := 12345;
     Plasma.AMP := 1; Plasma.DECAY := 0.6;
     Plasma.FILT_RADIUS := radius; Plasma.FILT_PASSES := passes;
     Plasma.GAMMA_CORR := 1;
     Plasma.PRINT_VALUES := false; Plasma.ONLY_VALUES := true |}.

(** ** Conversions *)

(** [(int)v] for a double [v]: the fraction is dropped, towards zero. *)
Definition to_int (q : Q) : Z := Z.quot (Qnum q) (Zpos (Qden q)).

(** ** iso.c: [main], after the options are read *)

Module Iso_main.

Record config := {
  GRID_W : Z;
  GRID_H : Z;
  TILE_W : Z;
  TILE_H : Z;
  ZS : Z;
  BG_R : Z;
  BG_G : Z;
  BG_B : Z
}.

(** How a run that returns 1 ends. *)
Inductive failure :=
| Alloc_grid
| Open_input
| Short_input (y x : Z)
| Alloc_framebuffer
| Write_ppm.

(** *** Reading the heightmap *)

(** The numbers [fscanf(f, "%lf", &v)] reads one after the other are the
    list [input]; past its end the call does not return 1.  The list holds
    numbers: the tokens [nan] and [inf], which [fscanf] accepts too, are
    not inputs of this model. *)
Definition read_cell (W : Z) (y x : Z)
    (s : (Z * Z) + (list Q * list Q)) : (Z * Z) + (list Q * list Q) :=
  match s with
  | inl e => inl e
  | inr (grid, input) =>
    match input with
    | [] => inl (y, x)
    | v :: input =>
      let v := if Qltb v 0 then 0%Q else v in
      let v := if Qltb 1 v then 1%Q else v in
      inr (wr grid (y * W + x) v, input)
    end
  end.

Definition read_grid (input : list Q) (grid : list Q) (W H : Z)
    : (Z * Z) + (list Q * list Q) :=
  for_range 0 H 1 (fun y => for_range 0 W 1 (fun x => read_cell W y x))
    (inr (grid, input)).

(** *** The image *)

Definition MARGIN (c : config) : Z := TILE_W c.

Definition FB_W (c : config) : Z :=
  (GRID_W c + GRID_H c) * Z.quot (TILE_W c) 2 + MARGIN c * 2 + TILE_W c.

Definition FB_H (c : config) : Z :=
  (GRID_W c + GRID_H c) * Z.quot (TILE_H c) 2 + ZS c + MARGIN c * 2
  + TILE_H c.

(** The background: [fb[i2+0..2] = (unsigned char)BG_R, BG_G, BG_B]. *)
Definition background (c : config) (fb : list Z) : list Z :=
  let total := FB_W c * FB_H c * 3 in
  for_range 0 total 3 (fun i2 fb =>
    let fb := wr fb (i2 + 0) (BG_R c mod 256) in
    let fb := wr fb (i2 + 1) (BG_G c mod 256) in
    wr fb (i2 + 2) (BG_B c mod 256)) fb.

Definition off_x (c : config) : Z :=
  MARGIN c + GRID_H c * Z.quot (TILE_W c) 2.

Definition off_y (c : config) : Z := MARGIN c + ZS c.

(** The points of one column: the lozenge on top and the one on the
    ground. *)
Record tile := {
  top_x : Z; top_y : Z;
  left_x : Z; left_y : Z;
  right_x : Z; right_y : Z;
  bot_x : Z; bot_y : Z;
  b_left_x : Z; b_left_y : Z;
  b_right_x : Z; b_right_y : Z;
  b_bot_x : Z; b_bot_y : Z
}.

(** The height in pixels of a column of elevation [h]. *)
Definition column_z (c : config) (h : Q) : Z :=
  to_int (h * inject_Z (ZS c) + 0.5)%Q.

Definition column_tile (c : config) (z : Z) (gx gy : Z) : tile :=
  let sx := off_x c + (gx - gy) * Z.quot (TILE_W c) 2 in
  let sy := off_y c + (gx + gy) * Z.quot (TILE_H c) 2 in
  let cx := sx in
  let cy := sy - z in
  let base_cx := sx in
  let base_cy := sy in
  {| top_x := cx; top_y := cy - Z.quot (TILE_H c) 2;
     left_x := cx - Z.quot (TILE_W c) 2; left_y := cy;
     right_x := cx + Z.quot (TILE_W c) 2; right_y := cy;
     bot_x := cx; bot_y := cy + Z.quot (TILE_H c) 2;
     b_left_x := base_cx - Z.quot (TILE_W c) 2; b_left_y := base_cy;
     b_right_x := base_cx + Z.quot (TILE_W c) 2; b_right_y := base_cy;
     b_bot_x := base_cx; b_bot_y := base_cy + Z.quot (TILE_H c) 2 |}.

(** The grey levels of the top, the left face and the right face. *)
Definition g_top (h : Q) : Z := Iso.clamp8 (to_int (h * 255 + 0.5)%Q).
Definition g_left (h : Q) : Z := Iso.clamp8 (Z.quot (g_top h * 80) 100).
Definition g_right (h : Q) : Z := Iso.clamp8 (Z.quot (g_top h * 60) 100).

(** One column: the two side faces, then the top. *)
Definition draw_column (c : config) (grid : list Q) (gx gy : Z)
    (fb : list Z) : list Z :=
  let h := rd 0%Q grid (gy * GRID_W c + gx) in
  let t := column_tile c (column_z c h) gx gy in
  let fb :=
    Iso.fill_quad fb (FB_W c) (FB_H c)
      (left_x t) (left_y t) (b_left_x t) (b_left_y t)
      (b_bot_x t) (b_bot_y t) (bot_x t) (bot_y t)
      (g_left h) (g_left h) (g_left h) in
  let fb :=
    Iso.fill_quad fb (FB_W c) (FB_H c)
      (right_x t) (right_y t) (bot_x t) (bot_y t)
      (b_bot_x t) (b_bot_y t) (b_right_x t) (b_right_y t)
      (g_right h) (g_right h) (g_right h) in
  let fb :=
    Iso.fill_tri fb (FB_W c) (FB_H c)
      (top_x t) (top_y t) (left_x t) (left_y t) (right_x t) (right_y t)
      (g_top h) (g_top h) (g_top h) in
  Iso.fill_tri fb (FB_W c) (FB_H c)
    (bot_x t) (bot_y t) (right_x t) (right_y t) (left_x t) (left_y t)
    (g_top h) (g_top h) (g_top h).

(** The loops on [s = x + y] and on [x]. *)
Definition render (c : config) (grid : list Q) (fb : list Z) : list Z :=
  for_range 0 ((GRID_W c - 1) + (GRID_H c - 1) + 1) 1 (fun s =>
    for_range 0 (GRID_W c) 1 (fun x fb =>
      let gy := s - x in
      let gx := x in
      if (gy <? 0) || (GRID_H c <=? gy) then fb
      else draw_column c grid gx gy fb)) fb.

(** The cells in the order in which [render] draws them. *)
Definition paint_order (W H : Z) : list (Z * Z) :=
  for_range 0 ((W - 1) + (H - 1) + 1) 1 (fun s =>
    for_range 0 W 1 (fun x acc =>
      let gy := s - x in
      if (gy <? 0) || (H <=? gy) then acc else acc ++ [(x, gy)])) [].

(** [input]: the numbers of the input file, [None] when it cannot be
    opened; [write_ok]: whether [write_ppm] succeeds.  The result is the
    image written, or how the run failed. *)
Definition main (c : config) (input : option (list Q)) (write_ok : bool)
    (hp : heap) : failure + list Z :=
  let N := GRID_W c * GRID_H c in
  match malloc_double N hp with
  | (None, _) => inl Alloc_grid
  | (Some grid, hp) =>
    match input with
    | None => inl Open_input
    | Some input =>
      match read_grid input grid (GRID_W c) (GRID_H c) with
      | inl (y, x) => inl (Short_input y x)
      | inr (grid, _) =>
        match malloc_int (FB_W c * FB_H c * 3) hp with
        | (None, _) => inl Alloc_framebuffer
        | (Some fb, _) =>
          let fb := background c fb in
          let fb := render c grid fb in
          if write_ok then inr fb else inl Write_ppm
        end
      end
    end
  end.

End Iso_main.

(** [p] is drawn before [q]: its [x + y] is smaller or, on one diagonal,
    its [x] is. *)
Definition painted_before (p q : Z * Z) : Prop :=
  fst p + snd p < fst q + snd q
  \/ (fst p + snd p = fst q + snd q /\ fst p < fst q).

(** The value stored for a number [v] of the input. *)
Definition clamp_read (v : Q) : Q :=
  let v := if Qltb v 0 then 0%Q else v in
  if Qltb 1 v then 1%Q else v.

(** ** geo.c: the colour map *)

Module Geo_ppm.

(** [if (r < 0) r = 0; if (r > 255) r = 255;] *)
Definition clamp255 (r : Z) : Z :=
  let r := if r <? 0 then 0 else r in
  if 255 <? r then 255 else r.

Definition color_for (v : Q) (water : Z) (level : Q) : Z * Z * Z :=
  if negb (water =? 0) then
    let d := (level - v)%Q in
    let d := if Qltb d 0 then 0%Q else d in
    let d := if Qltb 1 d then 1%Q else d in
    let r := to_int (10 + 30 * (1 - d))%Q in
    let g := to_int (40 + 60 * (1 - d))%Q in
    let b := to_int (120 + 120 * (1 - d))%Q in
    (clamp255 r, clamp255 g, clamp255 b)
  else if Qltb v 0.05 then (194, 178, 128)
  else if Qltb v 0.30 then (80, 160, 60)
  else if Qltb v 0.60 then (120, 120, 120)
  else (240, 240, 240).

(** The loop on the four neighbours that darkens a pixel of the shore;
    the last component of the state records the [break]. *)
Definition shore_step (water : list Z) (W H : Z) (x y w : Z) (k : Z)
    (s : Z * Z * Z * bool) : Z * Z * Z * bool :=
  let '(r, g, b, stop) := s in
  if stop then s
  else
    let nx := x + rd 0 Geo.dx k in
    let ny := y + rd 0 Geo.dy k in
    if (0 <=? nx) && (0 <=? ny) && (nx <? W) && (ny <? H) then
      let w2 := rd 0 water (ny * W + nx) in
      if negb (w2 =? w)
      then (Z.quot (r * 7) 10, Z.quot (g * 7) 10, Z.quot (b * 7) 10, true)
      else s
    else s.

(** The colour of the pixel [(x, y)]. *)
Definition pixel (c : Geo.config) (map : list Q) (water : option (list Z))
    (y x : Z) : Z * Z * Z :=
  let W := Geo.GRID_W c in
  let H := Geo.GRID_H c in
  let v := rd 0%Q map (y * W + x) in
  let w := match water with
           | Some wm => if Geo.WATER_ENABLE c then rd 0 wm (y * W + x) else 0
           | None => 0
           end in
  let '(r, g, b) := color_for v w (Geo.WATER_LEVEL c) in
  match water with
  | Some wm =>
    if Geo.WATER_ENABLE c then
      let '(r, g, b, _) :=
        for_range 0 4 1 (shore_step wm W H x y w) (r, g, b, false) in
      (r, g, b)
    else (r, g, b)
  | None => (r, g, b)
  end.

(** The loops of [main] that fill [rgb]. *)
Definition render_rgb (c : Geo.config) (map : list Q)
    (water : option (list Z)) (rgb : list Z) : list Z :=
  let W := Geo.GRID_W c in
  for_range 0 (Geo.GRID_H c) 1 (fun y =>
    for_range 0 W 1 (fun x rgb =>
      let '(r, g, b) := pixel c map water y x in
      let rgb := wr rgb ((y * W + x) * 3 + 0) r in
      let rgb := wr rgb ((y * W + x) * 3 + 1) g in
      wr rgb ((y * W + x) * 3 + 2) b)) rgb.

(** The bytes that [write_ppm] writes after the header, when every
    [fwrite] succeeds. *)
Definition write_ppm_pixels (rgb : list Z) (W H : Z) : list Z :=
  for_range 0 H 1 (fun y =>
    for_range 0 W 1 (fun x out =>
      let off := (y * W + x) * 3 in
      let r := clamp255 (rd 0 rgb (off + 0)) in
      let g := clamp255 (rd 0 rgb (off + 1)) in
      let b := clamp255 (rd 0 rgb (off + 2)) in
      out ++ [r mod 256; g mod 256; b mod 256])) [].

End Geo_ppm.

(** ** Two runs side by side *)



(** ** Counting the marks of a mask *)

(** The indices at which the mask holds 1, and their number. *)
Definition marked_cells (m : list Z) : list Z :=
  List.filter (fun i => rd 0 m i =? 1) (seqZ 0 (Z.of_nat (length m))).

Definition ones (m : list Z) : Z := Z.of_nat (length (marked_cells m)).

(** The queue has room: the search has not overrun, every mark is on a
    cell of [P], and the queue holds at most one entry for each mark and
    [D] more, for the cells entered twice. *)
Definition queue_fits {E} (le : E -> E -> bool) (e0 : E) (h : list E)
    (W H : Z) (level : E) (P : Z -> Z -> Prop) (D : Z) (r : Geo.fres) : Prop :=
  exists s, r = Geo.Ok s
    /\ Geo.mask_ok le e0 h W H level (Geo.mask s)
    /\ 0 <= Geo.qt s <= ones (Geo.mask s) + D
    /\ forall x y, Geo.in_grid W H x y -> Geo.marked W (Geo.mask s) x y ->
         P x y.

(** ** iso.c on machine integers *)

(** [put_px], [fill_tri] and [fill_quad] with the arithmetic of the machine:
    [int] operations wrap at 32 bits, [long] operations at [lw] bits (64 on
    Linux, 32 on Windows), and a store outside the framebuffer, which C
    leaves undefined, ends the run with [None]. *)
Module Iso32.
Section With_long.
Context (lw : Z).

Definition long (z : Z) : Z := wrap lw z.

(** [fb[i] = v] *)
Definition store (fb : list Z) (i v : Z) : option (list Z) :=
  if (0 <=? i) && (i <? Z.of_nat (length fb)) then Some (wr fb i v) else None.

(** [off = (y * W + x) * 3] in [int]. *)
Definition px_offset (W x y : Z) : Z := int32 (int32 (int32 (y * W) + x) * 3).

Definition put_px (fb : list Z) (W H x y r g b : Z) : option (list Z) :=
  if (x <? 0) || (y <? 0) || (W <=? x) || (H <=? y) then Some fb
  else
    let off := px_offset W x y in
    match store fb (int32 (off + 0)) (Iso.clamp8 r) with
    | None => None
    | Some fb =>
        match store fb (int32 (off + 1)) (Iso.clamp8 g) with
        | None => None
        | Some fb => store fb (int32 (off + 2)) (Iso.clamp8 b)
        end
    end.

(** An edge function [(long)(p - a) * A + (long)(q - c) * B]: the
    differences are taken in [int], the products and the sum in [long]. *)
Definition edge_fn (p a A q c B : Z) : Z :=
  long (long (long (int32 (p - a)) * A) + long (long (int32 (q - c)) * B)).

(** The test of [fill_tri] at the pixel [(x, y)]. *)
Definition same_sign_b (x0 y0 x1 y1 x2 y2 x y : Z) : bool :=
  let A01 := long (int32 (y0 - y1)) in let B01 := long (int32 (x1 - x0)) in
  let A12 := long (int32 (y1 - y2)) in let B12 := long (int32 (x2 - x1)) in
  let A20 := long (int32 (y2 - y0)) in let B20 := long (int32 (x0 - x2)) in
  let w0 := edge_fn x x1 A12 y y1 B12 in
  let w1 := edge_fn x x2 A20 y y2 B20 in
  let w2 := edge_fn x x0 A01 y y0 B01 in
  ((0 <=? w0) && (0 <=? w1) && (0 <=? w2))
  || ((w0 <=? 0) && (w1 <=? 0) && (w2 <=? 0)).

(** [W] and [H] are the sizes of a framebuffer, so that [H - 1] is below
    [INT_MAX] and the loop counters do not overflow. *)
Definition fill_tri (fb : list Z) (W H x0 y0 x1 y1 x2 y2 r g b : Z)
    : option (list Z) :=
  let minx := x0 in
  let minx := if x1 <? minx then x1 else minx in
  let minx := if x2 <? minx then x2 else minx in
  let maxx := x0 in
  let maxx := if maxx <? x1 then x1 else maxx in
  let maxx := if maxx <? x2 then x2 else maxx in
  let miny := y0 in
  let miny := if y1 <? miny then y1 else miny in
  let miny := if y2 <? miny then y2 else miny in
  let maxy := y0 in
  let maxy := if maxy <? y1 then y1 else maxy in
  let maxy := if maxy <? y2 then y2 else maxy in
  let minx := if minx <? 0 then 0 else minx in
  let miny := if miny <? 0 then 0 else miny in
  let maxx := if W <=? maxx then int32 (W - 1) else maxx in
  let maxy := if H <=? maxy then int32 (H - 1) else maxy in
  for_range miny (maxy + 1) 1 (fun y =>
    for_range minx (maxx + 1) 1 (fun x ofb =>
      match ofb with
      | None => None
      | Some fb =>
          if same_sign_b x0 y0 x1 y1 x2 y2 x y
          then put_px fb W H x y r g b
          else Some fb
      end)) (Some fb).

Definition fill_quad (fb : list Z) (W H x0 y0 x1 y1 x2 y2 x3 y3 r g b : Z)
    : option (list Z) :=
  match fill_tri fb W H x0 y0 x1 y1 x2 y2 r g b with
  | None => None
  | Some fb => fill_tri fb W H x0 y0 x2 y2 x3 y3 r g b
  end.

End With_long.
End Iso32.

(** Every coordinate of the list is within [[-B, B]]. *)
Definition coords_within (B : Z) (l : list Z) : Prop :=
  Forall (fun c => - B <= c <= B) l.

(** The coordinates for which the arithmetic of [fill_tri] stays in range:
    twice [B] fits an [int] and eight times its square a [long] of [lw]
    bits.  With 64-bit [long]s that is every [B] below [2^30]. *)
Definition in_range (lw B : Z) : Prop :=
  0 <= B /\ 2 * B <= INT_MAX /\ 32 <= lw /\ 8 * B * B < 2 ^ (lw - 1).

(** The run [iso -x 3000 -y 3000] with the tile sizes left at their
    defaults. *)
Definition iso_3000 : Iso_main.config :=
  {| Iso_main.GRID_W := 3000; Iso_main.GRID_H := 3000;
     Iso_main.TILE_W := 16; Iso_main.TILE_H := 8; Iso_main.ZS := 64;
     Iso_main.BG_R := 16; Iso_main.BG_G := 16; Iso_main.BG_B := 24 |}.

(** ** Doubles in binary64 *)

(** The modules [Geo] and [Plasma] above take a [double] for the rational
    number it stands for.  Where a property depends on rounding, on NaN or
    on the infinities, the programs are modelled on the primitive floats,
    which are the binary64 numbers of IEEE 754 with every operation rounded
    to nearest even, as the [double]s of C are on the machines the programs
    are compiled for. *)

(** [(double)z] for an integer [z] of at most 63 bits. *)
Definition dbl (z : Z) : float :=
  match z with
  | Z0 => 0%float
  | Zpos _ => PrimFloat.of_uint63 (Uint63.of_Z z)
  | Zneg p => (- PrimFloat.of_uint63 (Uint63.of_Z (Zpos p)))%float
  end.

(** [floor(x)], an integer; [None] for NaN and the infinities. *)
Definition floor_Z (x : float) : option Z :=
  match Prim2SF x with
  | S754_zero _ => Some 0
  | S754_finite s m e =>
      let n := cond_Zopp s (Zpos m) in
      Some (if 0 <=? e then n * 2 ^ e else n / 2 ^ (- e))
  | _ => None
  end.

(** [x] without its fraction; [None] for NaN and the infinities. *)
Definition trunc_Z (x : float) : option Z :=
  match Prim2SF x with
  | S754_zero _ => Some 0
  | S754_finite s m e =>
      let n := cond_Zopp s (Zpos m) in
      Some (if 0 <=? e then n * 2 ^ e else Z.quot n (2 ^ (- e)))
  | _ => None
  end.

(** A conversion to [int] is defined when the integer fits. *)
Definition fits_int (z : Z) : option Z :=
  if (- 2 ^ 31 <=? z) && (z <=? INT_MAX) then Some z else None.

(** [(int)floor(x)] and [(int)x]; [None] where C leaves the conversion
    undefined. *)
Definition int_floor (x : float) : option Z :=
  match floor_Z x with Some z => fits_int z | None => None end.

Definition int_trunc (x : float) : option Z :=
  match trunc_Z x with Some z => fits_int z | None => None end.

(** A double that is a number: not NaN, not an infinity. *)
Definition finite (x : float) : bool :=
  match Prim2SF x with
  | S754_zero _ | S754_finite _ _ _ => true
  | _ => false
  end.

(** [0 <= x <= 1] as C evaluates it. *)
Definition in_unit (x : float) : bool := (0 <=? x)%float && (x <=? 1)%float.

(** What the programs take from the mathematical library. *)
Module Libm.
Record t := {
  pow : float -> float -> float;
  log : float -> float
}.
End Libm.

(** ** geo.c in binary64 *)

(** [w] is the width of [unsigned long]; the blocks that [malloc] returns
    are arguments.  [None]: the run reached a conversion to [int] that C
    leaves undefined. *)
Module GeoF.
Section With_libm.
Context (w : Z) (m : Libm.t).

Definition rng_rand01 (rng_state : Z) : float * Z :=
  let u := Geo.rng_nextu w rng_state in
  ((dbl (Z.land u 0xFFFFFF) / dbl 0x1000000)%float, u).

Definition rng_randm1p1 (rng_state : Z) : float * Z :=
  let '(r, st) := rng_rand01 rng_state in ((r * 2 - 1)%float, st).

Definition clamp01d (v : float) : float :=
  if (v <? 0)%float then 0%float else if (1 <? v)%float then 1%float else v.

Definition ds_state : Type := list float * Z.

Definition diamond_cell (P step half : Z) (scale : float) (y x : Z)
    (s : ds_state) : ds_state :=
  let '(buf, st) := s in
  let a := rd 0%float buf ((y - half) * P + (x - half)) in
  let b := rd 0%float buf ((y - half) * P + (x + half - step + step - half)) in
  let c := rd 0%float buf ((y + half - step + step - half) * P + (x - half)) in
  let d := rd 0%float buf ((y + half - step + step - half) * P
                           + (x + half - step + step - half)) in
  let avg := ((a + b + c + d) * 0.25)%float in
  let '(r, st') := rng_randm1p1 st in
  let off := (r * scale)%float in
  (wr buf (y * P + x) (clamp01d (avg + off)), st').

Definition square_cell (P half : Z) (scale : float) (y x : Z)
    (s : ds_state) : ds_state :=
  let '(buf, st) := s in
  let '(sum, cnt) := (0%float, 0) in
  let '(sum, cnt) :=
    if 0 <=? x - half
    then ((sum + rd 0%float buf (y * P + (x - half)))%float, cnt + 1)
    else (sum, cnt) in
  let '(sum, cnt) :=
    if x + half <? P
    then ((sum + rd 0%float buf (y * P + (x + half)))%float, cnt + 1)
    else (sum, cnt) in
  let '(sum, cnt) :=
    if 0 <=? y - half
    then ((sum + rd 0%float buf ((y - half) * P + x))%float, cnt + 1)
    else (sum, cnt) in
  let '(sum, cnt) :=
    if y + half <? P
    then ((sum + rd 0%float buf ((y + half) * P + x))%float, cnt + 1)
    else (sum, cnt) in
  if 0 <? cnt then
    let avg := (sum / dbl cnt)%float in
    let '(r, st') := rng_randm1p1 st in
    let off := (r * scale)%float in
    (wr buf (y * P + x) (clamp01d (avg + off)), st')
  else s.

(** [AMP0 * pow(ROUGH, (double)((int)(log((double)(P-1))/log(2.0))
                                - (int)(log((double)step)/log(2.0))))] *)
Definition ds_scale (AMP0 ROUGH : float) (P step : Z) : option float :=
  match int_trunc (Libm.log m (dbl (P - 1)) / Libm.log m 2)%float,
        int_trunc (Libm.log m (dbl step) / Libm.log m 2)%float with
  | Some e1, Some e2 =>
      Some (AMP0 * Libm.pow m ROUGH (dbl (int32 (e1 - e2))))%float
  | _, _ => None
  end.

(** One round of the loop on [step]. *)
Definition ds_level (AMP0 ROUGH : float) (P : Z) (step : Z)
    (o : option ds_state) : option ds_state :=
  match o with
  | None => None
  | Some s =>
    let half := Z.quot step 2 in
    match ds_scale AMP0 ROUGH P step with
    | None => None
    | Some scale =>
      let s :=
        for_range half P step (fun y =>
          for_range half P step (fun x =>
            diamond_cell P step half scale y x)) s in
      Some (for_range 0 P half (fun y =>
              let xstart := if Z.rem (Z.quot y half) 2 =? 0 then half else 0 in
              for_range xstart P step (fun x => square_cell P half scale y x))
              s)
    end
  end.

Definition ds_generate (AMP0 ROUGH : float) (buf : list float) (P : Z)
    (rng_state : Z) : option ds_state :=
  let '(r, st) := rng_rand01 rng_state in
  let buf := wr buf 0 r in
  let '(r, st) := rng_rand01 st in
  let buf := wr buf (P - 1) r in
  let '(r, st) := rng_rand01 st in
  let buf := wr buf ((P - 1) * P) r in
  let '(r, st) := rng_rand01 st in
  let buf := wr buf ((P - 1) * P + (P - 1)) r in
  for_halving (P - 1) (ds_level AMP0 ROUGH P) (Some (buf, st)).

(** The interpolation of [resample_bilinear] between four cells. *)
Definition bilinear (a b c d fx fy : float) : float :=
  let v0 := (a * (1 - fx) + b * fx)%float in
  let v1 := (c * (1 - fx) + d * fx)%float in
  (v0 * (1 - fy) + v1 * fy)%float.

Definition resample_cell (src : list float) (P : Z) (W : Z) (y y0 y1 : Z)
    (fy : float) (x : Z) (o : option (list float)) : option (list float) :=
  match o with
  | None => None
  | Some out =>
    let u := (dbl x * dbl (P - 1) / dbl (W - 1))%float in
    match int_floor u with
    | None => None
    | Some x0 =>
      let x1 := x0 + 1 in
      let x1 := if P <=? x1 then P - 1 else x1 in
      let fx := (u - dbl x0)%float in
      let a := rd 0%float src (y0 * P + x0) in
      let b := rd 0%float src (y0 * P + x1) in
      let c := rd 0%float src (y1 * P + x0) in
      let d := rd 0%float src (y1 * P + x1) in
      Some (wr out (y * W + x) (bilinear a b c d fx fy))
    end
  end.

Definition resample_row (src : list float) (P : Z) (W H : Z) (y : Z)
    (o : option (list float)) : option (list float) :=
  match o with
  | None => None
  | Some out =>
    let v := (dbl y * dbl (P - 1) / dbl (H - 1))%float in
    match int_floor v with
    | None => None
    | Some y0 =>
      let y1 := y0 + 1 in
      let y1 := if P <=? y1 then P - 1 else y1 in
      let fy := (v - dbl y0)%float in
      for_range 0 W 1 (resample_cell src P W y y0 y1 fy) (Some out)
    end
  end.

Definition resample_bilinear (src : list float) (P : Z) (out : list float)
    (W H : Z) : option (list float) :=
  for_range 0 H 1 (resample_row src P W H) (Some out).

Definition smooth_cell (buf : list float) (W H : Z) (y x : Z) : float :=
  let '(sum, cnt) :=
    for_range (y - 1) (y + 1 + 1) 1 (fun yy =>
      for_range (x - 1) (x + 1 + 1) 1 (fun xx '(sum, cnt) =>
        let cx := Geo.clamp_idx xx W in
        let cy := Geo.clamp_idx yy H in
        ((sum + rd 0%float buf (cy * W + cx))%float, cnt + 1)))
      (0%float, 0) in
  (sum / dbl cnt)%float.

(** One pass, given the block [tmp] that [malloc] returned. *)
Definition smooth_pass (buf tmp : list float) (W H : Z) : list float :=
  let tmp :=
    for_range 0 H 1 (fun y =>
      for_range 0 W 1 (fun x tmp =>
        wr tmp (y * W + x) (smooth_cell buf W H y x))) tmp in
  for_range 0 H 1 (fun y =>
    for_range 0 W 1 (fun x buf =>
      wr buf (y * W + x) (rd 0%float tmp (y * W + x)))) buf.

(** [smooth_box] when every [malloc] succeeds and returns [tmp]. *)
Definition smooth_box (buf tmp : list float) (W H passes : Z) : list float :=
  for_range 0 passes 1 (fun _ buf => smooth_pass buf tmp W H) buf.

(** The options that shape the terrain. *)
Record config := {
  GRID_W : Z;
  GRID_H : Z;
  SEED : Z;
  AMP0 : float;
  ROUGH : float;
  SMOOTH_PASSES : Z
}.

(** [main] from [rng_srand] to the map that is printed and coloured, when
    every [malloc] succeeds: [ds], [map] and [tmp] are the blocks
    returned. *)
Definition terrain (c : config) (ds map tmp : list float)
    : option (list float) :=
  match Geo_side.side (GRID_W c) (GRID_H c) with
  | None => None
  | Some P =>
    match ds_generate (AMP0 c) (ROUGH c) ds P (Geo.rng_srand (SEED c)) with
    | None => None
    | Some (ds, _) =>
      match resample_bilinear ds P map (GRID_W c) (GRID_H c) with
      | None => None
      | Some map =>
          Some (if 0 <? SMOOTH_PASSES c
                then smooth_box map tmp (GRID_W c) (GRID_H c) (SMOOTH_PASSES c)
                else map)
      end
    end
  end.

End With_libm.
End GeoF.

(** ** plasma.c in binary64 *)

Module PlasmaF.
Section With_libs.
Context (L : libc) (m : Libm.t).

Definition frand01 (rs : rand_state L) : float * rand_state L :=
  let '(r, rs) := rand L rs in
  ((dbl r / dbl (RAND_MAX L))%float, rs).

Definition frand_symmetric (amp : float) (rs : rand_state L)
    : float * rand_state L :=
  let '(r, rs) := frand01 rs in (((r * 2 - 1) * amp)%float, rs).

Definition get_src (src : list float) (n x y : Z) : float :=
  let x := if x <? 0 then 0 else if n <=? x then n - 1 else x in
  let y := if y <? 0 then 0 else if n <=? y then n - 1 else y in
  rd 0%float src (y * n + x).

Definition set_src (src : list float) (n x y : Z) (v : float) : list float :=
  wr src (y * n + x) v.

Definition ds_state : Type := list float * rand_state L * float.

Definition diamond_cell (n half : Z) (y x : Z) (s : ds_state) : ds_state :=
  let '(src, rs, scale) := s in
  let a := get_src src n (x - half) (y - half) in
  let b := get_src src n (x + half) (y - half) in
  let c := get_src src n (x - half) (y + half) in
  let d := get_src src n (x + half) (y + half) in
  let avg := ((a + b + c + d) * 0.25)%float in
  let '(off, rs) := frand_symmetric scale rs in
  (set_src src n x y (avg + off)%float, rs, scale).

Definition square_cell (n half : Z) (y x : Z) (s : ds_state) : ds_state :=
  let '(src, rs, scale) := s in
  let '(sum, cnt) := (0%float, 0) in
  let '(sum, cnt) :=
    if 0 <=? y - half
    then ((sum + get_src src n x (y - half))%float, cnt + 1)
    else (sum, cnt) in
  let '(sum, cnt) :=
    if y + half <? n
    then ((sum + get_src src n x (y + half))%float, cnt + 1)
    else (sum, cnt) in
  let '(sum, cnt) :=
    if 0 <=? x - half
    then ((sum + get_src src n (x - half) y)%float, cnt + 1)
    else (sum, cnt) in
  let '(sum, cnt) :=
    if x + half <? n
    then ((sum + get_src src n (x + half) y)%float, cnt + 1)
    else (sum, cnt) in
  if 0 <? cnt then
    let avg := (sum / dbl cnt)%float in
    let '(off, rs) := frand_symmetric scale rs in
    (set_src src n x y (avg + off)%float, rs, scale)
  else
    let '(off, rs) := frand_symmetric scale rs in
    (set_src src n x y off, rs, scale).

Definition ds_level (n : Z) (decay : float) (step : Z) (s : ds_state)
    : ds_state :=
  let half := Z.quot step 2 in
  let s :=
    for_range half n step (fun y =>
      for_range half n step (fun x => diamond_cell n half y x)) s in
  let s :=
    for_range 0 n half (fun y =>
      let xstart := if negb (Z.rem (Z.quot y half) 2 =? 0) then 0
                    else half in
      for_range xstart n step (fun x => square_cell n half y x)) s in
  let '(src, rs, scale) := s in
  (src, rs, (scale * decay)%float).

Definition diamond_square (src : list float) (n : Z) (amp decay : float)
    (rs : rand_state L) : list float * rand_state L :=
  let step := n - 1 in
  let scale := amp in
  let '(v, rs) := frand_symmetric scale rs in
  let src := set_src src n 0 0 v in
  let '(v, rs) := frand_symmetric scale rs in
  let src := set_src src n step 0 v in
  let '(v, rs) := frand_symmetric scale rs in
  let src := set_src src n 0 step v in
  let '(v, rs) := frand_symmetric scale rs in
  let src := set_src src n step step v in
  let '(src, rs, _) := for_halving step (ds_level n decay) (src, rs, scale) in
  (src, rs).

Definition denom (W : Z) : float := if 1 <? W then dbl (W - 1) else 1%float.

Definition resample_cell (src : list float) (n : Z) (W : Z) (denomX : float)
    (y v0 v1 : Z) (fy : float) (x : Z) (o : option (list float))
    : option (list float) :=
  match o with
  | None => None
  | Some dst =>
    let u := (dbl x * dbl (n - 1) / denomX)%float in
    match int_floor u with
    | None => None
    | Some u0 =>
      let u1 := u0 + 1 in
      let u1 := if n <=? u1 then n - 1 else u1 in
      let fx := (u - dbl u0)%float in
      let p00 := get_src src n u0 v0 in
      let p10 := get_src src n u1 v0 in
      let p01 := get_src src n u0 v1 in
      let p11 := get_src src n u1 v1 in
      Some (wr dst (y * W + x) (GeoF.bilinear p00 p10 p01 p11 fx fy))
    end
  end.

Definition resample_row (src : list float) (n : Z) (W : Z)
    (denomX denomY : float) (y : Z) (o : option (list float))
    : option (list float) :=
  match o with
  | None => None
  | Some dst =>
    let v := (dbl y * dbl (n - 1) / denomY)%float in
    match int_floor v with
    | None => None
    | Some v0 =>
      let v1 := v0 + 1 in
      let v1 := if n <=? v1 then n - 1 else v1 in
      let fy := (v - dbl v0)%float in
      for_range 0 W 1 (resample_cell src n W denomX y v0 v1 fy) (Some dst)
    end
  end.

Definition resample_bilinear (src : list float) (n : Z) (dst : list float)
    (W H : Z) : option (list float) :=
  let denomX := denom W in
  let denomY := denom H in
  for_range 0 H 1 (resample_row src n W denomX denomY) (Some dst).

Definition blur_cell (src : list float) (W H r : Z) (y x : Z) : float :=
  let '(sum, cnt) :=
    for_range (- r) (r + 1) 1 (fun dy =>
      let yy := y + dy in
      let yy := if yy <? 0 then 0 else yy in
      let yy := if H <=? yy then H - 1 else yy in
      for_range (- r) (r + 1) 1 (fun dx '(sum, cnt) =>
        let xx := x + dx in
        let xx := if xx <? 0 then 0 else xx in
        let xx := if W <=? xx then W - 1 else xx in
        ((sum + rd 0%float src (yy * W + xx))%float, int32 (cnt + 1))))
      (0%float, 0) in
  (sum / dbl cnt)%float.

Definition blur_into (src dst : list float) (W H r : Z) : list float :=
  for_range 0 H 1 (fun y =>
    for_range 0 W 1 (fun x dst =>
      wr dst (y * W + x) (blur_cell src W H r y x))) dst.

Definition blur_pass (W H r : Z) (pass : Z) (s : list float * list float)
    : list float * list float :=
  let '(grid, tmp) := s in
  if Z.rem pass 2 =? 0 then (grid, blur_into grid tmp W H r)
  else (blur_into tmp grid W H r, tmp).

(** [box_blur] when its [malloc] succeeds and returns [tmp]. *)
Definition box_blur (grid tmp : list float) (W H r p : Z) : list float :=
  if (r <=? 0) || (p <=? 0) then grid
  else
    let '(grid, tmp) := for_range 0 p 1 (blur_pass W H r) (grid, tmp) in
    if Z.rem p 2 =? 1
    then for_range 0 (W * H) 1 (fun i2 g => wr g i2 (rd 0%float tmp i2)) grid
    else grid.

Definition min_max (grid : list float) (N : Z) : float * float :=
  for_range 1 N 1 (fun i '(mn, mx) =>
    let mn := if (rd 0%float grid i <? mn)%float then rd 0%float grid i
              else mn in
    let mx := if (mx <? rd 0%float grid i)%float then rd 0%float grid i
              else mx in
    (mn, mx)) (rd 0%float grid 0, rd 0%float grid 0).

(** The double that the constant [1e-12] denotes. *)
Definition d1e_12 : float := 0x1.19799812dea11p-40%float.

Definition normalize01 (grid : list float) (N : Z) : list float :=
  let '(mn, mx) := min_max grid N in
  if (mx - mn <=? d1e_12)%float then
    for_range 0 N 1 (fun i g => wr g i 0.5%float) grid
  else
    for_range 0 N 1 (fun i g =>
      wr g i ((rd 0%float g i - mn) / (mx - mn))%float) grid.

(** [gamma <= 0.0 || fabs(gamma - 1.0) < 1e-12] *)
Definition gamma_off (gamma : float) : bool :=
  (gamma <=? 0)%float || (abs (gamma - 1) <? d1e_12)%float.

Definition apply_gamma (grid : list float) (N : Z) (gamma : float)
    : list float :=
  if gamma_off gamma then grid
  else
    for_range 0 N 1 (fun i g =>
      let v := rd 0%float g i in
      let v := if (v <? 0)%float then 0%float else v in
      let v := if (1 <? v)%float then 1%float else v in
      wr g i (Libm.pow m v (1 / gamma)%float)) grid.

Record config := {
  width : Z;
  height : Z;
  SEED : Z;
  AMP : float;
  DECAY : float;
  FILT_RADIUS : Z;
  FILT_PASSES : Z;
  GAMMA_CORR : float
}.

(** [main] from [srand] to the grid that is printed, for dimensions that
    passed the size check and when every [malloc] succeeds: [src], [dst]
    and [tmp] are the blocks returned. *)
Definition exported (c : config) (src dst tmp : list float)
    : option (list float) :=
  let rs := srand L (SEED c mod 2 ^ 32) in
  match Plasma_side.side (width c) (height c) with
  | None => None
  | Some n =>
    let '(src, _) := diamond_square src n (AMP c) (DECAY c) rs in
    match resample_bilinear src n dst (width c) (height c) with
    | None => None
    | Some dst =>
      let dst :=
        if (0 <? FILT_RADIUS c) && (0 <? FILT_PASSES c)
        then box_blur dst tmp (width c) (height c) (FILT_RADIUS c)
               (FILT_PASSES c)
        else dst in
      let dst := normalize01 dst (width c * height c) in
      Some (apply_gamma dst (width c * height c) (GAMMA_CORR c))
    end
  end.

End With_libs.
End PlasmaF.

(** A mathematical library for the worked runs: [pow] is exact at the
    exponents 0, 1 and 2 (the product of two doubles is rounded once, as
    the power is) and returns its base elsewhere; [log] returns the
    exponent of the power of two at or below its argument, so that
    [log(x) / log(2.0)] is the integer [k] at [x = 2^k], as it is, up to
    the conversion to [int], with the logarithm of the C library. *)
Definition sample_pow (x y : float) : float :=
  if (y =? 0)%float then 1%float
  else if (y =? 2)%float then (x * x)%float
  else x.

Definition sample_log (x : float) : float :=
  match Prim2SF x with
  | S754_finite false mx e => dbl (Zpos (digits2_pos mx) + e - 1)
  | _ => nan
  end.

Definition sample_libm : Libm.t :=
  {| Libm.pow := sample_pow; Libm.log := sample_log |}.

(** ** Binary64: the integers and the zeros *)




(** ** Resampling to the size of the source *)



(** ** Inputs of the worked runs in binary64 *)

(** The double that [1e200] denotes. *)
Definition d1e200 : float := 0x1.4e718d7d7625ap+664%float.

(** [geo -x 6 -y 6 -a 0 -k 1e200]: the synthesis grid has side 9. *)
Definition geo_rough_6x6 : GeoF.config :=
  {| GeoF.GRID_W := 6; GeoF.GRID_H := 6; GeoF.SEED := 1;
     GeoF.AMP0 := 0%float; GeoF.ROUGH := d1e200; GeoF.SMOOTH_PASSES := 0 |}.

(** What the run [geo_rough_6x6] asks of the mathematical library:
    [log(x) / log(2.0)] has the integer part [k] at [x = 2^k] for
    [k = 1, 2, 3], and [pow(1e200, y)] is 1, [1e200] and an infinity at
    [y = 0, 1, 2], the square of [1e200] being beyond the doubles. *)
Definition libm_at_1e200 (m : Libm.t) : Prop :=
  int_trunc (Libm.log m (dbl 8) / Libm.log m 2)%float = Some 3
  /\ int_trunc (Libm.log m (dbl 4) / Libm.log m 2)%float = Some 2
  /\ int_trunc (Libm.log m (dbl 2) / Libm.log m 2)%float = Some 1
  /\ Libm.pow m d1e200 (dbl 0) = 1%float
  /\ Libm.pow m d1e200 (dbl 1) = d1e200
  /\ Libm.pow m d1e200 (dbl 2) = infinity.

(** [geo -x 4294967297 -y 3]: [strtol] returns 4294967297 in a [long] of
    64 bits, which passes the test [v <= 1], and [(int)v] is 1. *)
Definition geo_1x3 : GeoF.config :=
  {| GeoF.GRID_W := 1; GeoF.GRID_H := 3; GeoF.SEED := 1;
     GeoF.AMP0 := 1%float; GeoF.ROUGH := 0x1.4cccccccccccdp-1%float;
     GeoF.SMOOTH_PASSES := 0 |}.

(** [plasma -x 3 -y 2 -a 0 -g 0.5]: with the amplitude 0 every cell of
    the terrain is a zero. *)
Definition plasma_flat_3x2 (gamma : float) : PlasmaF.config :=
  {| PlasmaF.width := 3; PlasmaF.height := 2; PlasmaF.SEED := 12345;
     PlasmaF.AMP := 0%float; PlasmaF.DECAY := 0x1.3333333333333p-1%float;
     PlasmaF.FILT_RADIUS := 0; PlasmaF.FILT_PASSES := 0;
     PlasmaF.GAMMA_CORR := gamma |}.

(** [main] of plasma.c up to the normalisation: the terrain as
    [normalize01] receives it. *)
Definition plasma_terrain (L : libc) (c : PlasmaF.config)
    (src dst : list float) : option (list float) :=
  match Plasma_side.side (PlasmaF.width c) (PlasmaF.height c) with
  | None => None
  | Some n =>
    PlasmaF.resample_bilinear
      (fst (PlasmaF.diamond_square L src n (PlasmaF.AMP c) (PlasmaF.DECAY c)
              (srand L (PlasmaF.SEED c mod 2 ^ 32))))
      n dst (PlasmaF.width c) (PlasmaF.height c)
  end.

(** * Part II: properties *)

(** ** Loops *)

Section Loop_facts.
Context {St : Type}.

Lemma for_fuel_fold fuel i hi step (body : Z -> St -> St) s :
  for_fuel fuel i hi step body s
  = fold_left (fun acc j => body j acc) (idx_fuel fuel i hi step) s.
Proof.
  revert i s. induction fuel as [|f IH]; intros i s; simpl; [done|].
  destruct (i <? hi); simpl; [apply IH | done].
Qed.

Lemma for_range_fold lo hi step (body : Z -> St -> St) s :
  for_range lo hi step body s
  = fold_left (fun acc j => body j acc) (idx_range lo hi step) s.
Proof. apply for_fuel_fold. Qed.

(** Invariant rule for a fold over the visited indices. *)
Lemma fold_left_inv {A} (Inv : St -> Prop) (f : St -> A -> St) l s :
  Inv s -> (forall a s', In a l -> Inv s' -> Inv (f s' a)) ->
  Inv (fold_left f l s).
Proof.
  revert s. induction l as [|a l IH]; intros s Hs Hstep; simpl; [done|].
  apply IH.
  - apply Hstep; [by left | done].
  - intros b s' Hb. apply Hstep. by right.
Qed.

End Loop_facts.

(** With [1 <= step] the fuel of [for_range] suffices: the visited indices
    are exactly the [lo + k * step] below [hi]. *)
Lemma idx_fuel_spec fuel i hi step j :
  1 <= step -> (Z.to_nat (hi - i) <= fuel)%nat ->
  In j (idx_fuel fuel i hi step)
  <-> (i <= j < hi /\ (j - i) mod step = 0).
Proof.
  intros Hstep. revert i. induction fuel as [|f IH]; intros i Hfuel; simpl.
  - split; [done|]. intros [? _]. lia.
  - destruct (Z.ltb_spec i hi) as [Hlt|Hge]; simpl.
    + rewrite IH by lia. split.
      * intros [->|[Hr Hm]].
        -- split; [lia|]. by rewrite Z.sub_diag, Z.mod_0_l by lia.
        -- split; [lia|].
           replace (j - i) with ((j - (i + step)) + 1 * step) by lia.
           by rewrite Z.mod_add by lia.
      * intros [Hr Hm].
        destruct (Z.eq_dec i j) as [->|Hne]; [by left|right].
        assert (Hq : j - i = step * ((j - i) / step)).
        { apply Z.div_exact; [lia | done]. }
        assert (0 < (j - i) / step) by nia.
        split; [nia|].
        replace (j - (i + step)) with ((j - i) + (-1) * step) by lia.
        by rewrite Z.mod_add by lia.
    + split; [done|]. intros [? _]. lia.
Qed.

Lemma idx_range_spec lo hi step j :
  1 <= step ->
  In j (idx_range lo hi step) <-> (lo <= j < hi /\ (j - lo) mod step = 0).
Proof. intros. apply idx_fuel_spec; [done | lia]. Qed.

(** ** Arrays *)

Lemma length_wr {A} (a : list A) i v : length (wr a i v) = length a.
Proof. unfold wr. destruct (i <? 0); [done | apply length_insert]. Qed.

Lemma rd_wr_eq {A} (d : A) a i v :
  0 <= i < Z.of_nat (length a) -> rd d (wr a i v) i = v.
Proof.
  intros Hi. unfold rd, wr.
  destruct (Z.ltb_spec i 0); [lia|].
  rewrite nth_lookup, list_lookup_insert_eq; [done | lia].
Qed.

Lemma rd_wr_ne {A} (d : A) a i j v : i <> j -> rd d (wr a i v) j = rd d a j.
Proof.
  intros Hne. unfold rd, wr.
  destruct (Z.ltb_spec j 0); [done|].
  destruct (Z.ltb_spec i 0); [done|].
  rewrite !nth_lookup, list_lookup_insert_ne; [done | lia].
Qed.

Lemma rd_nth {A} (d : A) a (k : nat) : rd d a (Z.of_nat k) = nth k a d.
Proof.
  unfold rd. destruct (Z.ltb_spec (Z.of_nat k) 0); [lia|].
  by rewrite Nat2Z.id.
Qed.

(** Two arrays of one length with the same cells are equal. *)
Lemma array_ext {A} (d : A) (a b : list A) :
  length a = length b ->
  (forall i, 0 <= i < Z.of_nat (length a) -> rd d a i = rd d b i) -> a = b.
Proof.
  intros Hlen Hrd. apply (nth_ext a b d d Hlen).
  intros k Hk. rewrite <- !rd_nth. apply Hrd. lia.
Qed.

(** ** Loops, continued *)

Section Fold_facts.
Context {St A : Type} (f : St -> A -> St).

(** What a step establishes for its own element, and no later step
    undoes, holds of every element at the end. *)
Lemma fold_left_each (Inv : St -> Prop) (Q : A -> St -> Prop) l s :
  Inv s ->
  (forall a s', In a l -> Inv s' -> Inv (f s' a)) ->
  (forall a s', In a l -> Inv s' -> Q a (f s' a)) ->
  (forall a b s', In a l -> In b l -> Inv s' -> Q a s' -> Q a (f s' b)) ->
  Inv (fold_left f l s) /\ forall a, In a l -> Q a (fold_left f l s).
Proof.
  intros Hs Hinv Hest Hkeep.
  assert (Hgen : forall l' s',
    (forall a, In a l' -> In a l) -> Inv s' ->
    Inv (fold_left f l' s')
    /\ (forall a, In a l -> Q a s' -> Q a (fold_left f l' s'))
    /\ (forall a, In a l' -> Q a (fold_left f l' s'))).
  { induction l' as [|b l' IH]; intros s' Hsub Hs'; simpl.
    - repeat split; [done.. |]. intros a [].
    - assert (Hb : In b l) by (apply Hsub; by left).
      destruct (IH (f s' b)) as (H1 & H2 & H3).
      { intros a Ha. apply Hsub. by right. }
      { by apply Hinv. }
      repeat split; [done | |].
      + intros a Ha Hq. apply H2; [done|]. by apply Hkeep.
      + intros a [<-|Ha]; [|by apply H3].
        apply H2; [done|]. by apply Hest. }
  destruct (Hgen l s) as (H1 & _ & H3); done.
Qed.

End Fold_facts.

Lemma fold_left_nest {St} (body : Z -> Z -> St -> St) ys xs s :
  fold_left (fun acc y => fold_left (fun acc x => body y x acc) (xs y) acc) ys s
  = fold_left (fun acc p => body (fst p) (snd p) acc) (idx_pairs ys xs) s.
Proof.
  revert s. induction ys as [|y ys IH]; intros s; simpl; [done|].
  unfold idx_pairs in *. simpl. rewrite fold_left_app, <- IH. f_equal.
  generalize (xs y). intros l. revert s.
  induction l as [|x l IHl]; intros s; simpl; [done | apply IHl].
Qed.

Lemma fold_left_same {St A} (f g : St -> A -> St) l s :
  (forall acc a, f acc a = g acc a) -> fold_left f l s = fold_left g l s.
Proof.
  intros Hfg. revert s. induction l as [|a l IH]; intros s; simpl; [done|].
  by rewrite Hfg, IH.
Qed.

Lemma for_range_nest {St} lo1 hi1 st1 (lo2 : Z -> Z) hi2 st2
    (body : Z -> Z -> St -> St) s :
  for_range lo1 hi1 st1 (fun y => for_range (lo2 y) hi2 st2 (body y)) s
  = fold_left (fun acc p => body (fst p) (snd p) acc)
      (idx_pairs (idx_range lo1 hi1 st1) (fun y => idx_range (lo2 y) hi2 st2)) s.
Proof.
  rewrite for_range_fold, <- fold_left_nest.
  apply fold_left_same. intros acc y. apply for_range_fold.
Qed.

Lemma in_idx_pairs ys xs y x :
  In (y, x) (idx_pairs ys xs) <-> In y ys /\ In x (xs y).
Proof.
  unfold idx_pairs. rewrite in_flat_map. split.
  - intros (y' & Hy & Hin). apply in_map_iff in Hin as (x' & Heq & Hx).
    by simplify_eq.
  - intros [Hy Hx]. exists y. split; [done|]. apply in_map_iff. eauto.
Qed.

(** ** Side of the synthesis grid *)

Section Side_facts.
(** The counting loop of geo.c stops at the first [n >= n0] with
    [2^n + 1 >= maxdim]. *)
Lemma geo_find_n_from fuel maxdim n0 :
  0 <= n0 -> maxdim <= 2 ^ (n0 + Z.of_nat fuel - 1) + 1 -> (0 < fuel)%nat ->
  exists n,
    while_loop fuel (fun n => Z.shiftl 1 n + 1 <? maxdim) (fun n => n + 1) n0
    = Some n
    /\ n0 <= n /\ maxdim <= 2 ^ n + 1
    /\ forall k, n0 <= k < n -> 2 ^ k + 1 < maxdim.
Proof.
  revert n0. induction fuel as [|f IH]; intros n0 Hn0 Hmax Hf; [lia|].
  simpl. rewrite Z.shiftl_1_l.
  destruct (Z.ltb_spec (2 ^ n0 + 1) maxdim) as [Hlt|Hge].
  - destruct f as [|f'].
    { exfalso. replace (n0 + Z.of_nat 1 - 1) with n0 in Hmax by lia. lia. }
    destruct (IH (n0 + 1)) as (n & Hrun & Hle & Hcov & Hmin); [lia| |lia|].
    { replace (n0 + 1 + Z.of_nat (S f') - 1)
        with (n0 + Z.of_nat (S (S f')) - 1) by lia. done. }
    exists n. repeat split; [done | lia | done |].
    intros k Hk. destruct (Z.eq_dec k n0) as [->|]; [done|]. apply Hmin. lia.
  - exists n0. repeat split; [lia | lia |]. intros k Hk. lia.
Qed.

(** The doubling loop of plasma.c stops at the first power of two that
    reaches [target]. *)
Lemma plasma_doubling_from fuel target k :
  0 <= k -> target <= 2 ^ (k + Z.of_nat fuel - 1) -> (0 < fuel)%nat ->
  exists n,
    while_loop fuel (fun side => side <? target)
      (fun side => Z.shiftl side 1) (2 ^ k) = Some (2 ^ n)
    /\ k <= n /\ target <= 2 ^ n
    /\ forall j, k <= j < n -> 2 ^ j < target.
Proof.
  revert k. induction fuel as [|f IH]; intros k Hk Hmax Hf; [lia|].
  simpl. destruct (Z.ltb_spec (2 ^ k) target) as [Hlt|Hge].
  - destruct f as [|f'].
    { exfalso. replace (k + Z.of_nat 1 - 1) with k in Hmax by lia. lia. }
    rewrite Z.shiftl_mul_pow2 by lia.
    replace (2 ^ k * 2 ^ 1) with (2 ^ (k + 1))
      by (rewrite Z.pow_add_r by lia; lia).
    destruct (IH (k + 1)) as (n & Hrun & Hle & Hcov & Hmin); [lia| |lia|].
    { replace (k + 1 + Z.of_nat (S f') - 1)
        with (k + Z.of_nat (S (S f')) - 1) by lia. done. }
    exists n. repeat split; [done | lia | done |].
    intros j Hj. destruct (Z.eq_dec j k) as [->|]; [done|]. apply Hmin. lia.
  - exists k. repeat split; [lia | lia |]. intros j Hj. lia.
Qed.

End Side_facts.

(** A [while] loop that returns has seen its condition fail, and keeps
    an invariant of its body. *)
Lemma while_loop_exit {St} (Inv : St -> Prop) (cond : St -> bool)
    (body : St -> St) :
  (forall s, Inv s -> cond s = true -> Inv (body s)) ->
  forall fuel s r, Inv s -> while_loop fuel cond body s = Some r ->
    Inv r /\ cond r = false.
Proof.
  intros Hbody. induction fuel as [|f IH]; intros s r Hs; simpl; [done|].
  destruct (cond s) eqn:Hc.
  - apply IH. by apply Hbody.
  - intros [= <-]. done.
Qed.

(** geo.c takes the least [n >= 1] with [2^n + 1 >= max(W,H)]. *)
Lemma geo_side_minimal (W H : Z) :
  Z.max W H <= 2 ^ 30 + 1 ->
  exists P, Geo_side.side W H = Some P /\ minimal_side 1 W H P.
Proof.
  intros Hmax.
  assert (Hmd : Geo_side.maxdim W H = Z.max W H).
  { unfold Geo_side.maxdim. destruct (Z.gtb_spec W H); lia. }
  destruct (geo_find_n_from 32 (Z.max W H) 1) as (n & Hrun & Hle & Hcov & Hmin);
    [lia | simpl; lia | lia |].
  assert (Hn30 : n <= 30).
  { destruct (Z.le_gt_cases n 30) as [|Hgt]; [done|].
    specialize (Hmin 30 ltac:(lia)). lia. }
  exists (2 ^ n + 1). split.
  + unfold Geo_side.side, Geo_side.find_n. rewrite Hmd, Hrun.
    destruct (Z.leb_spec n 30); [|lia]. by rewrite Z.shiftl_1_l.
  + exists n. repeat split; [done | lia |].
    intros m Hm Hcovm. destruct (Z.le_gt_cases n m) as [|Hlt]; [done|].
    specialize (Hmin m). lia.
Qed.

(** Beyond [2^30 + 1] the search of geo.c comes to the shift [1<<31]. *)
Lemma geo_side_undefined (W H : Z) :
  2 ^ 30 + 1 < Z.max W H -> Geo_side.side W H = None.
Proof.
  intros Hmax.
  assert (Hmd : Geo_side.maxdim W H = Z.max W H).
  { unfold Geo_side.maxdim. destruct (Z.gtb_spec W H); lia. }
  unfold Geo_side.side, Geo_side.find_n. rewrite Hmd.
  destruct (while_loop 32 _ _ 1) as [n|] eqn:Hrun; [|done].
  apply (while_loop_exit (fun n => 1 <= n)) in Hrun as [Hn Hc];
    [ | intros; lia | lia].
  apply Z.ltb_ge in Hc. rewrite Z.shiftl_1_l in Hc.
  destruct (Z.leb_spec n 30) as [Hle|]; [|done].
  assert (2 ^ n <= 2 ^ 30) by (apply Z.pow_le_mono_r; lia). lia.
Qed.

(** plasma.c takes the least [n >= 0] with [2^n + 1 >= max(W,H)]. *)
Lemma plasma_side_minimal (W H : Z) :
  Plasma_side.accept_dims W H = true ->
  exists P, Plasma_side.side W H = Some P /\ minimal_side 0 W H P.
Proof.
  unfold Plasma_side.accept_dims, Plasma_side.MAX_CELLS. intros Hacc.
  apply andb_true_iff in Hacc as [Hacc Hsz].
  apply andb_true_iff in Hacc as [HW HH].
  apply Z.ltb_lt in HW, HH. apply negb_true_iff, orb_false_iff in Hsz as [_ Hsz].
  destruct (Z.gtb_spec (W * H) 2000000) as [|Hcells]; [done|]. clear Hsz.
  assert (Hneed : (if W >? H then W else H) = Z.max W H).
  { destruct (Z.gtb_spec W H); lia. }
  assert (Hbound : Z.max W H <= 2000000) by nia.
  set (target := if Z.max W H <=? 1 then 1 else Z.max W H - 1).
  assert (Htarget : target = Z.max (Z.max W H - 1) 1).
  { unfold target. destruct (Z.leb_spec (Z.max W H) 1); lia. }
  destruct (plasma_doubling_from 32 target 0) as (n & Hrun & Hle & Hcov & Hmin);
    [lia | simpl; lia | lia |].
  exists (2 ^ n + 1). split.
  + unfold Plasma_side.side, Plasma_side.pow2plus1_at_least,
      Plasma_side.pow2plus1_at_least_fuel.
    rewrite Hneed. change (2 ^ 0) with 1 in Hrun. unfold target in Hrun.
    by rewrite Hrun.
  + exists n. repeat split; [done | lia |].
    intros m Hm Hcovm. destruct (Z.le_gt_cases n m) as [|Hlt]; [done|].
    specialize (Hmin m).
    assert (0 < 2 ^ m) by (apply Z.pow_pos_nonneg; lia). lia.
Qed.

(** plasma.c, from the command line: two values whose conversions to
    [int] are both negative pass the size check as well, and the side is
    then 2. *)
Lemma plasma_side_of_options (vx vy W H : Z) :
  Plasma_side.accept_opts vx vy = Some (W, H) ->
  exists P, Plasma_side.side W H = Some P /\ minimal_side 0 W H P.
Proof.
  unfold Plasma_side.accept_opts. cbv zeta.
  destruct ((vx <=? 0) || (vy <=? 0)); [done|].
  destruct (_ || _) eqn:Hsz; [done|]. intros [= <- <-].
  set (W := int32 vx) in *. set (H := int32 vy) in *.
  apply orb_false_iff in Hsz as [Hpos Hcells].
  apply Z.leb_gt in Hpos.
  destruct (Z.lt_ge_cases 0 W) as [HW|HW].
  - apply plasma_side_minimal. unfold Plasma_side.accept_dims.
    rewrite Hcells. destruct (Z.leb_spec (W * H) 0); [lia|].
    destruct (Z.ltb_spec 0 W); [|lia]. destruct (Z.ltb_spec 0 H); [done | nia].
  - assert (HH : H < 0) by nia. assert (HW' : W < 0) by nia.
    exists 2. split.
    + unfold Plasma_side.side, Plasma_side.pow2plus1_at_least,
        Plasma_side.pow2plus1_at_least_fuel.
      destruct (W >? H);
        [destruct (Z.leb_spec W 1) | destruct (Z.leb_spec H 1)];
        (done || lia).
    + exists 0. repeat split; [lia | lia | lia].
Qed.

(** C6, as the code has it.  For accepted output dimensions [W] and [H]
    (the values stored, after the conversion [(int)v] of what the command
    line gave) the side of the synthesis grid is [2^n + 1] for the least
    [n] with [2^n >= max(W,H) - 1], where [n] ranges over [n >= 1] in
    geo.c (its loop starts at [n = 1], so the side is at least 3) and over
    [n >= 0] in plasma.c.  In geo.c that holds up to
    [max(W,H) = 2^30 + 1]; beyond, the search comes to the [int] shift
    [1<<31], which is undefined, and there is no side.  plasma.c accepts
    no dimension above [MAX_CELLS]. *)
Theorem side_is_minimal (vx vy W H : Z) :
  (Geo_side.accept_dim vx = Some W -> Geo_side.accept_dim vy = Some H ->
   (Z.max W H <= 2 ^ 30 + 1 ->
    exists P, Geo_side.side W H = Some P /\ minimal_side 1 W H P)
   /\ (2 ^ 30 + 1 < Z.max W H -> Geo_side.side W H = None))
  /\ (Plasma_side.accept_opts vx vy = Some (W, H) ->
      exists P, Plasma_side.side W H = Some P /\ minimal_side 0 W H P).
Proof.
  split.
  - intros _ _. split; [apply geo_side_minimal | apply geo_side_undefined].
  - apply plasma_side_of_options.
Qed.

Lemma side_is_minimal_witness :
  (exists P, Geo_side.side 64 48 = Some P /\ minimal_side 1 64 48 P)
  /\ Geo_side.side 1073741826 2 = None
  /\ (exists P, Plasma_side.side 20 20 = Some P /\ minimal_side 0 20 20 P).
Proof.
  split; [|split].
  - apply (proj1 (side_is_minimal 64 48 64 48)); [reflexivity | reflexivity|].
    lia.
  - apply (proj1 (side_is_minimal 1073741826 2 1073741826 2));
      [reflexivity | reflexivity | lia].
  - apply (proj2 (side_is_minimal 20 20 20 20)). reflexivity.
Defined.

(** C6 as stated fails in geo.c: for the accepted dimensions 2 x 2 the
    side is 3 = 2^1 + 1, although 2 = 2^0 + 1 already covers them. *)
Lemma side_not_minimal_geo :
  Geo_side.accept_dim 2 = Some 2
  /\ Geo_side.side 2 2 = Some 3
  /\ ~ minimal_side 0 2 2 3.
Proof.
  repeat split.
  intros (n & Hn & HP & _ & Hmin).
  assert (Hn0 : n <= 0) by (apply Hmin; simpl; lia).
  assert (n = 0) as -> by lia. simpl in HP. lia.
Qed.

(** The usual rule for a loop that counts up by one. *)
Lemma for_fuel_ind {St} (Inv : Z -> St -> Prop) (body : Z -> St -> St) hi :
  (forall i s, i < hi -> Inv i s -> Inv (i + 1) (body i s)) ->
  forall fuel i s,
    (Z.to_nat (hi - i) <= fuel)%nat -> i <= hi -> Inv i s ->
    Inv hi (for_fuel fuel i hi 1 body s).
Proof.
  intros Hstep. induction fuel as [|f IH]; intros i s Hfuel Hle Hinv; simpl.
  - by replace hi with i by lia.
  - destruct (Z.ltb_spec i hi) as [Hlt|Hge].
    + apply IH; [lia | lia | by apply Hstep].
    + by replace hi with i by lia.
Qed.

Lemma for_range_ind {St} (Inv : Z -> St -> Prop) (body : Z -> St -> St)
    lo hi s :
  lo <= hi -> Inv lo s ->
  (forall i s', lo <= i < hi -> Inv i s' -> Inv (i + 1) (body i s')) ->
  Inv hi (for_range lo hi 1 body s).
Proof.
  intros Hle Hinv Hstep. unfold for_range.
  apply (for_fuel_ind (fun i s' => lo <= i /\ Inv i s') body hi);
    [ | lia | lia | done].
  intros i s' Hi [Hlo Hi']. split; [lia|]. apply Hstep; [lia | done].
Qed.

(** An empty range leaves the state alone. *)
Lemma for_range_empty {St} (body : Z -> St -> St) lo hi step s :
  hi <= lo -> for_range lo hi step body s = s.
Proof.
  intros Hle. unfold for_range. replace (Z.to_nat (hi - lo)) with O by lia.
  done.
Qed.


(** Row-major indices of a [W]-wide grid determine the cell. *)
Lemma cell_index_inj W y x y' x' :
  0 <= x < W -> 0 <= x' < W -> y * W + x = y' * W + x' -> y = y' /\ x = x'.
Proof. intros Hx Hx' Heq. assert (y = y') by nia. subst. lia. Qed.

Lemma cell_index_bound W H y x :
  0 <= x < W -> 0 <= y < H -> 0 <= y * W + x < W * H.
Proof. intros Hx Hy. nia. Qed.

(** A loop storing [val i] in cell [i] for [i] from [0] to [N - 1]. *)
Lemma fill1d {A} (d : A) (val : Z -> A) (out : list A) N :
  0 <= N <= Z.of_nat (length out) ->
  let r := for_range 0 N 1 (fun i o => wr o i (val i)) out in
  length r = length out
  /\ (forall i, 0 <= i < N -> rd d r i = val i)
  /\ (forall j, N <= j -> rd d r j = rd d out j).
Proof.
  intros HN r. unfold r.
  set (Inv := fun (k : Z) (o : list A) =>
    length o = length out
    /\ (forall i, 0 <= i < k -> rd d o i = val i)
    /\ (forall j, k <= j -> rd d o j = rd d out j)).
  change (Inv N (for_range 0 N 1 (fun i o => wr o i (val i)) out)).
  apply for_range_ind; [lia | |].
  - unfold Inv. split_and!; [done | | done]. intros i Hi. lia.
  - intros i o Hi (Hlen & Hdone & Hrest). unfold Inv. split_and!.
    + by rewrite length_wr.
    + intros j Hj. destruct (Z.eq_dec i j) as [->|Hne].
      * apply rd_wr_eq. lia.
      * rewrite rd_wr_ne by done. apply Hdone. lia.
    + intros j Hj. rewrite rd_wr_ne by lia. apply Hrest. lia.
Qed.


(** ** Doubles *)

Lemma Qltb_lt a b : Qltb a b = true <-> (a < b)%Q.
Proof.
  unfold Qltb. rewrite negb_true_iff, <- not_true_iff_false, Qle_bool_iff.
  split; [apply Qnot_le_lt | apply Qlt_not_le].
Qed.

Lemma Qltb_ge a b : Qltb a b = false <-> (b <= a)%Q.
Proof. unfold Qltb. by rewrite negb_false_iff, Qle_bool_iff. Qed.

(** ** Normalisation in plasma.c *)

(** A loop that counts up by one, whatever its bounds. *)
Lemma for_range_ind_max {St} (Inv : Z -> St -> Prop) (body : Z -> St -> St)
    lo hi s :
  Inv lo s ->
  (forall i s', lo <= i < hi -> Inv i s' -> Inv (i + 1) (body i s')) ->
  Inv (Z.max lo hi) (for_range lo hi 1 body s).
Proof.
  intros Hinv Hstep. destruct (Z.le_gt_cases lo hi) as [Hle|Hgt].
  - rewrite Z.max_r by done. by apply for_range_ind.
  - rewrite Z.max_l by lia. by rewrite for_range_empty by lia.
Qed.

(** ** Triangle fill in iso.c *)

Section Fill_tri_facts.
Import Iso.

Lemma px_index_inj W x y c x' y' c' :
  0 <= x < W -> 0 <= x' < W -> 0 <= c < 3 -> 0 <= c' < 3 ->
  (y * W + x) * 3 + c = (y' * W + x') * 3 + c' ->
  y = y' /\ x = x' /\ c = c'.
Proof.
  intros Hx Hx' Hc Hc' Heq.
  assert (Hcell : y * W + x = y' * W + x') by lia.
  apply cell_index_inj in Hcell; [|done..]. lia.
Qed.

Lemma length_put_px fb W H x y r g b :
  length (put_px fb W H x y r g b) = length fb.
Proof.
  unfold put_px. destruct (_ || _); [done|]. by rewrite !length_wr.
Qed.

(** [put_px] inside the framebuffer sets the three bytes of its pixel and
    no other. *)
Lemma px_byte_put_px_same fb W H x y r g b c :
  Z.of_nat (length fb) = W * H * 3 ->
  0 <= x < W -> 0 <= y < H -> 0 <= c < 3 ->
  px_byte (put_px fb W H x y r g b) W x y c = colour_byte r g b c.
Proof.
  intros Hlen Hx Hy Hc. unfold put_px, px_byte.
  destruct (Z.ltb_spec x 0); [lia|]. destruct (Z.ltb_spec y 0); [lia|].
  destruct (Z.leb_spec W x); [lia|]. destruct (Z.leb_spec H y); [lia|].
  simpl.
  pose proof (cell_index_bound W H y x Hx Hy) as Hb.
  unfold colour_byte.
  destruct (Z.eqb_spec c 0) as [->|]; [|destruct (Z.eqb_spec c 1) as [->|]].
  - rewrite !rd_wr_ne by lia. apply rd_wr_eq. lia.
  - rewrite rd_wr_ne by lia. apply rd_wr_eq. rewrite length_wr. lia.
  - assert (c = 2) as -> by lia. apply rd_wr_eq. rewrite !length_wr. lia.
Qed.

Lemma px_byte_put_px_other fb W H x y r g b x' y' c :
  0 <= x' < W -> 0 <= c < 3 -> (x', y') <> (x, y) ->
  px_byte (put_px fb W H x y r g b) W x' y' c = px_byte fb W x' y' c.
Proof.
  intros Hx' Hc Hne. unfold put_px, px_byte.
  destruct (Z.ltb_spec x 0); [done|]. destruct (Z.ltb_spec y 0); [done|].
  destruct (Z.leb_spec W x); [done|]. destruct (Z.leb_spec H y); [done|].
  simpl.
  rewrite !rd_wr_ne; [done | intros Heq..];
    apply px_index_inj in Heq; try lia;
    destruct Heq as (-> & -> & _); done.
Qed.

(** A loop nest that paints the pixels of a rectangle selected by
    [sel]. *)
Lemma paint_loops (sel : Z -> Z -> bool) fb W H lx hx ly hy r g b :
  Z.of_nat (length fb) = W * H * 3 ->
  0 <= lx -> hx <= W -> 0 <= ly -> hy <= H ->
  let fb' :=
    for_range ly hy 1 (fun y =>
      for_range lx hx 1 (fun x fb1 =>
        if sel x y then put_px fb1 W H x y r g b else fb1)) fb in
  length fb' = length fb
  /\ forall x y c, 0 <= x < W -> 0 <= c < 3 ->
       (ly <= y < hy -> lx <= x < hx -> sel x y = true ->
        px_byte fb' W x y c = colour_byte r g b c)
       /\ (~ (ly <= y < hy /\ lx <= x < hx /\ sel x y = true) ->
           px_byte fb' W x y c = px_byte fb W x y c).
Proof.
  intros Hlen Hlx Hhx Hly Hhy fb'. unfold fb'. clear fb'.
  set (Inv := fun (k : Z) (f : list Z) =>
    length f = length fb
    /\ forall x y c, 0 <= x < W -> 0 <= c < 3 ->
         (ly <= y < k -> lx <= x < hx -> sel x y = true ->
          px_byte f W x y c = colour_byte r g b c)
         /\ (~ (ly <= y < k /\ lx <= x < hx /\ sel x y = true) ->
             px_byte f W x y c = px_byte fb W x y c)).
  assert (HInv : Inv (Z.max ly hy) (for_range ly hy 1 (fun y =>
      for_range lx hx 1 (fun x fb1 =>
        if sel x y then put_px fb1 W H x y r g b else fb1)) fb)).
  { apply for_range_ind_max.
    - split; [done|]. intros x y c Hx Hc. split; [lia | done].
    - intros y f Hy [Hlf Hpx].
      set (Inv2 := fun (k : Z) (f' : list Z) =>
        length f' = length fb
        /\ forall x y' c, 0 <= x < W -> 0 <= c < 3 ->
             ((ly <= y' < y /\ lx <= x < hx \/ y' = y /\ lx <= x < k) ->
              sel x y' = true ->
              px_byte f' W x y' c = colour_byte r g b c)
             /\ (~ ((ly <= y' < y /\ lx <= x < hx \/ y' = y /\ lx <= x < k)
                    /\ sel x y' = true) ->
                 px_byte f' W x y' c = px_byte fb W x y' c)).
      assert (HInv2 : Inv2 (Z.max lx hx) (for_range lx hx 1 (fun x fb1 =>
        if sel x y then put_px fb1 W H x y r g b else fb1) f)).
      { apply for_range_ind_max.
        - split; [done|]. intros x y' c Hx Hc.
          destruct (Hpx x y' c Hx Hc) as [Hp1 Hp2]. split.
          + intros [[? ?]|[? ?]] ?; [by apply Hp1 | lia].
          + intros Hn. apply Hp2. intros (? & ? & ?). apply Hn.
            split; [left; lia | done].
        - intros x f' Hx [Hlf' Hpx']. split.
          + destruct (sel x y); [by rewrite length_put_px | done].
          + intros x' y' c Hx' Hc.
            destruct (Hpx' x' y' c Hx' Hc) as [Hp1 Hp2].
            destruct (decide ((x', y') = (x, y))) as [Heq|Hne].
            * injection Heq as -> ->.
              destruct (sel x y) eqn:Hsel.
              -- split.
                 ++ intros _ _. apply px_byte_put_px_same; [|lia..].
                    rewrite Hlf'. done.
                 ++ intros Hn. exfalso. apply Hn. split; [right; lia | done].
              -- split; [intros _ ?; congruence|].
                 intros Hn. apply Hp2. intros [_ ?]. congruence.
            * assert (Hxy : ~ (y' = y /\ x' = x)).
              { intros [-> ->]. by apply Hne. }
              assert (Hsame : px_byte
                        (if sel x y then put_px f' W H x y r g b else f')
                        W x' y' c = px_byte f' W x' y' c).
              { destruct (sel x y); [|done].
                by apply px_byte_put_px_other. }
              rewrite Hsame. split.
              -- intros Hin Hs. apply Hp1; [|done].
                 destruct Hin as [?|[? ?]]; [by left | right; lia].
              -- intros Hn. apply Hp2. intros [Hin Hs]. apply Hn.
                 split; [|done].
                 destruct Hin as [?|[? ?]]; [by left | right; lia]. }
      destruct HInv2 as [Hlf' Hpx']. split; [done|].
      intros x y' c Hx Hc. destruct (Hpx' x y' c Hx Hc) as [Hp1 Hp2]. split.
      + intros Hy' Hxr Hs. apply Hp1; [|done].
        destruct (Z.eq_dec y' y); [right | left]; lia.
      + intros Hn. apply Hp2. intros [Hin Hs]. apply Hn.
        destruct Hin as [?|[? ?]]; (split; [lia | split; [lia | done]]). }
  destruct HInv as [Hlf Hpx]. split; [done|].
  intros x y c Hx Hc. destruct (Hpx x y c Hx Hc) as [Hp1 Hp2]. split.
  - intros Hy Hxr Hs. apply Hp1; [lia | done..].
  - intros Hn. apply Hp2. intros (? & ? & ?). apply Hn.
    split; [lia | split; [lia | done]].
Qed.

End Fill_tri_facts.

Section Fill_tri_claim.
Import Iso.

Lemma clip_lo a b c :
  (let m := a in
   let m := if b <? m then b else m in
   let m := if c <? m then c else m in
   if m <? 0 then 0 else m) = Z.max 0 (Z.min a (Z.min b c)).
Proof.
  cbv zeta. destruct (Z.ltb_spec b a); repeat case_match;
    repeat match goal with
           | H : (_ <? _) = true |- _ => apply Z.ltb_lt in H
           | H : (_ <? _) = false |- _ => apply Z.ltb_ge in H
           end; lia.
Qed.

Lemma clip_hi a b c n :
  (let m := a in
   let m := if m <? b then b else m in
   let m := if m <? c then c else m in
   if n <=? m then n - 1 else m) = Z.min (n - 1) (Z.max a (Z.max b c)).
Proof.
  cbv zeta. destruct (Z.ltb_spec a b); repeat case_match;
    repeat match goal with
           | H : (_ <? _) = true |- _ => apply Z.ltb_lt in H
           | H : (_ <? _) = false |- _ => apply Z.ltb_ge in H
           | H : (_ <=? _) = true |- _ => apply Z.leb_le in H
           | H : (_ <=? _) = false |- _ => apply Z.leb_gt in H
           end; lia.
Qed.

Lemma same_sign_b_spec x0 y0 x1 y1 x2 y2 x y :
  same_sign_b x0 y0 x1 y1 x2 y2 x y = true
  <-> same_sign x0 y0 x1 y1 x2 y2 x y.
Proof.
  unfold same_sign_b, same_sign, edge. cbv zeta.
  rewrite orb_true_iff, !andb_true_iff, !Z.leb_le. tauto.
Qed.

End Fill_tri_claim.

(** ** Bilinear resampling *)



Lemma for_fuel_None {St} (body : Z -> option St -> option St) fuel i hi step :
  (forall j, body j None = None) ->
  for_fuel fuel i hi step body None = None.
Proof.
  intros Hnone. revert i. induction fuel as [|f IH]; intros i; simpl; [done|].
  destruct (i <? hi); [by rewrite Hnone | done].
Qed.




(** ** The flood of geo.c *)

Section Flood_facts.
Context {E : Type} (le : E -> E -> bool) (e0 : E).
Context (h : list E) (W H : Z) (level : E).
Context (from_edge seed_set sx sy : Z).
Context (HW : 0 < W) (HH : 0 < H).

Local Abbreviation Low := (Geo.low le e0 h W H level).
Local Abbreviation Fl :=
  (Geo.flooded le e0 h W H level from_edge seed_set sx sy).
Local Abbreviation Inv :=
  (Geo.search_inv le e0 h W H level from_edge seed_set sx sy).
Local Abbreviation RInv :=
  (Geo.result_inv le e0 h W H level from_edge seed_set sx sy).
Local Abbreviation MaskOk := (Geo.mask_ok le e0 h W H level).
Local Abbreviation Marked := (Geo.marked W).
Local Abbreviation Grid := (Geo.in_grid W H).

Lemma grid_index x y : Grid x y -> 0 <= y * W + x < W * H.
Proof. intros [Hx Hy]. by apply cell_index_bound. Qed.

Lemma marked_wr_same m x y :
  Z.of_nat (length m) = W * H -> Grid x y -> Marked (wr m (y * W + x) 1) x y.
Proof using HW HH.
  intros Hlen Hg. unfold Geo.marked. apply rd_wr_eq.
  pose proof (grid_index x y Hg). lia.
Qed.

Lemma rd_wr_other_cell m x y x' y' v :
  Grid x y -> Grid x' y' -> (x', y') <> (x, y) ->
  rd 0 (wr m (y * W + x) v) (y' * W + x') = rd 0 m (y' * W + x').
Proof.
  intros [Hx Hy] [Hx' Hy'] Hne. apply rd_wr_ne. intros Heq.
  apply cell_index_inj in Heq as [-> ->]; done.
Qed.

Lemma grows_wr m x y :
  Z.of_nat (length m) = W * H -> Grid x y ->
  Geo.grows W H m (wr m (y * W + x) 1).
Proof using HW HH.
  intros Hlen Hg x' y' Hg' Hm.
  destruct (decide ((x', y') = (x, y))) as [Heq|Hne].
  - injection Heq as -> ->. by apply marked_wr_same.
  - unfold Geo.marked. by rewrite rd_wr_other_cell.
Qed.

Lemma grows_refl m : Geo.grows W H m m.
Proof. by intros x y _ Hm. Qed.

Lemma grows_trans m1 m2 m3 :
  Geo.grows W H m1 m2 -> Geo.grows W H m2 m3 -> Geo.grows W H m1 m3.
Proof. intros H12 H23 x y Hg Hm. apply H23; [done|]. by apply H12. Qed.

Lemma extends_refl s : Geo.extends W H s s.
Proof. split_and!; [apply grows_refl | done | lia | done]. Qed.

Lemma extends_trans s1 s2 s3 :
  Geo.extends W H s1 s2 -> Geo.extends W H s2 s3 -> Geo.extends W H s1 s3.
Proof.
  intros (Hg1 & Hh1 & Ht1 & Hq1) (Hg2 & Hh2 & Ht2 & Hq2). split_and!.
  - by eapply grows_trans.
  - congruence.
  - lia.
  - intros k Hk. rewrite Hq2 by lia. by apply Hq1.
Qed.

Lemma mask_ok_wr m x y :
  MaskOk m -> Low x y -> MaskOk (wr m (y * W + x) 1).
Proof using HW HH.
  intros [Hlen Hbits] Hlow. pose proof Hlow as [Hg _]. split.
  - by rewrite length_wr.
  - intros x' y' Hg'. destruct (decide ((x', y') = (x, y))) as [Heq|Hne].
    + injection Heq as -> ->. right. split; [by apply marked_wr_same | done].
    + unfold Geo.marked. rewrite rd_wr_other_cell by done. by apply Hbits.
Qed.

(** Marking a low, flooded cell and pushing it keeps the invariant. *)
Lemma mark_push_inv d s x y :
  Inv d s -> Low x y -> Fl x y ->
  RInv d (Geo.mark_push (W * H) W x y s)
  /\ forall s', Geo.mark_push (W * H) W x y s = Geo.Ok s' ->
       Geo.extends W H s s' /\ Marked (Geo.mask s') x y
       /\ Geo.qt s' = Geo.qt s + 1.
Proof using HW HH.
  intros HI Hlow Hfl. pose proof Hlow as [Hg _].
  destruct HI as [Hmask Hqx Hqy Hidx Hsound Hqueue Hqueued Hdone].
  pose proof Hmask as [Hlen Hbits].
  pose proof (grows_wr _ x y Hlen Hg) as Hgrow.
  pose proof (marked_wr_same _ x y Hlen Hg) as Hnew.
  pose proof (mask_ok_wr _ x y Hmask Hlow) as Hmask'.
  unfold Geo.mark_push. destruct (Z.leb_spec (W * H) (Geo.qt s)) as [Hfull|Hroom].
  - split; [exact Hmask' | intros s' Hs'; discriminate].
  - set (s1 := {| Geo.mask := wr (Geo.mask s) (y * W + x) 1;
                  Geo.queue_x := wr (Geo.queue_x s) (Geo.qt s) x;
                  Geo.queue_y := wr (Geo.queue_y s) (Geo.qt s) y;
                  Geo.qh := Geo.qh s; Geo.qt := Geo.qt s + 1 |}).
    assert (Hm1 : Geo.mask s1 = wr (Geo.mask s) (y * W + x) 1) by done.
    assert (Hqx1 : Geo.queue_x s1 = wr (Geo.queue_x s) (Geo.qt s) x) by done.
    assert (Hqy1 : Geo.queue_y s1 = wr (Geo.queue_y s) (Geo.qt s) y) by done.
    assert (Hqh1 : Geo.qh s1 = Geo.qh s) by done.
    assert (Hqt1 : Geo.qt s1 = Geo.qt s + 1) by done.
    clearbody s1.
    assert (Hcell : forall k, 0 <= k < Geo.qt s ->
              Geo.queue_cell s1 k = Geo.queue_cell s k).
    { intros k Hk. unfold Geo.queue_cell. rewrite Hqx1, Hqy1.
      by rewrite !rd_wr_ne by lia. }
    assert (Hlast : Geo.queue_cell s1 (Geo.qt s) = (x, y)).
    { unfold Geo.queue_cell. rewrite Hqx1, Hqy1. by rewrite !rd_wr_eq by lia. }
    split.
    + constructor; rewrite ?Hm1, ?Hqx1, ?Hqy1, ?Hqh1, ?Hqt1.
      * exact Hmask'.
      * by rewrite length_wr.
      * by rewrite length_wr.
      * lia.
      * intros x' y' Hg' Hm. destruct (decide ((x', y') = (x, y))) as [Heq|Hne].
        -- by injection Heq as -> ->.
        -- apply Hsound; [done|]. unfold Geo.marked in *.
           by rewrite rd_wr_other_cell in Hm.
      * intros k Hk. destruct (Z.eq_dec k (Geo.qt s)) as [->|Hne].
        -- rewrite Hlast. simpl. done.
        -- rewrite Hcell by lia. destruct (Hqueue k) as [Hgk Hmk]; [lia|].
           split; [done|]. by apply Hgrow.
      * intros x' y' Hg' Hm. destruct (decide ((x', y') = (x, y))) as [Heq|Hne].
        -- injection Heq as -> ->. exists (Geo.qt s). split; [lia | done].
        -- destruct (Hqueued x' y') as (k & Hk & Hkc); [done| |].
           { unfold Geo.marked in *. by rewrite rd_wr_other_cell in Hm. }
           exists k. split; [lia|]. by rewrite Hcell.
      * intros k x' y' Hk Hadj Hl. rewrite Hcell in Hadj by lia.
        pose proof Hl as [Hg' _]. apply Hgrow; [done|]. by eapply Hdone.
    + intros s' Hs'. injection Hs' as <-.
      split; [|split; [by rewrite Hm1 | done]].
      split; [by rewrite Hm1|]. split; [done|]. split; [lia | done].
Qed.
Local Abbreviation Step :=
  (Geo.marks_step le e0 h W H level from_edge seed_set sx sy).

Lemma marks_step_id d : Step d (fun r => r) (fun _ _ => False).
Proof.
  intros r Hr. split; [done|]. intros s' ->. exists s'.
  split; [done|]. split; [apply extends_refl | done].
Qed.

Lemma marks_step_weaken d f (C C' : Z -> Z -> Prop) :
  Step d f C -> (forall x y, C' x y -> C x y) -> Step d f C'.
Proof.
  intros Hf Hsub r Hr. destruct (Hf r Hr) as [Hinv Hok]. split; [done|].
  intros s' Hs'. destruct (Hok s' Hs') as (s & -> & Hext & Hm).
  exists s. split; [done|]. split; [done|]. intros x y Hc. by apply Hm, Hsub.
Qed.

Lemma marks_step_comp d f g (Cf Cg : Z -> Z -> Prop) :
  Step d f Cf -> Step d g Cg -> (forall x y, Cf x y -> Grid x y) ->
  Step d (fun r => g (f r)) (fun x y => Cf x y \/ Cg x y).
Proof.
  intros Hf Hg Hgrid r Hr. destruct (Hf r Hr) as [Hinv1 Hok1].
  destruct (Hg (f r) Hinv1) as [Hinv2 Hok2]. split; [done|].
  intros s' Hs'. destruct (Hok2 s' Hs') as (s1 & Hs1 & Hext2 & Hm2).
  destruct (Hok1 s1 Hs1) as (s & -> & Hext1 & Hm1).
  exists s. split; [done|]. split; [by eapply extends_trans|].
  intros x y [Hc|Hc]; [|by apply Hm2].
  destruct Hext2 as [Hgrow _]. apply Hgrow; [by apply Hgrid | by apply Hm1].
Qed.

Lemma marks_step_loop d (body : Z -> Geo.fres -> Geo.fres) lo hi
    (C : Z -> Z -> Z -> Prop) :
  (forall i, lo <= i < hi -> Step d (body i) (C i)) ->
  (forall i x y, C i x y -> Grid x y) ->
  Step d (for_range lo hi 1 body)
    (fun x y => exists i, lo <= i < hi /\ C i x y).
Proof.
  intros Hbody Hgrid r Hr.
  set (J := fun (k : Z) (r' : Geo.fres) =>
    RInv d r'
    /\ forall s', r' = Geo.Ok s' ->
         exists s, r = Geo.Ok s /\ Geo.extends W H s s'
           /\ forall x y, (exists i, lo <= i < k /\ C i x y) ->
                Marked (Geo.mask s') x y).
  assert (HJ : J (Z.max lo hi) (for_range lo hi 1 body r)).
  { apply for_range_ind_max.
    - split; [done|]. intros s' ->. exists s'. split; [done|].
      split; [apply extends_refl|]. intros x y (i & Hi & _). lia.
    - intros i r' Hi [Hinv Hok]. destruct (Hbody i Hi r' Hinv) as [Hinv' Hok'].
      split; [done|]. intros s' Hs'.
      destruct (Hok' s' Hs') as (s1 & -> & Hext' & Hm').
      destruct (Hok s1 eq_refl) as (s & -> & Hext & Hm).
      exists s. split; [done|]. split; [by eapply extends_trans|].
      intros x y (j & Hj & Hc). destruct (Z.eq_dec j i) as [->|Hne].
      + by apply Hm'.
      + destruct Hext' as [Hgrow _]. apply Hgrow; [by eapply Hgrid|].
        apply Hm. exists j. split; [lia | done]. }
  destruct HJ as [Hinv Hok]. split; [done|]. intros s' Hs'.
  destruct (Hok s' Hs') as (s & -> & Hext & Hm). exists s.
  split; [done|]. split; [done|]. intros x y (i & Hi & Hc). apply Hm.
  exists i. split; [lia | done].
Qed.

(** A conditional mark-and-push of a cell that is flooded when low. *)
Lemma seed_cell_step d x y :
  Grid x y -> (Low x y -> Fl x y) ->
  Step d (Geo.seed_cell le e0 h W level (W * H) x y)
    (fun x' y' => x' = x /\ y' = y /\ Low x y).
Proof using HW HH.
  intros Hg Hfl [s|s] Hr; simpl.
  - destruct (le (rd e0 h (y * W + x)) level) eqn:Hle.
    + assert (Hlow : Low x y) by done.
      destruct (mark_push_inv d s x y Hr Hlow (Hfl Hlow)) as [Hinv Hok].
      split; [done|]. intros s' Hs'. destruct (Hok s' Hs') as (Hext & Hm & _).
      exists s. split; [done|]. split; [done|]. by intros x' y' (-> & -> & _).
    + split; [done|]. intros s' [= <-]. exists s. split; [done|].
      split; [apply extends_refl|]. intros x' y' (-> & -> & [_ Hl]). congruence.
  - split; [done|]. intros s' Hs'. discriminate.
Qed.

Lemma clamp_idx_range c n : 0 < n -> 0 <= Geo.clamp_idx c n < n.
Proof.
  intros Hn. unfold Geo.clamp_idx.
  destruct (Z.ltb_spec c 0); [destruct (Z.leb_spec n 0) | destruct (Z.leb_spec n c)];
    lia.
Qed.

(** A mask cell that is not 0 is marked. *)
Lemma mask_ok_nonzero m x y :
  MaskOk m -> Grid x y -> rd 0 m (y * W + x) <> 0 -> Marked m x y.
Proof. intros [_ Hbits] Hg Hnz. destruct (Hbits x y Hg) as [?|[? _]]; done. Qed.

Lemma seed_edges_step d :
  from_edge <> 0 ->
  Step d (Geo.seed_edges le e0 h W H level (W * H))
    (fun x y => Low x y /\ Geo.on_border W H x y).
Proof using HW HH.
  intros Hfe.
  assert (Hcell : forall x y, Grid x y -> Geo.on_border W H x y ->
    Step d (Geo.seed_cell le e0 h W level (W * H) x y)
      (fun x' y' => x' = x /\ y' = y /\ Low x y)).
  { intros x y Hg Hb. apply seed_cell_step; [done|].
    intros Hl. apply Geo.flooded_source. split; [done|]. by left. }
  assert (Hx : Step d
    (for_range 0 W 1 (fun x r =>
       Geo.seed_cell le e0 h W level (W * H) x (H - 1)
         (Geo.seed_cell le e0 h W level (W * H) x 0 r)))
    (fun x y => exists i, 0 <= i < W
       /\ ((x = i /\ y = 0 /\ Low i 0)
           \/ (x = i /\ y = H - 1 /\ Low i (H - 1))))).
  { apply marks_step_loop.
    - intros i Hi.
      apply (marks_step_comp d
               (Geo.seed_cell le e0 h W level (W * H) i 0)
               (Geo.seed_cell le e0 h W level (W * H) i (H - 1))).
      + apply Hcell; [split; lia | right; right; by left].
      + apply Hcell; [split; lia | right; right; by right].
      + intros x y (-> & -> & _). split; lia.
    - intros i x y [(-> & -> & [Hg _])|(-> & -> & [Hg _])]; done. }
  assert (Hy : Step d
    (for_range 0 H 1 (fun y r =>
       Geo.seed_cell le e0 h W level (W * H) (W - 1) y
         (Geo.seed_cell le e0 h W level (W * H) 0 y r)))
    (fun x y => exists i, 0 <= i < H
       /\ ((x = 0 /\ y = i /\ Low 0 i)
           \/ (x = W - 1 /\ y = i /\ Low (W - 1) i)))).
  { apply marks_step_loop.
    - intros i Hi.
      apply (marks_step_comp d
               (Geo.seed_cell le e0 h W level (W * H) 0 i)
               (Geo.seed_cell le e0 h W level (W * H) (W - 1) i)).
      + apply Hcell; [split; lia | by left].
      + apply Hcell; [split; lia | right; by left].
      + intros x y (-> & -> & _). split; lia.
    - intros i x y [(-> & -> & [Hg _])|(-> & -> & [Hg _])]; done. }
  pose proof (marks_step_comp d _ _ _ _ Hx Hy) as Hxy.
  eapply marks_step_weaken; [apply Hxy|].
  - intros x y (i & Hi & [(-> & -> & [Hg _])|(-> & -> & [Hg _])]); done.
  - intros x y [Hl Hb]. pose proof Hl as [[Hgx Hgy] _].
    destruct Hb as [-> | [-> | [-> | ->]]].
    + right. exists y. split; [done|]. left. done.
    + right. exists y. split; [done|]. right. done.
    + left. exists x. split; [done|]. left. done.
    + left. exists x. split; [done|]. right. done.
Qed.

Lemma seed_point_step d :
  seed_set <> 0 ->
  Step d (Geo.seed_point le e0 h W H level (W * H) sx sy)
    (fun x y => Low x y /\ x = Geo.clamp_idx sx W /\ y = Geo.clamp_idx sy H).
Proof using HW HH.
  intros Hss [s|s] Hr; simpl; [|split; [done | intros s' Hs'; discriminate]].
  set (cx := Geo.clamp_idx sx W). set (cy := Geo.clamp_idx sy H).
  assert (Hg : Grid cx cy).
  { split; [apply clamp_idx_range | apply clamp_idx_range]; done. }
  destruct (le (rd e0 h (cy * W + cx)) level) eqn:Hle; simpl.
  - assert (Hlow : Low cx cy) by done.
    destruct (Z.eqb_spec (rd 0 (Geo.mask s) (cy * W + cx)) 0) as [Hz|Hnz].
    + assert (Hfl : Fl cx cy).
      { apply Geo.flooded_source. split; [done|]. right. done. }
      destruct (mark_push_inv d s cx cy Hr Hlow Hfl) as [Hinv Hok].
      split; [done|]. intros s' Hs'. destruct (Hok s' Hs') as (Hext & Hm & _).
      exists s. split; [done|]. split; [done|]. by intros x y (_ & -> & ->).
    + split; [done|]. intros s' [= <-]. exists s. split; [done|].
      split; [apply extends_refl|]. intros x y (_ & -> & ->).
      apply mask_ok_nonzero; [by destruct Hr | done..].
  - split; [done|]. intros s' [= <-]. exists s. split; [done|].
    split; [apply extends_refl|]. intros x y ([_ Hl] & -> & ->).
    fold cx cy in Hl. congruence.
Qed.

(** The four neighbours visited from [(cx, cy)]. *)
Ltac eval_rd :=
  repeat match goal with
         | |- context [rd 0 ?l ?k] =>
           let v := eval vm_compute in (rd 0 l k) in
           change (rd 0 l k) with v
         end.

Lemma neighbour_adjacent cx cy k :
  0 <= k < 4 ->
  Geo.adjacent cx cy (cx + rd 0 Geo.dx k) (cy + rd 0 Geo.dy k).
Proof.
  intros Hk. unfold Geo.adjacent.
  assert (Hc : k = 0 \/ k = 1 \/ k = 2 \/ k = 3) by lia.
  destruct Hc as [-> | [-> | [-> | ->]]]; eval_rd; lia.
Qed.

Lemma adjacent_neighbour cx cy x y :
  Geo.adjacent cx cy x y ->
  exists k, 0 <= k < 4 /\ x = cx + rd 0 Geo.dx k /\ y = cy + rd 0 Geo.dy k.
Proof.
  intros [[-> ->] | [[-> ->] | [[-> ->] | [-> ->]]]].
  - exists 0. eval_rd. lia.
  - exists 1. eval_rd. lia.
  - exists 2. eval_rd. lia.
  - exists 3. eval_rd. lia.
Qed.

Lemma visit_neighbor_step d cx cy k :
  0 <= k < 4 -> Fl cx cy ->
  Step d (Geo.visit_neighbor le e0 h W H level (W * H) cx cy k)
    (fun x y => Low x y /\ x = cx + rd 0 Geo.dx k /\ y = cy + rd 0 Geo.dy k).
Proof using HW HH.
  intros Hk Hfl [s|s] Hr; simpl; [|split; [done | intros s' Hs'; discriminate]].
  set (nx := cx + rd 0 Geo.dx k). set (ny := cy + rd 0 Geo.dy k).
  assert (Hskip : forall (C : Z -> Z -> Prop),
    (forall x y, C x y -> Marked (Geo.mask s) x y) ->
    RInv d (Geo.Ok s)
    /\ forall s', Geo.Ok s = Geo.Ok s' ->
         exists s0, Geo.Ok s = Geo.Ok s0 /\ Geo.extends W H s0 s'
           /\ forall x y, C x y -> Marked (Geo.mask s') x y).
  { intros C HC. split; [done|]. intros s' [= <-]. exists s. split; [done|].
    split; [apply extends_refl | done]. }
  destruct (Z.ltb_spec nx 0); simpl.
  { apply Hskip. intros x y ([[? ?] _] & -> & ->). lia. }
  destruct (Z.ltb_spec ny 0); simpl.
  { apply Hskip. intros x y ([[? ?] _] & -> & ->). lia. }
  destruct (Z.leb_spec W nx); simpl.
  { apply Hskip. intros x y ([[? ?] _] & -> & ->). lia. }
  destruct (Z.leb_spec H ny); simpl.
  { apply Hskip. intros x y ([[? ?] _] & -> & ->). lia. }
  assert (Hg : Grid nx ny) by (split; lia).
  destruct (Z.eqb_spec (rd 0 (Geo.mask s) (ny * W + nx)) 0) as [Hz|Hnz]; simpl.
  - destruct (le (rd e0 h (ny * W + nx)) level) eqn:Hle.
    + assert (Hlow : Low nx ny) by done.
      assert (Hfl' : Fl nx ny).
      { eapply Geo.flooded_step; [exact Hfl | | done].
        by apply neighbour_adjacent. }
      destruct (mark_push_inv d s nx ny Hr Hlow Hfl') as [Hinv Hok].
      split; [done|]. intros s' Hs'. destruct (Hok s' Hs') as (Hext & Hm & _).
      exists s. split; [done|]. split; [done|]. by intros x y (_ & -> & ->).
    + apply Hskip. intros x y ([_ Hl] & -> & ->). fold nx ny in Hl. congruence.
  - apply Hskip. intros x y (_ & -> & ->).
    apply mask_ok_nonzero; [by destruct Hr | done..].
Qed.

Lemma flooded_low x y : Fl x y -> Low x y.
Proof. intros Hf. destruct Hf as [x y [Hl _]|x y x' y' _ _ Hl]; done. Qed.

(** One round of the search handles the queue entry at [qh]. *)
Lemma bfs_step_inv s :
  Inv (Geo.qh s) s -> Geo.qh s < Geo.qt s ->
  match Geo.bfs_step le e0 h W H level (W * H) s with
  | Geo.Ok s' =>
    Inv (Geo.qh s') s' /\ Geo.qh s' = Geo.qh s + 1
    /\ Geo.grows W H (Geo.mask s) (Geo.mask s')
  | Geo.Overrun s' => MaskOk (Geo.mask s')
  end.
Proof using HW HH.
  intros HI Hlt. unfold Geo.bfs_step.
  set (cx := rd 0 (Geo.queue_x s) (Geo.qh s)).
  set (cy := rd 0 (Geo.queue_y s) (Geo.qh s)).
  set (s1 := {| Geo.mask := Geo.mask s; Geo.queue_x := Geo.queue_x s;
                Geo.queue_y := Geo.queue_y s;
                Geo.qh := Geo.qh s + 1; Geo.qt := Geo.qt s |}).
  assert (Hcur : Geo.queue_cell s (Geo.qh s) = (cx, cy)) by done.
  assert (HI1 : Inv (Geo.qh s) s1).
  { destruct HI as [Hmask Hqx Hqy Hidx Hsound Hqueue Hqueued Hdone].
    constructor; try done. simpl. lia. }
  assert (Hfl : Fl cx cy).
  { destruct HI as [_ _ _ Hidx Hsound Hqueue _ _].
    destruct (Hqueue (Geo.qh s)) as [Hg Hm]; [lia|].
    rewrite Hcur in Hg, Hm. by apply Hsound. }
  pose proof (marks_step_loop (Geo.qh s)
    (Geo.visit_neighbor le e0 h W H level (W * H) cx cy) 0 4
    (fun k x y => Low x y /\ x = cx + rd 0 Geo.dx k /\ y = cy + rd 0 Geo.dy k))
    as Hloop.
  destruct (Hloop) with (r := Geo.Ok s1) as [Hinv Hok].
  { intros k Hk. by apply visit_neighbor_step. }
  { intros k x y ([Hg _] & _). done. }
  { exact HI1. }
  destruct (for_range 0 4 1 _ (Geo.Ok s1)) as [s'|s'] eqn:Hr; [|exact Hinv].
  destruct (Hok s' eq_refl) as (s0 & [= <-] & (Hgrow & Hqh & Hqt & Hcells) & Hm).
  simpl in Hinv, Hqh, Hqt, Hcells, Hgrow.
  split; [|split; [done | done]].
  destruct Hinv as [Hmask Hqx Hqy Hidx Hsound Hqueue Hqueued Hdone].
  rewrite Hqh. constructor; try done.
  - lia.
  - intros k x' y' Hk Hadj Hl. destruct (Z.eq_dec k (Geo.qh s)) as [->|Hne].
    + rewrite Hcells in Hadj by lia.
      change (Geo.queue_cell s1 (Geo.qh s)) with (Geo.queue_cell s (Geo.qh s))
        in Hadj.
      rewrite Hcur in Hadj. simpl in Hadj.
      destruct (adjacent_neighbour _ _ _ _ Hadj) as (j & Hj & -> & ->).
      apply Hm. exists j. done.
    + apply (Hdone k); [lia | done..].
Qed.

Lemma bfs_loop_overrun fuel s :
  Geo.bfs_loop le e0 fuel h W H level (W * H) (Geo.Overrun s) = Geo.Overrun s.
Proof. by destruct fuel. Qed.

(** With [qcap + 1 - qh] rounds of fuel the search reaches its exit test:
    it ends with an empty queue, or in an overrun. *)
Lemma bfs_loop_inv fuel s :
  Inv (Geo.qh s) s -> W * H - Geo.qh s < Z.of_nat fuel ->
  match Geo.bfs_loop le e0 fuel h W H level (W * H) (Geo.Ok s) with
  | Geo.Ok s' =>
    Inv (Geo.qh s') s' /\ Geo.qt s' <= Geo.qh s'
    /\ Geo.grows W H (Geo.mask s) (Geo.mask s')
  | Geo.Overrun s' => MaskOk (Geo.mask s')
  end.
Proof using HW HH.
  revert s. induction fuel as [|f IH]; intros s HI Hfuel.
  - destruct HI as [_ _ _ Hidx _ _ _ _]. lia.
  - simpl. destruct (Z.ltb_spec (Geo.qh s) (Geo.qt s)) as [Hlt|Hge].
    + pose proof (bfs_step_inv s HI Hlt) as Hstep.
      destruct (Geo.bfs_step le e0 h W H level (W * H) s) as [s1|s1].
      * destruct Hstep as (HI1 & Hqh1 & Hg1).
        specialize (IH s1 HI1 ltac:(lia)).
        destruct (Geo.bfs_loop le e0 f h W H level (W * H) (Geo.Ok s1))
          as [s'|s']; [|done].
        destruct IH as (HI' & Hend & Hg'). split; [done|]. split; [done|].
        by eapply grows_trans.
      * by rewrite bfs_loop_overrun.
    + split; [done|]. split; [done | apply grows_refl].
Qed.

(** The state in which the search starts. *)
Lemma initial_inv (m qx qy : list Z) :
  Z.of_nat (length m) = W * H ->
  (forall i, 0 <= i < W * H -> rd 0 m i = 0) ->
  Z.of_nat (length qx) = W * H -> Z.of_nat (length qy) = W * H ->
  Inv 0 {| Geo.mask := m; Geo.queue_x := qx; Geo.queue_y := qy;
           Geo.qh := 0; Geo.qt := 0 |}.
Proof using HW HH.
  intros Hlen Hzero Hqx Hqy.
  assert (Hnone : forall x y, Grid x y -> ~ Marked m x y).
  { intros x y Hg Hm. unfold Geo.marked in Hm.
    rewrite Hzero in Hm by (by apply grid_index). done. }
  constructor; simpl; try done.
  - split; [done|]. intros x y Hg. left. apply Hzero. by apply grid_index.
  - nia.
  - intros x y Hg Hm. by destruct (Hnone x y).
  - intros k Hk. lia.
  - intros x y Hg Hm. by destruct (Hnone x y).
  - intros k x' y' Hk. lia.
Qed.

Lemma length_malloc_int n hp (b : list Z) :
  0 <= n -> fst (malloc_int n hp) = Some b -> Z.of_nat (length b) = n.
Proof.
  intros Hn. unfold malloc_int. simpl. destruct (refuse hp (allocs hp)); [done|].
  intros [= <-]. rewrite length_map, length_seqZ. lia.
Qed.

(** The seeding marks every source. *)
Lemma seeding_step :
  Step 0
    (fun r =>
       let r := if from_edge =? 0 then r
                else Geo.seed_edges le e0 h W H level (W * H) r in
       if seed_set =? 0 then r
       else Geo.seed_point le e0 h W H level (W * H) sx sy r)
    (Geo.is_source le e0 h W H level from_edge seed_set sx sy).
Proof using HW HH.
  assert (H1 : Step 0
    (fun r => if from_edge =? 0 then r
              else Geo.seed_edges le e0 h W H level (W * H) r)
    (fun x y => Low x y /\ from_edge <> 0 /\ Geo.on_border W H x y)).
  { destruct (Z.eqb_spec from_edge 0) as [Hz|Hnz].
    - eapply marks_step_weaken; [apply marks_step_id|].
      intros x y (_ & ? & _). done.
    - eapply marks_step_weaken; [by apply seed_edges_step|].
      intros x y (? & _ & ?). done. }
  assert (H2 : Step 0
    (fun r => if seed_set =? 0 then r
              else Geo.seed_point le e0 h W H level (W * H) sx sy r)
    (fun x y => Low x y /\ seed_set <> 0
       /\ x = Geo.clamp_idx sx W /\ y = Geo.clamp_idx sy H)).
  { destruct (Z.eqb_spec seed_set 0) as [Hz|Hnz].
    - eapply marks_step_weaken; [apply marks_step_id|].
      intros x y (_ & ? & _). done.
    - eapply marks_step_weaken; [by apply seed_point_step|].
      intros x y (? & _ & ?). done. }
  pose proof (marks_step_comp 0 _ _ _ _ H1 H2) as H12.
  eapply marks_step_weaken; [apply H12|].
  - intros x y ([Hg _] & _). done.
  - intros x y [Hl [[? ?]|(? & ? & ?)]]; [left | right]; done.
Qed.

Local Abbreviation Reached :=
  (Geo.reached le e0 h W H level from_edge seed_set sx sy).
Local Abbreviation LowPath := (Geo.low_path le e0 h W H level).

Lemma last_cons_nonempty {A} (a b d d' : A) (l : list A) :
  last (a :: b :: l) d = last (b :: l) d'.
Proof.
  revert a b. induction l as [|c l IH]; intros a b; [done|].
  change (last (b :: c :: l) d = last (c :: l) d'). apply IH.
Qed.

Lemma low_path_snoc p x y x' y' d :
  LowPath p -> p <> [] -> last p d = (x, y) ->
  Geo.adjacent x y x' y' -> Low x' y' -> LowPath (p ++ [(x', y')]).
Proof.
  intros Hp Hne Hlast Hadj Hl. induction p as [|[a b] q IH]; [done|].
  destruct q as [|[a' b'] q'].
  - simpl in Hlast. injection Hlast as -> ->. simpl. simpl in Hp. tauto.
  - destruct Hp as (Hab & Hadj' & Hq).
    change (LowPath ((a, b) :: ((a', b') :: q') ++ [(x', y')])).
    split; [done|]. split; [done|]. apply IH; [done | done |].
    by rewrite (last_cons_nonempty _ _ d d) in Hlast.
Qed.

Lemma path_flooded p : forall x0 y0,
  Fl x0 y0 -> hd_error p = Some (x0, y0) -> LowPath p ->
  Fl (fst (last p (x0, y0))) (snd (last p (x0, y0))).
Proof.
  induction p as [|[a b] q IH]; intros x0 y0 Hfl Hhd Hp; [done|].
  injection Hhd as -> ->. destruct q as [|[a' b'] q']; [done|].
  destruct Hp as (_ & Hadj & Hq).
  rewrite (last_cons_nonempty _ _ _ (a', b')).
  apply IH; [|done..]. eapply Geo.flooded_step; [exact Hfl | done |].
  by destruct Hq.
Qed.

(** The step-by-step and the path formulations agree. *)
Lemma flooded_reached x y : Fl x y <-> Reached x y.
Proof.
  split.
  - induction 1 as [x y Hsrc|x y x' y' Hfl IH Hadj Hl].
    + exists [(x, y)], x, y. split_and!; try done.
      destruct Hsrc as [Hl _]. simpl. tauto.
    + destruct IH as (p & x0 & y0 & Hsrc & Hhd & Hlast & Hp).
      assert (Hne : p <> []) by (by destruct p).
      exists (p ++ [(x', y')]), x0, y0. split_and!; [done | | |].
      * by destruct p.
      * by rewrite last_last.
      * by eapply low_path_snoc.
  - intros (p & x0 & y0 & Hsrc & Hhd & Hlast & Hp).
    pose proof (path_flooded p x0 y0 (Geo.flooded_source _ _ _ _ _ _ _ _ _ _ _ _ Hsrc)
                  Hhd Hp) as Hfl.
    by rewrite Hlast in Hfl.
Qed.

(** What [flood_from_edges_or_seed] leaves in the mask, for each of the
    three ways it can end. *)
Lemma flood_outcome (mask : list Z) (hp : heap) :
  Z.of_nat (length mask) = W * H ->
  match fst (Geo.flood_from_edges_or_seed le e0 h W H level
               from_edge seed_set sx sy mask hp) with
  | Geo.Flooded m =>
    MaskOk m /\ forall x y, Grid x y -> (Marked m x y <-> Fl x y)
  | Geo.NoQueue m =>
    Z.of_nat (length m) = W * H /\ forall i, 0 <= i < W * H -> rd 0 m i = 0
  | Geo.QueueOverrun m => MaskOk m
  end.
Proof using HW HH.
  intros Hlen. unfold Geo.flood_from_edges_or_seed.
  destruct (fill1d 0 (fun _ => 0) mask (W * H)) as (Hl0 & Hz0 & _); [nia|].
  set (m0 := for_range 0 (W * H) 1 (fun i m => wr m i 0) mask) in *.
  destruct (malloc_int (W * H) hp) as [qx hp1] eqn:Hqx.
  destruct (malloc_int (W * H) hp1) as [qy hp2] eqn:Hqy.
  destruct qx as [qx|]; [|simpl; split; [lia | done]].
  destruct qy as [qy|]; [|simpl; split; [lia | done]].
  assert (Hlx : Z.of_nat (length qx) = W * H).
  { apply (length_malloc_int _ hp); [nia | by rewrite Hqx]. }
  assert (Hly : Z.of_nat (length qy) = W * H).
  { apply (length_malloc_int _ hp1); [nia | by rewrite Hqy]. }
  pose proof (initial_inv m0 qx qy ltac:(lia) Hz0 Hlx Hly) as HI0.
  set (s0 := {| Geo.mask := m0; Geo.queue_x := qx; Geo.queue_y := qy;
                Geo.qh := 0; Geo.qt := 0 |}) in *.
  destruct (seeding_step (Geo.Ok s0) HI0) as [Hinv Hok]. cbv zeta in Hinv, Hok.
  destruct (if seed_set =? 0 then _ else _) as [s2|s2] eqn:Hseed.
  - destruct (Hok s2 eq_refl) as (s & [= <-] & (Hg & Hqh & _) & Hsrc).
    pose proof (bfs_loop_inv (S (Z.to_nat (W * H))) s2) as Hbfs.
    assert (Hqh2 : Geo.qh s2 = 0) by done. rewrite Hqh2 in Hbfs.
    specialize (Hbfs Hinv ltac:(nia)).
    destruct (Geo.bfs_loop le e0 (S (Z.to_nat (W * H))) h W H level (W * H)
                (Geo.Ok s2)) as [s3|s3]; simpl; [|done].
    destruct Hbfs as (HI3 & Hend & Hg3).
    destruct HI3 as [Hmask3 _ _ Hidx3 Hsound3 _ Hqueued3 Hdone3].
    split; [done|]. intros x y Hgxy. split; [by apply Hsound3|].
    intros Hfl. clear Hgxy.
    induction Hfl as [x y Hs|x y x' y' Hfl IH Hadj Hl].
    + apply Hg3; [by destruct Hs as [[? _] _]|]. by apply Hsrc.
    + pose proof (flooded_low _ _ Hfl) as [Hgxy _].
      destruct (Hqueued3 x y Hgxy IH) as (k & Hk & Hcell).
      apply (Hdone3 k); [lia | by rewrite Hcell | done].
  - rewrite bfs_loop_overrun. simpl. exact Hinv.
Qed.

End Flood_facts.

(** X1.  When [flood_from_edges_or_seed] returns after its search, the mask
    holds 1 exactly at the cells that are [<= level] and that a 4-connected
    path of cells [<= level] joins to a source, and 0 at every other cell of
    the grid. *)
Theorem flood_marks_reached {E} (le : E -> E -> bool) (e0 : E) (h : list E)
    (W H : Z) (level : E) (from_edge seed_set sx sy : Z)
    (mask m : list Z) (hp : heap) (x y : Z) :
  0 < W -> 0 < H -> Z.of_nat (length mask) = W * H ->
  fst (Geo.flood_from_edges_or_seed le e0 h W H level from_edge seed_set
         sx sy mask hp) = Geo.Flooded m ->
  Geo.in_grid W H x y ->
  (rd 0 m (y * W + x) = 1
   <-> Geo.reached le e0 h W H level from_edge seed_set sx sy x y)
  /\ (rd 0 m (y * W + x) = 0 \/ rd 0 m (y * W + x) = 1).
Proof.
  intros HW HH Hlen Hres Hg.
  pose proof (flood_outcome le e0 h W H level from_edge seed_set sx sy
                HW HH mask hp Hlen) as Hout.
  rewrite Hres in Hout. destruct Hout as [[_ Hbits] Hiff]. split.
  - rewrite <- flooded_reached. by apply Hiff.
  - destruct (Hbits x y Hg) as [?|[? _]]; [by left | by right].
Qed.

Lemma flood_marks_reached_witness :
  (rd 0 [0; 0; 0; 0; 0; 0; 0; 0; 0; 0; 0; 0; 0; 0; 0; 0] (1 * 4 + 1) = 1
   <-> Geo.reached PrimFloat.leb 0%float basin_grid 4 4 d0_2 1 0 0 0 1 1)
  /\ (rd 0 [0; 0; 0; 0; 0; 0; 0; 0; 0; 0; 0; 0; 0; 0; 0; 0] (1 * 4 + 1) = 0
      \/ rd 0 [0; 0; 0; 0; 0; 0; 0; 0; 0; 0; 0; 0; 0; 0; 0; 0] (1 * 4 + 1) = 1).
Proof.
  apply (flood_marks_reached PrimFloat.leb 0%float basin_grid 4 4 d0_2 1 0 0 0
           (repeat 9 16) _ (heap_with 0) 1 1);
    [lia | lia | reflexivity | vm_compute; reflexivity | split; lia].
Defined.

Lemma mark_all_below_rd {E} (le : E -> E -> bool) (e0 : E) (h : list E)
    (W H : Z) (level : E) (mask : list Z) (i : Z) :
  W * H <= Z.of_nat (length mask) -> 0 <= i < W * H ->
  rd 0 (Geo.mark_all_below le e0 h W H level mask) i
  = if le (rd e0 h i) level then 1 else 0.
Proof.
  intros Hlen Hi. unfold Geo.mark_all_below.
  destruct (fill1d 0 (fun i => if le (rd e0 h i) level then 1 else 0)
              mask (W * H)) as (_ & Hc & _); [lia|].
  by apply Hc.
Qed.

(** C2.  At each cell of the grid the mask of the edge flood is at most
    the mask of the fill of everything below the level, whatever the grid,
    the level and the seed, and however the flood ends. *)
Theorem edge_flood_within_fill_all {E} (le : E -> E -> bool) (e0 : E)
    (h : list E) (W H : Z) (level : E) (from_edge seed_set sx sy : Z)
    (mask mask' : list Z) (hp : heap) (i : Z) :
  0 < W -> 0 < H ->
  Z.of_nat (length mask) = W * H -> Z.of_nat (length mask') = W * H ->
  0 <= i < W * H ->
  rd 0 (Geo.result_mask
          (fst (Geo.flood_from_edges_or_seed le e0 h W H level from_edge
                  seed_set sx sy mask hp))) i
  <= rd 0 (Geo.mark_all_below le e0 h W H level mask') i.
Proof.
  intros HW HH Hlen Hlen' Hi.
  rewrite mark_all_below_rd by lia.
  pose proof (flood_outcome le e0 h W H level from_edge seed_set sx sy
                HW HH mask hp Hlen) as Hout.
  assert (Hcell : i = (i / W) * W + i mod W).
  { rewrite Z.mul_comm. apply Z.div_mod. lia. }
  assert (Hg : Geo.in_grid W H (i mod W) (i / W)).
  { split; [apply Z.mod_pos_bound; lia|].
    split; [apply Z.div_pos; lia | apply Z.div_lt_upper_bound; lia]. }
  assert (Hok : forall m, Geo.mask_ok le e0 h W H level m ->
    rd 0 m i <= (if le (rd e0 h i) level then 1 else 0)).
  { intros m [_ Hbits]. destruct (Hbits _ _ Hg) as [Hz|[Hm [_ Hl]]].
    - rewrite <- Hcell in Hz. rewrite Hz. destruct (le _ _); lia.
    - unfold Geo.marked in Hm. rewrite <- Hcell in Hm, Hl.
      rewrite Hm, Hl. lia. }
  destruct (fst _) as [m|m|m]; simpl.
  - apply Hok. by destruct Hout.
  - destruct Hout as [_ Hz]. rewrite Hz by done. destruct (le _ _); lia.
  - by apply Hok.
Qed.

Lemma edge_flood_within_fill_all_witness :
  rd 0 (Geo.result_mask
          (fst (Geo.flood_from_edges_or_seed PrimFloat.leb 0%float basin_grid
                  4 4 d0_2 1 0 0 0 (repeat 9 16) (heap_with 0)))) 5
  <= rd 0 (Geo.mark_all_below PrimFloat.leb 0%float basin_grid 4 4 d0_2
             (repeat 9 16)) 5.
Proof.
  apply (edge_flood_within_fill_all PrimFloat.leb 0%float basin_grid 4 4 d0_2
           1 0 0 0 (repeat 9 16) (repeat 9 16) (heap_with 0) 5);
    [lia | lia | reflexivity | reflexivity | lia].
Defined.

(** The enclosed basin of the 4 x 4 scenario: left dry by the edge flood,
    water under the fill of everything below the level. *)
Example basin_stays_dry :
  fst (Geo.flood_from_edges_or_seed PrimFloat.leb 0%float basin_grid 4 4 d0_2
         1 0 0 0 (repeat 9 16) (heap_with 0))
  = Geo.Flooded (repeat 0 16)
  /\ rd 0 (Geo.mark_all_below PrimFloat.leb 0%float basin_grid 4 4 d0_2
             (repeat 9 16)) (1 * 4 + 1) = 1.
Proof. split; vm_compute; reflexivity. Qed.

(** C1 at the flat 4 x 4 grid (elevation 0.3, level 0.3), where all 16
    cells are to become water: the edge loops enqueue the four corners
    twice, 16 entries in all, so the first interior cell is written at
    [queue_x[16]], past the end of the 16-entry queue.  The same happens
    in [geo -x 3 -y 3 -s 42 --sea 1], whose run has no defined status. *)
Theorem flood_overruns_its_queue :
  fst (Geo.flood_from_edges_or_seed PrimFloat.leb 0%float flat_grid 4 4 d0_3
         1 0 0 0 (repeat 9 16) (heap_with 0))
  = Geo.QueueOverrun [1; 1; 1; 1; 1; 1; 0; 1; 1; 0; 0; 1; 1; 1; 1; 1]
  /\ Geo.status (Geo.main 64 (geo_3x3 0 (Some 1%Q)) true (heap_with 0)) = None.
Proof. split; vm_compute; reflexivity. Qed.

Lemma inject_Z_pos z : 0 < z -> (0 < inject_Z z)%Q.
Proof. intros Hz. change 0%Q with (inject_Z 0). by rewrite <- Zlt_Qlt. Qed.

(** The diamond step of geo.c: the index expressions
    [x + half - step + step - half] and [y + half - step + step - half]
    are [x] and [y], so that three of the four cells averaged are the
    cell above, the cell to the left and the cell being set, none of them
    stored yet. *)
Lemma geo_diamond_cell_reads w P step half scale y x buf st :
  Geo.diamond_cell w P step half scale y x (buf, st)
  = (wr buf (y * P + x)
       (Geo.clamp01d
          ((rd 0%Q buf ((y - half) * P + (x - half))
            + rd 0%Q buf ((y - half) * P + x)
            + rd 0%Q buf (y * P + (x - half))
            + rd 0%Q buf (y * P + x)) * 0.25
           + fst (Geo.rng_randm1p1 w st) * scale)),
     snd (Geo.rng_randm1p1 w st)).
Proof.
  unfold Geo.diamond_cell. destruct (Geo.rng_randm1p1 w st) as [r st'].
  simpl. repeat f_equal; lia.
Qed.

(** C4 in geo.c, at [geo -x 3 -y 3 -s 42] with the default amplitude and
    roughness: two runs that differ only in what [malloc] left in the
    block of the synthesis grid (0.0 in every cell, or 1.0) both end with
    status 0 and print different elevations (cell 4 is 0 in one and
    15979433/67108864 in the other); with [--sea 0.2] their water masks
    differ too. *)
Theorem geo_output_depends_on_heap_junk :
  Geo.status (Geo.main 64 (geo_3x3 0 None) true (heap_with 0)) = Some 0
  /\ Geo.status (Geo.main 64 (geo_3x3 0 None) true (heap_with 1)) = Some 0
  /\ ~ (rd 0%Q (Geo.values (Geo.main 64 (geo_3x3 0 None) true (heap_with 0))) 4
        == rd 0%Q (Geo.values (Geo.main 64 (geo_3x3 0 None) true (heap_with 1)))
             4)%Q
  /\ Geo.water_out (Geo.main 64 (geo_3x3 0 (Some 0.2%Q)) true (heap_with 0))
     = Some [0; 0; 0; 0; 1; 1; 0; 0; 0]
  /\ Geo.water_out (Geo.main 64 (geo_3x3 0 (Some 0.2%Q)) true (heap_with 1))
     = Some [0; 0; 0; 0; 0; 0; 0; 0; 0].
Proof.
  split; [vm_compute; reflexivity|]. split; [vm_compute; reflexivity|].
  split; [vm_compute; discriminate|].
  split; vm_compute; reflexivity.
Qed.

(** ** Allocation failures *)

Lemma malloc_double_refused n hp :
  refuse hp (allocs hp) = true -> malloc_double n hp = (None, heap_next hp).
Proof. intros Hr. unfold malloc_double. by rewrite Hr. Qed.

Lemma malloc_int_refused n hp :
  refuse hp (allocs hp) = true -> malloc_int n hp = (None, heap_next hp).
Proof. intros Hr. unfold malloc_int. by rewrite Hr. Qed.

(** [smooth_box] allocates in every pass: when the passes before the
    [j]-th get their block and the [j]-th does not, the grid is left as
    [j] passes make it. *)
Lemma smooth_passes_refused_at (j n : nat) (buf : list Q) (W H : Z)
    (hp : heap) :
  (forall k, (k < j)%nat -> refuse hp (allocs hp + k) = false) ->
  refuse hp (allocs hp + j) = true ->
  fst (Geo.smooth_passes (j + S n) buf W H hp)
  = fst (Geo.smooth_passes j buf W H hp).
Proof.
  revert buf hp. induction j as [|j IH]; intros buf hp Hgrant Hrefuse.
  - rewrite Nat.add_0_r in Hrefuse. cbn [Nat.add Geo.smooth_passes].
    by rewrite malloc_double_refused.
  - cbn [Nat.add Geo.smooth_passes]. unfold malloc_double.
    assert (H0 : refuse hp (allocs hp) = false).
    { rewrite <- (Nat.add_0_r (allocs hp)). apply Hgrant. lia. }
    rewrite H0. apply IH.
    + intros k Hk. cbn [heap_next allocs refuse].
      replace (S (allocs hp) + k)%nat with (allocs hp + S k)%nat by lia.
      apply Hgrant. lia.
    + cbn [heap_next allocs refuse].
      by replace (S (allocs hp) + j)%nat with (allocs hp + S j)%nat by lia.
Qed.

(** C8, as the code has it.  A refused allocation of one of the buffers
    that [main] itself allocates (the synthesis grid and the map, the
    water mask and the pixel buffer in geo.c; the two grids in plasma.c)
    ends the run with status 1 and a message.  A refused allocation inside
    a stage does not: [smooth_box] and [box_blur] return the grid as it
    is, [flood_from_edges_or_seed] returns with the mask cleared, and
    nothing is reported to [main].  [smooth_box] allocates in every pass:
    when the block of a later pass is refused, it returns the grid as the
    passes before made it. *)
Theorem allocation_failure_paths (hp : heap) :
  (refuse hp (allocs hp) = true \/ refuse hp (S (allocs hp)) = true ->
   (forall w c ok P,
      Geo_side.side (Geo.GRID_W c) (Geo.GRID_H c) = Some P ->
      Geo.main w c ok hp = Geo.failed "Alloc DS/map impossible.")
   /\ (forall L c,
         Plasma_side.accept_dims (Plasma.width c) (Plasma.height c) = true ->
         Plasma.status (Plasma.main L c hp) = Some 1
         /\ Plasma.stderr (Plasma.main L c hp)
            = ["Allocation memoire impossible."%string])
   /\ (forall {E} (le : E -> E -> bool) e0 h W H level fe ss sx sy mask,
         0 <= W * H <= Z.of_nat (length mask) ->
         exists m,
           fst (Geo.flood_from_edges_or_seed le e0 h W H level fe ss sx sy
                  mask hp) = Geo.NoQueue m
           /\ forall i, 0 <= i < W * H -> rd 0 m i = 0))
  /\ (refuse hp (allocs hp) = true ->
      (forall c ok map,
         Geo.WATER_ENABLE c = true ->
         Geo.water_stage c ok map hp = Geo.failed "Alloc eau impossible.")
      /\ (forall c ok map water,
            Geo.OUT_PPM c = true ->
            Geo.status (Geo.output c ok map water hp) = Some 1
            /\ Geo.stderr (Geo.output c ok map water hp)
               = ["Alloc RGB impossible."%string])
      /\ (forall buf W H passes,
            Geo.smooth_box buf W H passes hp
            = (buf, if passes <=? 0 then hp else heap_next hp))
      /\ (forall grid W H r p,
            Plasma.box_blur grid W H r p hp
            = (grid, if (r <=? 0) || (p <=? 0) then hp else heap_next hp)))
  /\ (forall buf W H passes (j : nat),
        Z.of_nat j < passes ->
        (forall k, (k < j)%nat -> refuse hp (allocs hp + k) = false) ->
        refuse hp (allocs hp + j) = true ->
        fst (Geo.smooth_box buf W H passes hp)
        = fst (Geo.smooth_box buf W H (Z.of_nat j) hp)).
Proof.
  split; [|split]; [| |
    intros buf W H passes j Hj Hgrant Hrefuse; unfold Geo.smooth_box;
    destruct (Z.leb_spec passes 0); [lia|];
    rewrite Nat2Z.id;
    replace (Z.to_nat passes) with (j + S (Z.to_nat passes - S j))%nat by lia;
    rewrite smooth_passes_refused_at by done;
    destruct (Z.leb_spec (Z.of_nat j) 0) as [Hj0|]; [|done];
    by replace j with O by lia ].
  - intros Hr. split; [|split].
    + intros w c ok P Hside. unfold Geo.main. rewrite Hside.
      destruct (malloc_double (P * P) hp) as [ds hp1] eqn:Hds.
      destruct (malloc_double (Geo.GRID_W c * Geo.GRID_H c) hp1) as [mp hp2]
        eqn:Hmp.
      unfold malloc_double in Hds, Hmp. injection Hds as <- <-.
      injection Hmp as <- <-. simpl.
      destruct Hr as [Hr|Hr]; rewrite Hr; [done|].
      by destruct (refuse hp (allocs hp)).
    + intros L c Hacc.
      destruct (plasma_side_minimal (Plasma.width c) (Plasma.height c) Hacc)
        as (n & Hside & _).
      unfold Plasma_side.accept_dims in Hacc.
      apply andb_true_iff in Hacc as [_ Hsz]. apply negb_true_iff in Hsz.
      unfold Plasma.main. rewrite Hsz, Hside.
      unfold malloc_double. simpl.
      destruct Hr as [Hr|Hr]; rewrite Hr; [done|].
      by destruct (refuse hp (allocs hp)).
    + intros E le e0 h W H level fe ss sx sy mask Hlen.
      destruct (fill1d 0 (fun _ => 0) mask (W * H)) as (_ & Hz & _); [lia|].
      unfold Geo.flood_from_edges_or_seed, malloc_int. simpl.
      destruct Hr as [Hr|Hr]; rewrite Hr.
      * eexists. split; [reflexivity | exact Hz].
      * destruct (refuse hp (allocs hp)); eexists;
          (split; [reflexivity | exact Hz]).
  - intros Hr. split; [|split; [|split]].
    + intros c ok map Hw. unfold Geo.water_stage.
      by rewrite Hw, malloc_int_refused.
    + intros c ok map water Hp. unfold Geo.output.
      by rewrite Hp, malloc_int_refused.
    + intros buf W H passes. unfold Geo.smooth_box.
      destruct (Z.leb_spec passes 0); [done|].
      replace (Z.to_nat passes) with (S (Z.to_nat (passes - 1))) by lia.
      cbn [Geo.smooth_passes]. by rewrite malloc_double_refused.
    + intros grid W H r p. unfold Plasma.box_blur.
      destruct (_ || _); [done|]. by rewrite malloc_double_refused.
Qed.

Lemma allocation_failure_paths_witness :
  Geo.main 64 (geo_3x3 1 (Some 0.6%Q)) true (heap_refusing 1)
  = Geo.failed "Alloc DS/map impossible."
  /\ Geo.smooth_box [0.1; 0.2; 0.3; 0.4]%Q 2 2 3 (heap_refusing 0)
     = ([0.1; 0.2; 0.3; 0.4]%Q, heap_next (heap_refusing 0))
  /\ fst (Geo.smooth_box [0.25; 0.5; 0.75; 1]%Q 2 2 3 (heap_refusing 1))
     = fst (Geo.smooth_box [0.25; 0.5; 0.75; 1]%Q 2 2 (Z.of_nat 1)
              (heap_refusing 1)).
Proof.
  split; [|split].
  - apply (proj1 (proj1 (allocation_failure_paths (heap_refusing 1))
                    (or_intror eq_refl)) 64 (geo_3x3 1 (Some 0.6%Q)) true 3).
    reflexivity.
  - apply (proj1 (proj2 (proj2 (proj1 (proj2
             (allocation_failure_paths (heap_refusing 0))) eq_refl)))).
  - apply (proj2 (proj2 (allocation_failure_paths (heap_refusing 1)))
             [0.25; 0.5; 0.75; 1]%Q 2 2 3 1%nat).
    + lia.
    + intros k Hk. replace k with O by lia. reflexivity.
    + reflexivity.
Defined.

(** C8 as stated fails.  In [geo -x 3 -y 3 -s 42 -f 1] the third
    [malloc], that of the smoother, is refused: the run ends with status 0
    and no message, and prints the grid unsmoothed.  With [--sea 0.6] and
    the fourth [malloc], that of [queue_x], refused, the run ends with
    status 0, no message and no water, where the flood marks five cells.
    In plasma.c a refused block in [box_blur] goes unreported as well. *)
Lemma allocation_failure_unreported :
  (refuse (heap_refusing 2) 2 = true
   /\ Geo.status (Geo.main 64 (geo_3x3 1 None) true (heap_refusing 2)) = Some 0
   /\ Geo.stderr (Geo.main 64 (geo_3x3 1 None) true (heap_refusing 2)) = []
   /\ Geo.values (Geo.main 64 (geo_3x3 1 None) true (heap_refusing 2))
      = Geo.values (Geo.main 64 (geo_3x3 0 None) true (heap_with 0)))
  /\ (refuse (heap_refusing 3) 3 = true
      /\ Geo.status (Geo.main 64 (geo_3x3 0 (Some 0.6%Q)) true (heap_refusing 3))
         = Some 0
      /\ Geo.stderr (Geo.main 64 (geo_3x3 0 (Some 0.6%Q)) true (heap_refusing 3))
         = []
      /\ Geo.water_out
           (Geo.main 64 (geo_3x3 0 (Some 0.6%Q)) true (heap_refusing 3))
         = Some [0; 0; 0; 0; 0; 0; 0; 0; 0]
      /\ Geo.water_out (Geo.main 64 (geo_3x3 0 (Some 0.6%Q)) true (heap_with 0))
         = Some [0; 1; 1; 1; 1; 1; 0; 0; 0])
  /\ (Plasma.status (Plasma.main sample_libc (plasma_3x2 1 1) (heap_refusing 2))
      = Some 0
      /\ Plasma.stderr
           (Plasma.main sample_libc (plasma_3x2 1 1) (heap_refusing 2)) = []
      /\ Plasma.values
           (Plasma.main sample_libc (plasma_3x2 1 1) (heap_refusing 2))
         = Plasma.values (Plasma.main sample_libc (plasma_3x2 0 0) (heap_with 0))).
Proof. repeat split; vm_compute; reflexivity. Qed.

(** ** iso.c: triangles and quadrilaterals *)

Section Fill_facts.
Import Iso.

(** The bytes of a [W] x [H] framebuffer are those of its pixels. *)
Lemma framebuffer_ext (fb fb' : list Z) W H :
  0 <= W -> 0 <= H ->
  Z.of_nat (length fb) = W * H * 3 -> length fb' = length fb ->
  (forall x y c, 0 <= x < W -> 0 <= y < H -> 0 <= c < 3 ->
     px_byte fb' W x y c = px_byte fb W x y c) ->
  fb' = fb.
Proof.
  intros HW HH Hlen Hlen' Hpx. apply (array_ext 0); [done|].
  intros i Hi. rewrite Hlen', Hlen in Hi.
  assert (HWpos : 0 < W) by nia.
  set (p := i / 3). set (c := i mod 3).
  set (y := p / W). set (x := p mod W).
  assert (Hi3 : i = p * 3 + c).
  { unfold p, c. pose proof (Z.div_mod i 3). lia. }
  assert (Hp : p = y * W + x).
  { unfold y, x. pose proof (Z.div_mod p W). lia. }
  assert (Hc : 0 <= c < 3) by (apply Z.mod_pos_bound; lia).
  assert (Hx : 0 <= x < W) by (apply Z.mod_pos_bound; lia).
  assert (Hp0 : 0 <= p) by (apply Z.div_pos; lia).
  assert (Hplt : p < W * H) by (apply Z.div_lt_upper_bound; lia).
  assert (Hy : 0 <= y < H).
  { split; [apply Z.div_pos; lia|]. apply Z.div_lt_upper_bound; lia. }
  specialize (Hpx x y c Hx Hy Hc). unfold px_byte in Hpx.
  by rewrite Hi3, Hp.
Qed.

(** [fill_tri], pixel by pixel. *)
Lemma fill_tri_paint (fb : list Z) (W H x0 y0 x1 y1 x2 y2 r g b : Z) :
  0 <= W -> 0 <= H -> Z.of_nat (length fb) = W * H * 3 ->
  length (fill_tri fb W H x0 y0 x1 y1 x2 y2 r g b) = length fb
  /\ forall x y c, 0 <= x < W -> 0 <= y < H -> 0 <= c < 3 ->
       (tri_pixel W H x0 y0 x1 y1 x2 y2 x y ->
        px_byte (fill_tri fb W H x0 y0 x1 y1 x2 y2 r g b) W x y c
        = colour_byte r g b c)
       /\ (~ tri_pixel W H x0 y0 x1 y1 x2 y2 x y ->
           px_byte (fill_tri fb W H x0 y0 x1 y1 x2 y2 r g b) W x y c
           = px_byte fb W x y c).
Proof.
  intros HW HH Hlen. unfold fill_tri.
  pose proof (clip_lo x0 x1 x2) as Hminx. pose proof (clip_lo y0 y1 y2) as Hminy.
  pose proof (clip_hi x0 x1 x2 W) as Hmaxx.
  pose proof (clip_hi y0 y1 y2 H) as Hmaxy.
  cbv zeta in *. rewrite Hminx, Hminy, Hmaxx, Hmaxy.
  clear Hminx Hminy Hmaxx Hmaxy.
  set (lx := Z.max 0 (Z.min x0 (Z.min x1 x2))).
  set (ly := Z.max 0 (Z.min y0 (Z.min y1 y2))).
  set (hx := Z.min (W - 1) (Z.max x0 (Z.max x1 x2))).
  set (hy := Z.min (H - 1) (Z.max y0 (Z.max y1 y2))).
  destruct (paint_loops (same_sign_b x0 y0 x1 y1 x2 y2) fb W H
              lx (hx + 1) ly (hy + 1) r g b) as [Hl Hpx];
    [done | lia..|].
  unfold same_sign_b in Hl, Hpx.
  split; [exact Hl|].
  intros x y c Hx Hy Hc. destruct (Hpx x y c Hx Hc) as [Hp1 Hp2]. split.
  - intros [[Hbx Hby] Hs]. fold lx hx in Hbx. fold ly hy in Hby.
    apply Hp1; [lia | lia |]. by apply same_sign_b_spec.
  - intros Hn. apply Hp2. intros (Hby & Hbx & Hs). apply Hn.
    split; [unfold in_clipped_box; fold lx ly hx hy; lia|].
    by apply same_sign_b_spec.
Qed.

(** Whether a pixel is one of a triangle can be decided. *)
Lemma tri_pixel_dec W H x0 y0 x1 y1 x2 y2 x y :
  tri_pixel W H x0 y0 x1 y1 x2 y2 x y \/ ~ tri_pixel W H x0 y0 x1 y1 x2 y2 x y.
Proof.
  unfold tri_pixel, in_clipped_box, same_sign. cbv zeta. lia.
Qed.

End Fill_facts.

Section Fill_shapes.
Import Iso.

(** The edge function changes sign when the edge is reversed. *)
Lemma edge_reverse ax ay bx by_ x y :
  edge bx by_ ax ay x y = - edge ax ay bx by_ x y.
Proof. unfold edge. ring. Qed.

Lemma tri_pixel_swap W H x0 y0 x1 y1 x2 y2 x y :
  tri_pixel W H x0 y0 x2 y2 x1 y1 x y <-> tri_pixel W H x0 y0 x1 y1 x2 y2 x y.
Proof.
  unfold tri_pixel, in_clipped_box, same_sign. cbv zeta.
  rewrite (Z.min_comm x2 x1), (Z.max_comm x2 x1), (Z.min_comm y2 y1),
    (Z.max_comm y2 y1).
  rewrite (edge_reverse x1 y1 x2 y2), (edge_reverse x0 y0 x1 y1),
    (edge_reverse x2 y2 x0 y0).
  generalize (edge x1 y1 x2 y2 x y), (edge x0 y0 x1 y1 x y),
    (edge x2 y2 x0 y0 x y).
  intros w0 w2 w1.
  split; (intros [Hbox Hs]; split; [exact Hbox | lia]).
Qed.

Lemma tri_pixel_rotate W H x0 y0 x1 y1 x2 y2 x y :
  tri_pixel W H x1 y1 x2 y2 x0 y0 x y <-> tri_pixel W H x0 y0 x1 y1 x2 y2 x y.
Proof.
  unfold tri_pixel, in_clipped_box, same_sign. cbv zeta.
  replace (Z.min x1 (Z.min x2 x0)) with (Z.min x0 (Z.min x1 x2)) by lia.
  replace (Z.max x1 (Z.max x2 x0)) with (Z.max x0 (Z.max x1 x2)) by lia.
  replace (Z.min y1 (Z.min y2 y0)) with (Z.min y0 (Z.min y1 y2)) by lia.
  replace (Z.max y1 (Z.max y2 y0)) with (Z.max y0 (Z.max y1 y2)) by lia.
  generalize (edge x1 y1 x2 y2 x y), (edge x0 y0 x1 y1 x y),
    (edge x2 y2 x0 y0 x y).
  intros w0 w2 w1.
  split; (intros [Hbox Hs]; split; [exact Hbox | lia]).
Qed.

(** Two fills of one framebuffer whose triangles have the same pixels
    give the same framebuffer. *)
Lemma fill_tri_same_pixels (fb : list Z)
    (W H x0 y0 x1 y1 x2 y2 x0' y0' x1' y1' x2' y2' r g b : Z) :
  0 <= W -> 0 <= H -> Z.of_nat (length fb) = W * H * 3 ->
  (forall x y, tri_pixel W H x0' y0' x1' y1' x2' y2' x y
               <-> tri_pixel W H x0 y0 x1 y1 x2 y2 x y) ->
  fill_tri fb W H x0' y0' x1' y1' x2' y2' r g b
  = fill_tri fb W H x0 y0 x1 y1 x2 y2 r g b.
Proof.
  intros HW HH Hlen Hsame.
  destruct (fill_tri_paint fb W H x0 y0 x1 y1 x2 y2 r g b HW HH Hlen)
    as [Hl Hp].
  destruct (fill_tri_paint fb W H x0' y0' x1' y1' x2' y2' r g b HW HH Hlen)
    as [Hl' Hp'].
  apply (framebuffer_ext _ _ W H); [done | done | lia | congruence |].
  intros x y c Hx Hy Hc.
  destruct (Hp x y c Hx Hy Hc) as [Hin Hout].
  destruct (Hp' x y c Hx Hy Hc) as [Hin' Hout'].
  destruct (tri_pixel_dec W H x0 y0 x1 y1 x2 y2 x y) as [Ht|Ht].
  - rewrite (Hin Ht). apply Hin'. by apply Hsame.
  - rewrite (Hout Ht). apply Hout'. by rewrite Hsame.
Qed.

End Fill_shapes.

(** ** iso.c: the columns *)

(** On a double that is not negative, [(int)] is the floor. *)
Lemma to_int_floor (q : Q) : (0 <= q)%Q -> to_int q = Qfloor q.
Proof.
  destruct q as [n d]. unfold Qle, to_int, Qfloor. simpl. intros Hn.
  apply Z.quot_div_nonneg; lia.
Qed.


Section Iso_columns.
Import Iso_main.




(** X18.  The grey levels: the top of a column is the brightest face and the
    right face the darkest, all three in 0..255. *)
Theorem column_shading (h : Q) :
  0 <= g_right h <= g_left h /\ g_left h <= g_top h <= 255.
Proof.
  unfold g_right, g_left.
  assert (Ht : 0 <= g_top h <= 255).
  { unfold g_top, Iso.clamp8. repeat case_match; lia. }
  set (t := g_top h) in *. clearbody t.
  assert (H80 : 0 <= Z.quot (t * 80) 100 <= t).
  { rewrite Z.quot_div_nonneg by lia. split.
    - apply Z.div_pos; lia.
    - apply Z.div_le_upper_bound; lia. }
  assert (H60 : 0 <= Z.quot (t * 60) 100 <= Z.quot (t * 80) 100).
  { rewrite !Z.quot_div_nonneg by lia. split.
    - apply Z.div_pos; lia.
    - apply Z.div_le_mono; lia. }
  unfold Iso.clamp8. repeat case_match; lia.
Qed.

End Iso_columns.

(** ** iso.c: the order of painting *)

Lemma StronglySorted_snoc {A} (R : A -> A -> Prop) l a :
  StronglySorted R l -> Forall (fun b => R b a) l ->
  StronglySorted R (l ++ [a]).
Proof.
  induction l as [|b l IH]; intros Hs Hall; simpl.
  - constructor; constructor.
  - inversion Hs as [|? ? Hs' Hb]; subst.
    inversion Hall as [|? ? Hba Hall']; subst.
    constructor; [by apply IH|].
    apply Forall_app. split; [done|]. by constructor.
Qed.

Section Iso_order.
Import Iso_main.

(** Skipping cells in a loop nest, or listing first the cells that are
    not skipped: the same fold. *)
Lemma fold_selected {St} (skip : Z -> Z -> bool) (f : Z -> Z -> St -> St)
    (l : list (Z * Z)) (acc : list (Z * Z)) (s : St) :
  fold_left (fun s p => f (fst p) (snd p) s)
    (fold_left (fun acc p =>
                  if skip (fst p) (snd p) then acc
                  else acc ++ [(snd p, fst p - snd p)]) l acc) s
  = fold_left (fun s p =>
                 if skip (fst p) (snd p) then s
                 else f (snd p) (fst p - snd p) s) l
      (fold_left (fun s p => f (fst p) (snd p) s) acc s).
Proof.
  revert acc. induction l as [|p l IH]; intros acc; simpl; [done|].
  rewrite IH. destruct (skip (fst p) (snd p)); [done|].
  by rewrite fold_left_app.
Qed.

Lemma render_paint_order (c : config) (grid : list Q) (fb : list Z) :
  render c grid fb
  = fold_left (fun fb p => draw_column c grid (fst p) (snd p) fb)
      (paint_order (GRID_W c) (GRID_H c)) fb.
Proof.
  unfold render, paint_order. rewrite !for_range_nest.
  rewrite (fold_selected
             (fun s x => (s - x <? 0) || (GRID_H c <=? s - x))
             (draw_column c grid)).
  done.
Qed.

Lemma paint_order_sorted (W H : Z) :
  StronglySorted painted_before (paint_order W H)
  /\ forall x y, In (x, y) (paint_order W H) <-> 0 <= x < W /\ 0 <= y < H.
Proof.
  unfold paint_order.
  set (body := fun s : Z => for_range 0 W 1 (fun x (acc : list (Z * Z)) =>
      let gy := s - x in
      if (gy <? 0) || (H <=? gy) then acc else acc ++ [(x, gy)])).
  set (Inv := fun (k : Z) (acc : list (Z * Z)) =>
    StronglySorted painted_before acc
    /\ forall x y, In (x, y) acc
         <-> 0 <= x < W /\ 0 <= y < H /\ x + y < k).
  assert (HInv : Inv (Z.max 0 (W - 1 + (H - 1) + 1))
                   (for_range 0 (W - 1 + (H - 1) + 1) 1 body [])).
  { apply for_range_ind_max.
    - split; [constructor|]. intros x y. simpl. lia.
    - intros s acc Hs [Hsort Hin]. unfold body.
      set (Inv2 := fun (k : Z) (acc' : list (Z * Z)) =>
        StronglySorted painted_before acc'
        /\ forall x y, In (x, y) acc'
             <-> 0 <= x < W /\ 0 <= y < H
                 /\ (x + y < s \/ (x + y = s /\ x < k))).
      assert (HInv2 : Inv2 (Z.max 0 W) (for_range 0 W 1
          (fun x (acc : list (Z * Z)) =>
             let gy := s - x in
             if (gy <? 0) || (H <=? gy) then acc else acc ++ [(x, gy)]) acc)).
      { apply for_range_ind_max.
        - split; [done|]. intros x y. rewrite Hin. lia.
        - intros x acc' Hx [Hsort' Hin']. cbv zeta.
          destruct (Z.ltb_spec (s - x) 0) as [Hneg|Hpos]; simpl.
          { split; [done|]. intros x' y'. rewrite Hin'. lia. }
          destruct (Z.leb_spec H (s - x)) as [Hbig|Hsmall].
          { split; [done|]. intros x' y'. rewrite Hin'. lia. }
          split.
          + apply StronglySorted_snoc; [done|].
            apply Forall_forall. intros [x' y'] Hp.
            apply Hin' in Hp.
            unfold painted_before. simpl. lia.
          + intros x' y'. rewrite in_app_iff, Hin'. simpl. split.
            * intros [?|[[= <- <-]|[]]]; lia.
            * intros (? & ? & [?|[? ?]]); [left; lia|].
              destruct (Z.eq_dec x' x) as [->|?]; [|left; lia].
              right. left. f_equal. lia. }
      destruct HInv2 as [Hsort' Hin']. split; [done|].
      intros x y. rewrite Hin'. lia. }
  destruct HInv as [Hsort Hin]. split; [done|].
  intros x y. rewrite Hin. lia.
Qed.

(** X19.  [render] draws every cell of the grid exactly once, from the back
    to the front: in the order of increasing [x + y] and, on one diagonal,
    of increasing [x], so that a column is painted after every column that
    it can hide. *)
Theorem render_back_to_front (c : config) (grid : list Q) (fb : list Z) :
  render c grid fb
  = fold_left (fun fb p => draw_column c grid (fst p) (snd p) fb)
      (paint_order (GRID_W c) (GRID_H c)) fb
  /\ StronglySorted painted_before (paint_order (GRID_W c) (GRID_H c))
  /\ NoDup (paint_order (GRID_W c) (GRID_H c))
  /\ forall x y, In (x, y) (paint_order (GRID_W c) (GRID_H c))
       <-> 0 <= x < GRID_W c /\ 0 <= y < GRID_H c.
Proof.
  destruct (paint_order_sorted (GRID_W c) (GRID_H c)) as [Hsort Hin].
  split; [apply render_paint_order|]. split; [done|]. split; [|done].
  clear Hin. induction Hsort as [|p l Hs IH Hall]; [constructor|].
  constructor; [|done]. intros Hp.
  rewrite Forall_forall in Hall. apply (proj1 (list_elem_of_In _ _)) in Hp.
  apply Hall in Hp. unfold painted_before in Hp. lia.
Qed.

End Iso_order.

Section Iso_read.
Import Iso_main.

Lemma drop_nth_cons {A} (d : A) (l : list A) (k : nat) :
  (k < length l)%nat -> drop k l = nth k l d :: drop (S k) l.
Proof.
  revert k. induction l as [|a l IH]; intros k Hk; simpl in *; [lia|].
  destruct k as [|k]; [done|]. simpl. apply IH. lia.
Qed.

(** The state of the reading loops when [k] cells have been handled. *)
Lemma read_grid_inv (input grid : list Q) (W H : Z) :
  0 <= W -> 0 <= H -> W * H <= Z.of_nat (length grid) ->
  let n := Z.of_nat (length input) in
  (W * H <= n ->
   exists g, read_grid input grid W H = inr (g, drop (Z.to_nat (W * H)) input)
     /\ length g = length grid
     /\ forall k, 0 <= k < W * H ->
          rd 0%Q g k = clamp_read (nth (Z.to_nat k) input 0%Q))
  /\ (n < W * H -> read_grid input grid W H = inl (n / W, n mod W)).
Proof.
  intros HW HH Hlen n.
  set (Inv := fun (k : Z) (s : (Z * Z) + (list Q * list Q)) =>
    (k <= n ->
     exists g, s = inr (g, drop (Z.to_nat k) input)
       /\ length g = length grid
       /\ forall j, 0 <= j < k ->
            rd 0%Q g j = clamp_read (nth (Z.to_nat j) input 0%Q))
    /\ (n < k -> s = inl (n / W, n mod W))).
  assert (Hrows : forall y, 0 <= y <= H ->
    Inv (y * W) (for_range 0 y 1
                   (fun y => for_range 0 W 1 (fun x => read_cell W y x))
                   (inr (grid, input)))).
  { intros y Hy.
    apply (for_range_ind (fun k s => Inv (k * W) s)); [lia | |].
    - split; [|lia]. intros _. exists grid. simpl. split; [done|].
      split; [done|]. intros j Hj. lia.
    - intros y' s Hy' HI.
      assert (Hcells : forall x, 0 <= x <= W ->
        Inv (y' * W + x) (for_range 0 x 1 (fun x => read_cell W y' x) s)).
      { intros x Hx.
        apply (for_range_ind (fun k s' => Inv (y' * W + k) s')); [lia | |].
        - by rewrite Z.add_0_r.
        - intros x' s' Hx' [Hok Herr].
          set (k := y' * W + x') in *.
          assert (Hk0 : 0 <= k) by (unfold k; nia).
          replace (y' * W + (x' + 1)) with (k + 1) by (unfold k; lia).
          destruct (Z.lt_ge_cases n k) as [Hshort|Hlong].
          + rewrite (Herr Hshort). simpl. split; [lia | done].
          + destruct (Hok Hlong) as (g & -> & Hlg & Hg). simpl.
            destruct (Z.eq_dec k n) as [Heq|Hne].
            * rewrite drop_ge by (unfold n in Heq; lia).
              split; [lia|]. intros _. f_equal. f_equal.
              -- apply (Z.div_unique_pos n W y' x'); unfold k in *; lia.
              -- apply (Z.mod_unique_pos n W y' x'); unfold k in *; lia.
            * rewrite (drop_nth_cons 0%Q) by (unfold n in *; lia).
              split; [|lia]. intros _.
              exists (wr g k (clamp_read (nth (Z.to_nat k) input 0%Q))).
              split; [|split].
              -- unfold clamp_read. cbv zeta. repeat f_equal. lia.
              -- by rewrite length_wr.
              -- intros j Hj. destruct (Z.eq_dec j k) as [->|Hjk].
                 ++ apply rd_wr_eq. assert (k < W * H) by (unfold k; nia). lia.
                 ++ rewrite rd_wr_ne by lia. apply Hg. lia. }
      replace ((y' + 1) * W) with (y' * W + W) by lia.
      apply Hcells. lia. }
  specialize (Hrows H ltac:(lia)). unfold read_grid.
  replace (H * W) with (W * H) in Hrows by lia.
  destruct Hrows as [Hok Herr]. split; [|done].
  intros Hn. destruct (Hok Hn) as (g & Hg & Hl & Hc). by exists g.
Qed.

(** X21.  A heightmap that is too short. When the input holds [n] numbers,
    fewer than the [GRID_W * GRID_H] cells of the grid, the run ends with
    status 1 at the first cell for which a number is missing: the cell
    [(y, x)] of its message is [y = n / GRID_W], [x = n mod GRID_W], and no
    image is written. *)
Theorem short_input_reported (c : config) (input : list Q) (write_ok : bool)
    (hp : heap) :
  1 <= GRID_W c -> 1 <= GRID_H c -> refuse hp (allocs hp) = false ->
  Z.of_nat (length input) < GRID_W c * GRID_H c ->
  main c (Some input) write_ok hp
  = inl (Short_input (Z.of_nat (length input) / GRID_W c)
           (Z.of_nat (length input) mod GRID_W c)).
Proof.
  intros HW HH Hr Hn. unfold main. cbv zeta.
  unfold malloc_double at 1. rewrite Hr.
  match goal with |- context [read_grid input ?g _ _] => set (grid := g) end.
  assert (Hlen : GRID_W c * GRID_H c <= Z.of_nat (length grid)).
  { unfold grid. rewrite length_map, length_seqZ. nia. }
  destruct (read_grid_inv input grid (GRID_W c) (GRID_H c)) as [_ Herr];
    [lia | lia | done |].
  cbv zeta in Herr. by rewrite (Herr Hn).
Qed.

Lemma short_input_reported_witness :
  main {| GRID_W := 3; GRID_H := 2; TILE_W := 16; TILE_H := 8; ZS := 64;
          BG_R := 16; BG_G := 16; BG_B := 24 |}
    (Some [0.5; 0.25; 0.75; 1]%Q) true (heap_with 0)
  = inl (Short_input (Z.of_nat (length [0.5; 0.25; 0.75; 1]%Q) / 3)
           (Z.of_nat (length [0.5; 0.25; 0.75; 1]%Q) mod 3)).
Proof.
  apply (short_input_reported
           {| GRID_W := 3; GRID_H := 2; TILE_W := 16; TILE_H := 8; ZS := 64;
              BG_R := 16; BG_G := 16; BG_B := 24 |}
           [0.5; 0.25; 0.75; 1]%Q true (heap_with 0));
    [simpl; lia | simpl; lia | reflexivity | simpl; lia].
Defined.

End Iso_read.

(** ** geo.c: the colour map *)

Lemma to_int_mono (p q : Q) : (0 <= p)%Q -> (p <= q)%Q -> to_int p <= to_int q.
Proof.
  intros H0 Hpq. rewrite !to_int_floor by lra. by apply Qfloor_resp_le.
Qed.

Lemma to_int_between (q : Q) (lo hi : Z) :
  0 <= lo -> (inject_Z lo <= q <= inject_Z hi)%Q -> lo <= to_int q <= hi.
Proof.
  intros Hlo [H1 H2].
  assert (H0 : (0 <= inject_Z lo)%Q).
  { change 0%Q with (inject_Z 0). by rewrite <- Zle_Qle. }
  rewrite to_int_floor by lra. split.
  - rewrite <- (Qfloor_Z lo). by apply Qfloor_resp_le.
  - rewrite <- (Qfloor_Z hi). by apply Qfloor_resp_le.
Qed.

Section Geo_colours.
Import Geo_ppm.

Lemma clamp255_id z : 0 <= z <= 255 -> clamp255 z = z.
Proof.
  intros Hz. unfold clamp255. cbv zeta.
  destruct (Z.ltb_spec z 0); [lia|]. destruct (Z.ltb_spec 255 z); lia.
Qed.

(** The depth of a water cell, as [color_for] clamps it. *)
Lemma depth_unit (level v : Q) :
  let d := (level - v)%Q in
  let d := if Qltb d 0 then 0%Q else d in
  let d := if Qltb 1 d then 1%Q else d in
  (0 <= d <= 1)%Q.
Proof.
  cbv zeta. destruct (Qltb (level - v) 0) eqn:E0.
  - destruct (Qltb 1 0) eqn:E1; [apply Qltb_lt in E1; lra | lra].
  - apply Qltb_ge in E0. destruct (Qltb 1 (level - v)) eqn:E1; [lra|].
    apply Qltb_ge in E1. lra.
Qed.

Lemma depth_mono (level v v' : Q) :
  (v <= v')%Q ->
  ((let d := (level - v')%Q in
    let d := if Qltb d 0 then 0%Q else d in
    if Qltb 1 d then 1%Q else d)
   <= (let d := (level - v)%Q in
       let d := if Qltb d 0 then 0%Q else d in
       if Qltb 1 d then 1%Q else d))%Q.
Proof.
  intros Hv. cbv zeta.
  destruct (Qltb (level - v) 0) eqn:?, (Qltb (level - v') 0) eqn:?;
  repeat match goal with
         | |- context [Qltb ?a ?b] => destruct (Qltb a b) eqn:?
         end;
    repeat match goal with
           | H : Qltb _ _ = true |- _ => apply Qltb_lt in H
           | H : Qltb _ _ = false |- _ => apply Qltb_ge in H
           end; lra.
Qed.

(** The components of [color_for] are in 0..255. *)
Lemma color_for_range (v : Q) (water : Z) (level : Q) (r g b : Z) :
  color_for v water level = (r, g, b) ->
  (0 <= r <= 255 /\ 0 <= g <= 255 /\ 0 <= b <= 255)
  /\ (water <> 0 -> 10 <= r <= 40 /\ 40 <= g <= 100 /\ 120 <= b <= 240).
Proof.
  unfold color_for. destruct (Z.eqb_spec water 0) as [Hw|Hw]; simpl.
  - destruct (Qltb v 0.05); [|destruct (Qltb v 0.30); [|destruct (Qltb v 0.60)]];
      (intros [= <- <- <-]; split; [lia | done]).
  - pose proof (depth_unit level v) as Hd. cbv zeta in Hd.
    set (d := if Qltb 1 (if Qltb (level - v) 0 then 0%Q else (level - v)%Q)
              then 1%Q
              else if Qltb (level - v) 0 then 0%Q else (level - v)%Q) in *.
    clearbody d.
    assert (Hr : 10 <= to_int (10 + 30 * (1 - d)) <= 40).
    { apply to_int_between; [lia|]. unfold inject_Z. lra. }
    assert (Hg : 40 <= to_int (40 + 60 * (1 - d)) <= 100).
    { apply to_int_between; [lia|]. unfold inject_Z. lra. }
    assert (Hb : 120 <= to_int (120 + 120 * (1 - d)) <= 240).
    { apply to_int_between; [lia|]. unfold inject_Z. lra. }
    rewrite !clamp255_id by lia.
    intros [= <- <- <-]. split; [lia | intros _; lia].
Qed.

(** X12.  [color_for] gives three components in 0..255. For a water cell red
    is in 10..40, green in 40..100 and blue in 120..240, so that the
    clamping of [color_for] never acts, and the shallower the water the
    lighter its colour. *)
Theorem color_for_components (v v' : Q) (water : Z) (level : Q)
    (r g b r' g' b' : Z) :
  color_for v water level = (r, g, b) ->
  color_for v' water level = (r', g', b') ->
  (0 <= r <= 255 /\ 0 <= g <= 255 /\ 0 <= b <= 255)
  /\ (water <> 0 ->
      10 <= r <= 40 /\ 40 <= g <= 100 /\ 120 <= b <= 240
      /\ ((v <= v')%Q -> r <= r' /\ g <= g' /\ b <= b')).
Proof.
  unfold color_for. destruct (Z.eqb_spec water 0) as [Hw|Hw]; simpl.
  - destruct (Qltb v 0.05); [|destruct (Qltb v 0.30); [|destruct (Qltb v 0.60)]];
      (destruct (Qltb v' 0.05);
         [|destruct (Qltb v' 0.30); [|destruct (Qltb v' 0.60)]]);
      (intros [= <- <- <-] [= <- <- <-]; split; [lia | done]).
  - pose proof (depth_unit level v) as Hd.
    pose proof (depth_unit level v') as Hd'.
    pose proof (depth_mono level v v') as Hm.
    cbv zeta in Hd, Hd', Hm.
    set (d := if Qltb 1 (if Qltb (level - v) 0 then 0%Q else (level - v)%Q)
              then 1%Q
              else if Qltb (level - v) 0 then 0%Q else (level - v)%Q) in *.
    set (d' := if Qltb 1 (if Qltb (level - v') 0 then 0%Q else (level - v')%Q)
               then 1%Q
               else if Qltb (level - v') 0 then 0%Q else (level - v')%Q) in *.
    clearbody d d'.
    assert (Hr : 10 <= to_int (10 + 30 * (1 - d)) <= 40).
    { apply to_int_between; [lia|]. unfold inject_Z. lra. }
    assert (Hg : 40 <= to_int (40 + 60 * (1 - d)) <= 100).
    { apply to_int_between; [lia|]. unfold inject_Z. lra. }
    assert (Hb : 120 <= to_int (120 + 120 * (1 - d)) <= 240).
    { apply to_int_between; [lia|]. unfold inject_Z. lra. }
    assert (Hr' : 10 <= to_int (10 + 30 * (1 - d')) <= 40).
    { apply to_int_between; [lia|]. unfold inject_Z. lra. }
    assert (Hg' : 40 <= to_int (40 + 60 * (1 - d')) <= 100).
    { apply to_int_between; [lia|]. unfold inject_Z. lra. }
    assert (Hb' : 120 <= to_int (120 + 120 * (1 - d')) <= 240).
    { apply to_int_between; [lia|]. unfold inject_Z. lra. }
    rewrite !clamp255_id by lia. intros [= <- <- <-] [= <- <- <-].
    split; [lia|]. intros _. split_and!; try lia.
    intros Hv. specialize (Hm Hv).
    split_and!; apply to_int_mono; lra.
Qed.

Lemma color_for_components_witness :
  color_for 0.25 1 0.5 = (32, 85, 210) /\ color_for 0.5 1 0.5 = (40, 100, 240)
  /\ 10 <= 32 <= 40 /\ 32 <= 40 /\ 85 <= 100 /\ 210 <= 240.
Proof.
  split; [vm_compute; reflexivity|]. split; [vm_compute; reflexivity|].
  destruct (color_for_components 0.25 0.5 1 0.5 32 85 210 40 100 240)
    as [_ Hw]; [vm_compute; reflexivity | vm_compute; reflexivity|].
  destruct (Hw ltac:(lia)) as (Hr & _ & _ & Hm).
  split; [exact Hr|]. apply Hm. vm_compute. discriminate.
Defined.

End Geo_colours.

(** ** geo.c: the PPM image *)

Section Geo_image.
Import Geo_ppm.

Lemma shore_step_bytes water W H x y w k s :
  (let '(r, g, b, _) := s in
   0 <= r <= 255 /\ 0 <= g <= 255 /\ 0 <= b <= 255) ->
  let '(r, g, b, _) := shore_step water W H x y w k s in
  0 <= r <= 255 /\ 0 <= g <= 255 /\ 0 <= b <= 255.
Proof.
  destruct s as [[[r g] b] stop]. intros (Hr & Hg & Hb). unfold shore_step.
  destruct stop; [done|]. destruct (_ && _); [|done].
  destruct (negb _); [|done].
  rewrite !Z.quot_div_nonneg by lia.
  split_and!; (apply Z.div_pos; lia) || (apply Z.div_le_upper_bound; lia).
Qed.

(** Every pixel of the map has its three components in 0..255. *)
Lemma pixel_bytes c map water y x :
  let '(r, g, b) := pixel c map water y x in
  0 <= r <= 255 /\ 0 <= g <= 255 /\ 0 <= b <= 255.
Proof.
  unfold pixel. cbv zeta.
  match goal with |- context [color_for ?v ?w ?l] =>
    pose proof (fun r g b E => proj1 (color_for_range v w l r g b E)) as Hc;
    destruct (color_for v w l) as [[r g] b] eqn:Ecol
  end.
  specialize (Hc r g b eq_refl).
  destruct water as [wm|]; [|done]. destruct (Geo.WATER_ENABLE c); [|done].
  match goal with |- context [for_range 0 4 1 ?body ?s0] =>
    assert (Hs : let '(r, g, b, _) := for_range 0 4 1 body s0 in
                 0 <= r <= 255 /\ 0 <= g <= 255 /\ 0 <= b <= 255);
    [|by destruct (for_range 0 4 1 body s0) as [[[? ?] ?] ?]]
  end.
  rewrite for_range_fold.
  apply (fold_left_inv (fun s : Z * Z * Z * bool =>
           let '(r, g, b, _) := s in
           0 <= r <= 255 /\ 0 <= g <= 255 /\ 0 <= b <= 255)); [done|].
  intros k s _ Hs. by apply shore_step_bytes.
Qed.

(** [render_rgb] stores the three components of every pixel. *)
Lemma render_rgb_cells c map water rgb :
  0 <= Geo.GRID_W c -> 0 <= Geo.GRID_H c ->
  Z.of_nat (length rgb) = Geo.GRID_W c * Geo.GRID_H c * 3 ->
  length (render_rgb c map water rgb) = length rgb
  /\ forall y x, 0 <= y < Geo.GRID_H c -> 0 <= x < Geo.GRID_W c ->
       let '(r, g, b) := pixel c map water y x in
       rd 0 (render_rgb c map water rgb) ((y * Geo.GRID_W c + x) * 3 + 0) = r
       /\ rd 0 (render_rgb c map water rgb) ((y * Geo.GRID_W c + x) * 3 + 1) = g
       /\ rd 0 (render_rgb c map water rgb) ((y * Geo.GRID_W c + x) * 3 + 2) = b.
Proof.
  intros HW HH Hlen. unfold render_rgb. cbv zeta.
  set (W := Geo.GRID_W c) in *. set (H := Geo.GRID_H c) in *.
  rewrite for_range_nest.
  set (step := fun (acc : list Z) (p : Z * Z) =>
    let '(r, g, b) := pixel c map water (fst p) (snd p) in
    wr (wr (wr acc ((fst p * W + snd p) * 3 + 0) r)
          ((fst p * W + snd p) * 3 + 1) g)
       ((fst p * W + snd p) * 3 + 2) b).
  set (l := idx_pairs (idx_range 0 H 1) (fun _ => idx_range 0 W 1)).
  assert (Hin : forall y x, In (y, x) l <-> 0 <= y < H /\ 0 <= x < W).
  { intros y x. unfold l. rewrite in_idx_pairs, !idx_range_spec by lia.
    rewrite !Z.mod_1_r. lia. }
  destruct (fold_left_each step
              (fun s => length s = length rgb)
              (fun p s =>
                 let '(r, g, b) := pixel c map water (fst p) (snd p) in
                 rd 0 s ((fst p * W + snd p) * 3 + 0) = r
                 /\ rd 0 s ((fst p * W + snd p) * 3 + 1) = g
                 /\ rd 0 s ((fst p * W + snd p) * 3 + 2) = b)
              l rgb) as [Hl Hq].
  - done.
  - intros [y x] s _ Hs. unfold step. simpl.
    destruct (pixel c map water y x) as [[r g] b]. by rewrite !length_wr.
  - intros [y x] s Hp Hs. apply Hin in Hp as [Hy Hx]. unfold step. simpl.
    destruct (pixel c map water y x) as [[r g] b].
    pose proof (cell_index_bound W H y x Hx Hy) as Hb.
    split_and!.
    + rewrite !rd_wr_ne by lia. apply rd_wr_eq. lia.
    + rewrite rd_wr_ne by lia. apply rd_wr_eq. rewrite length_wr. lia.
    + apply rd_wr_eq. rewrite !length_wr. lia.
  - intros [y x] [y' x'] s Hp Hp' Hs. apply Hin in Hp as [Hy Hx].
    apply Hin in Hp' as [Hy' Hx']. unfold step. simpl.
    destruct (decide ((y', x') = (y, x))) as [[= -> ->]|Hne].
    + destruct (pixel c map water y x) as [[r g] b].
      intros _. pose proof (cell_index_bound W H y x Hx Hy) as Hb.
      split_and!.
      * rewrite !rd_wr_ne by lia. by rewrite rd_wr_eq by lia.
      * rewrite rd_wr_ne by lia. by rewrite rd_wr_eq by (rewrite length_wr; lia).
      * by rewrite rd_wr_eq by (rewrite !length_wr; lia).
    + destruct (pixel c map water y x) as [[r g] b].
      destruct (pixel c map water y' x') as [[r' g'] b'].
      intros (Hr & Hg & Hb).
      assert (Hidx : y' * W + x' <> y * W + x).
      { intros Heq. apply cell_index_inj in Heq; [|done..]. by destruct Heq as [-> ->]. }
      rewrite !rd_wr_ne by lia. done.
  - split; [exact Hl|]. intros y x Hy Hx.
    specialize (Hq (y, x) (proj2 (Hin y x) (conj Hy Hx))). exact Hq.
Qed.

(** The elements of [l] from [k] on, three at a time. *)
Lemma take_three (l : list Z) (k : nat) :
  (k + 3 <= length l)%nat ->
  take (k + 3) l
  = take k l ++ [rd 0 l (Z.of_nat k); rd 0 l (Z.of_nat k + 1);
                 rd 0 l (Z.of_nat k + 2)].
Proof.
  intros Hk.
  assert (Hnth : forall j, (j < length l)%nat -> l !! j = Some (rd 0 l (Z.of_nat j))).
  { intros j Hj. rewrite rd_nth.
    destruct (lookup_lt_is_Some_2 l j Hj) as [v Hv].
    rewrite Hv. f_equal. symmetry. by apply nth_lookup_Some. }
  replace (k + 3)%nat with (S (S (S k))) by lia.
  rewrite (take_S_r l (S (S k)) (rd 0 l (Z.of_nat k + 2))).
  2:{ rewrite Hnth by lia. do 2 f_equal. lia. }
  rewrite (take_S_r l (S k) (rd 0 l (Z.of_nat k + 1))).
  2:{ rewrite Hnth by lia. do 2 f_equal. lia. }
  rewrite (take_S_r l k (rd 0 l (Z.of_nat k))) by (apply Hnth; lia).
  by rewrite <- !app_assoc.
Qed.

(** [write_ppm] writes an array of bytes as it is. *)
Lemma write_ppm_pixels_bytes (rgb : list Z) (W H : Z) :
  0 <= W -> 0 <= H -> Z.of_nat (length rgb) = W * H * 3 ->
  (forall i, 0 <= i < W * H * 3 -> 0 <= rd 0 rgb i <= 255) ->
  write_ppm_pixels rgb W H = rgb.
Proof.
  intros HW HH Hlen Hbytes. unfold write_ppm_pixels.
  set (body := fun (y x : Z) (out : list Z) =>
    out ++ [clamp255 (rd 0 rgb ((y * W + x) * 3 + 0)) mod 256;
            clamp255 (rd 0 rgb ((y * W + x) * 3 + 1)) mod 256;
            clamp255 (rd 0 rgb ((y * W + x) * 3 + 2)) mod 256]).
  assert (Hrows : for_range 0 H 1 (fun y => for_range 0 W 1 (body y)) []
                  = take (Z.to_nat (H * W * 3)) rgb).
  { apply (for_range_ind
             (fun y out => out = take (Z.to_nat (y * W * 3)) rgb)); [lia | done |].
    intros y out Hy ->.
    replace ((y + 1) * W * 3) with ((y * W + W) * 3) by lia.
    apply (for_range_ind
             (fun x out => out = take (Z.to_nat ((y * W + x) * 3)) rgb));
      [lia | f_equal; lia |].
    intros x out Hx ->. unfold body.
    pose proof (cell_index_bound W H y x Hx Hy) as Hb.
    replace (Z.to_nat ((y * W + (x + 1)) * 3))
      with (Z.to_nat ((y * W + x) * 3) + 3)%nat by lia.
    rewrite take_three by lia. f_equal.
    rewrite Z2Nat.id by lia.
    assert (Hid : forall k, 0 <= k < 3 ->
      clamp255 (rd 0 rgb ((y * W + x) * 3 + k)) mod 256
      = rd 0 rgb ((y * W + x) * 3 + k)).
    { intros k Hk. specialize (Hbytes ((y * W + x) * 3 + k) ltac:(lia)).
      rewrite clamp255_id by done. apply Z.mod_small. lia. }
    rewrite !Hid by lia. by rewrite Z.add_0_r. }
  cbv zeta. fold (body). 
  change (for_range 0 H 1 (fun y => for_range 0 W 1 (body y)) [] = rgb).
  rewrite Hrows. apply take_ge. lia.
Qed.

(** X13.  The colours of the map are written to the PPM file as they are
    computed: every component that [main] stores in [rgb] is in 0..255, also
    on the darkened shore, so that the clamping of [write_ppm] changes none
    of them. *)
Theorem ppm_pixels_as_rendered (c : Geo.config) (map : list Q)
    (water : option (list Z)) (rgb : list Z) :
  0 <= Geo.GRID_W c -> 0 <= Geo.GRID_H c ->
  Z.of_nat (length rgb) = Geo.GRID_W c * Geo.GRID_H c * 3 ->
  write_ppm_pixels (render_rgb c map water rgb) (Geo.GRID_W c) (Geo.GRID_H c)
  = render_rgb c map water rgb
  /\ Forall (fun v => 0 <= v <= 255) (render_rgb c map water rgb).
Proof.
  intros HW HH Hlen.
  destruct (render_rgb_cells c map water rgb HW HH Hlen) as [Hl Hc].
  set (W := Geo.GRID_W c) in *. set (H := Geo.GRID_H c) in *.
  assert (Hbytes : forall i, 0 <= i < W * H * 3 ->
            0 <= rd 0 (render_rgb c map water rgb) i <= 255).
  { intros i Hi. assert (HWpos : 0 < W) by nia.
    set (p := i / 3). set (k := i mod 3).
    set (y := p / W). set (x := p mod W).
    assert (Hi3 : i = p * 3 + k).
    { unfold p, k. pose proof (Z.div_mod i 3). lia. }
    assert (Hp : p = y * W + x).
    { unfold y, x. pose proof (Z.div_mod p W). lia. }
    assert (Hk : 0 <= k < 3) by (apply Z.mod_pos_bound; lia).
    assert (Hx : 0 <= x < W) by (apply Z.mod_pos_bound; lia).
    assert (Hp0 : 0 <= p) by (apply Z.div_pos; lia).
    assert (Hplt : p < W * H) by (apply Z.div_lt_upper_bound; lia).
    assert (Hy : 0 <= y < H).
    { split; [apply Z.div_pos; lia|]. apply Z.div_lt_upper_bound; lia. }
    specialize (Hc y x Hy Hx). pose proof (pixel_bytes c map water y x) as Hpx.
    destruct (pixel c map water y x) as [[r g] b].
    destruct Hc as (Hr & Hg & Hb). rewrite Hi3, Hp.
    assert (k = 0 \/ k = 1 \/ k = 2) as [-> | [-> | ->]] by lia;
      [rewrite Hr | rewrite Hg | rewrite Hb]; lia. }
  split.
  - apply write_ppm_pixels_bytes; [done | done | lia | done].
  - apply Forall_nth. intros k d Hk.
    rewrite (nth_indep _ d 0) by done. rewrite <- rd_nth. apply Hbytes. lia.
Qed.

Lemma ppm_pixels_as_rendered_witness :
  write_ppm_pixels
    (render_rgb (geo_3x3 0 (Some 0.5%Q)) (repeat 0.25%Q 9) (Some (repeat 1 9))
       (repeat 0 27)) 3 3
  = render_rgb (geo_3x3 0 (Some 0.5%Q)) (repeat 0.25%Q 9) (Some (repeat 1 9))
      (repeat 0 27)
  /\ Forall (fun v => 0 <= v <= 255)
       (render_rgb (geo_3x3 0 (Some 0.5%Q)) (repeat 0.25%Q 9)
          (Some (repeat 1 9)) (repeat 0 27)).
Proof.
  apply (ppm_pixels_as_rendered (geo_3x3 0 (Some 0.5%Q)) (repeat 0.25%Q 9)
           (Some (repeat 1 9)) (repeat 0 27)); [simpl; lia | simpl; lia | reflexivity].
Defined.

End Geo_image.

(** ** Smoothing: geo.c and plasma.c *)


Section Plasma_blur.





End Plasma_blur.

(** ** plasma.c: what [malloc] leaves in the buffers has no effect *)






Section Plasma_junk.
Context (L : libc).

Local Abbreviation buf := (fun s : Plasma.ds_state L => fst (fst s)).

(** A step that stores one value, the same in both runs, in the cell
    [(y, x)]. *)
Local Abbreviation same_store n y x t t' u u' :=
  (exists v, buf u = wr (buf t) (y * n + x) v
     /\ buf u' = wr (buf t') (y * n + x) v
     /\ snd (fst u) = snd (fst u') /\ snd u = snd u').






End Plasma_junk.




(** ** geo.c: when the flood stays within its queue *)

Lemma filter_one_more {A} (p p' : A -> bool) (l : list A) (a : A) :
  List.NoDup l -> In a l -> p a = false -> p' a = true ->
  (forall b, b <> a -> p' b = p b) ->
  length (List.filter p' l) = S (length (List.filter p l)).
Proof.
  intros Hnd Hin Hpa Hpa' Hother.
  induction l as [|b l IH]; [done|]. inversion Hnd as [|? ? Hb Hnd']; subst.
  destruct Hin as [->|Hin].
  - simpl. rewrite Hpa, Hpa'. simpl. f_equal.
    assert (Hsame : List.filter p' l = List.filter p l).
    { apply List.filter_ext_in. intros c Hc. apply Hother. intros ->.
      by apply Hb, list_elem_of_In. }
    by rewrite Hsame.
  - assert (Hne : b <> a).
    { intros ->. by apply Hb, list_elem_of_In. }
    simpl. rewrite (Hother b Hne). destruct (p b); simpl; by rewrite IH.
Qed.

Lemma ones_wr_new (m : list Z) (i : Z) :
  0 <= i < Z.of_nat (length m) -> rd 0 m i <> 1 ->
  ones (wr m i 1) = ones m + 1.
Proof.
  intros Hi Hne. unfold ones, marked_cells. rewrite length_wr.
  rewrite (filter_one_more (fun j => rd 0 m j =? 1)
             (fun j => rd 0 (wr m i 1) j =? 1) _ i).
  - lia.
  - apply NoDup_ListNoDup, NoDup_seqZ.
  - apply list_elem_of_In, elem_of_seqZ. lia.
  - by apply Z.eqb_neq.
  - by rewrite rd_wr_eq.
  - intros j Hj. by rewrite rd_wr_ne.
Qed.

Lemma wr_same (m : list Z) (i v : Z) :
  0 <= i < Z.of_nat (length m) -> rd 0 m i = v -> wr m i v = m.
Proof.
  intros Hi Hv. apply (array_ext 0); [apply length_wr|].
  intros j Hj. destruct (Z.eq_dec i j) as [->|Hne].
  - rewrite rd_wr_eq by done. done.
  - by rewrite rd_wr_ne.
Qed.

Section Flood_safe.
Context {E : Type} (le : E -> E -> bool) (e0 : E).
Context (h : list E) (W H : Z) (level : E) (sx sy : Z).
Context (HW : 2 <= W) (HH : 2 <= H).
Context (dry : list (Z * Z)) (Hnd : NoDup dry) (H4 : (4 <= length dry)%nat).
Context (Hdry : forall x y, In (x, y) dry ->
           Geo.in_grid W H x y /\ le (rd e0 h (y * W + x)) level = false).

Local Abbreviation Low := (Geo.low le e0 h W H level).
Local Abbreviation MaskOk := (Geo.mask_ok le e0 h W H level).
Local Abbreviation Marked := (Geo.marked W).
Local Abbreviation Grid := (Geo.in_grid W H).

(** The cells above the level are never marked: a mask has at most
    [W * H - 4] marks. *)
Lemma ones_bound (m : list Z) : MaskOk m -> ones m + 4 <= W * H.
Proof using HW HH Hnd H4 Hdry.
  intros [Hlen Hbits].
  set (D := (fun p : Z * Z => snd p * W + fst p) <$> dry).
  assert (HD : NoDup D).
  { apply NoDup_fmap_2_strong; [|done].
    intros [x y] [x' y'] Hp Hp' Heq. simpl in Heq.
    apply list_elem_of_In, Hdry in Hp as [[Hx Hy] _].
    apply list_elem_of_In, Hdry in Hp' as [[Hx' Hy'] _].
    apply cell_index_inj in Heq as [-> ->]; [done | lia | lia]. }
  assert (HF : NoDup (marked_cells m)).
  { apply NoDup_ListNoDup, List.NoDup_filter, NoDup_ListNoDup, NoDup_seqZ. }
  assert (Hdisj : forall i, i ∈ D -> i ∉ marked_cells m).
  { intros i Hi Hm. apply list_elem_of_fmap in Hi as ([x y] & -> & Hp).
    apply list_elem_of_In, Hdry in Hp as [Hg Hle]. simpl in Hm.
    apply list_elem_of_In, List.filter_In in Hm as [_ Hone].
    apply Z.eqb_eq in Hone.
    destruct (Hbits x y Hg) as [Hz|[_ [_ Hl]]]; [lia | congruence]. }
  assert (Hsub : forall i, i ∈ D ++ marked_cells m ->
            i ∈ seqZ 0 (Z.of_nat (length m))).
  { intros i Hi. apply elem_of_seqZ. apply elem_of_app in Hi as [Hi|Hi].
    - apply list_elem_of_fmap in Hi as ([x y] & -> & Hp).
      apply list_elem_of_In, Hdry in Hp as [[Hx Hy] _]. simpl.
      pose proof (cell_index_bound W H y x Hx Hy). lia.
    - apply list_elem_of_In, List.filter_In in Hi as [Hi _].
      apply list_elem_of_In, elem_of_seqZ in Hi. lia. }
  assert (Hnd' : NoDup (D ++ marked_cells m))
    by (by apply list.NoDup_app).
  pose proof (submseteq_length _ _ (NoDup_submseteq _ _ Hnd' Hsub)) as Hle.
  rewrite length_app, length_seqZ in Hle. unfold D in Hle.
  rewrite length_fmap in Hle. unfold ones. lia.
Qed.

Local Abbreviation Fits := (queue_fits le e0 h W H level).

Lemma fits_weaken (P P' : Z -> Z -> Prop) D D' r :
  Fits P D r -> D <= D' -> (forall x y, Grid x y -> P x y -> P' x y) ->
  Fits P' D' r.
Proof using Type.
  clear HW HH Hnd H4 Hdry.
  intros (s & -> & Hmask & Hqt & HP) HD HPP'. exists s.
  split_and!; [done | done | lia | lia |]. intros x y Hg Hm. by apply HPP', HP.
Qed.

(** Entering a cell that is not marked yet. *)
Lemma mark_push_new (P : Z -> Z -> Prop) D s x y :
  Fits P D (Geo.Ok s) -> D <= 4 -> Low x y ->
  rd 0 (Geo.mask s) (y * W + x) = 0 ->
  Fits (fun x' y' => P x' y' \/ (x' = x /\ y' = y)) D
    (Geo.mark_push (W * H) W x y s).
Proof using HW HH Hnd H4 Hdry.
  intros (s0 & [= <-] & Hmask & Hqt & HP) HD Hlow Hz.
  pose proof Hlow as [Hg _]. pose proof Hmask as [Hlen Hbits].
  assert (Hidx : 0 <= y * W + x < W * H).
  { destruct Hg. by apply cell_index_bound. }
  assert (Hmask' : MaskOk (wr (Geo.mask s) (y * W + x) 1)).
  { apply mask_ok_wr; [lia | lia | done | done]. }
  assert (Hones : ones (wr (Geo.mask s) (y * W + x) 1) = ones (Geo.mask s) + 1).
  { apply ones_wr_new; lia. }
  pose proof (ones_bound _ Hmask') as Hb.
  unfold Geo.mark_push. destruct (Z.leb_spec (W * H) (Geo.qt s)) as [Hfull|Hroom];
    [lia|].
  eexists. split; [done|]. cbn [Geo.mask Geo.qt].
  split_and!; [done | lia | lia |].
  intros x' y' Hg' Hm. destruct (decide ((x', y') = (x, y))) as [[= -> ->]|Hne].
  - by right.
  - left. apply HP; [done|]. unfold Geo.marked in *.
    rewrite rd_wr_ne in Hm; [done|]. intros Heq.
    destruct Hg, Hg'. apply cell_index_inj in Heq as [-> ->]; done.
Qed.

(** Entering a cell that may be marked already. *)
Lemma mark_push_again (P : Z -> Z -> Prop) D s x y :
  Fits P D (Geo.Ok s) -> D + 1 <= 4 -> Low x y ->
  Fits (fun x' y' => P x' y' \/ (x' = x /\ y' = y)) (D + 1)
    (Geo.mark_push (W * H) W x y s).
Proof using HW HH Hnd H4 Hdry.
  intros Hfit HD Hlow. pose proof Hlow as [Hg _].
  pose proof Hfit as (s0 & [= <-] & Hmask & Hqt & HP).
  pose proof Hmask as [Hlen Hbits].
  destruct (Hbits x y Hg) as [Hz|[Hm _]].
  - eapply fits_weaken; [apply (mark_push_new P D); [done | lia | done | done]
                        | lia | done].
  - assert (Hidx : 0 <= y * W + x < W * H).
    { destruct Hg. by apply cell_index_bound. }
    pose proof (ones_bound _ Hmask) as Hb.
    unfold Geo.mark_push. rewrite (wr_same (Geo.mask s)) by (done || lia).
    destruct (Z.leb_spec (W * H) (Geo.qt s)) as [Hfull|Hroom]; [lia|].
    eexists. split; [done|]. cbn [Geo.mask Geo.qt].
    split_and!; [done | lia | lia |].
    intros x' y' Hg' Hm'. left. by apply HP.
Qed.

Lemma seed_cell_new (P : Z -> Z -> Prop) D r x y :
  Fits P D r -> D <= 4 -> Grid x y -> ~ P x y ->
  Fits (fun x' y' => P x' y' \/ (x' = x /\ y' = y)) D
    (Geo.seed_cell le e0 h W level (W * H) x y r).
Proof using HW HH Hnd H4 Hdry.
  intros Hfit HD Hg HnP. pose proof Hfit as (s & -> & Hmask & Hqt & HP).
  simpl. destruct (le (rd e0 h (y * W + x)) level) eqn:Hle.
  - apply mark_push_new; [done | done | done |].
    destruct Hmask as [_ Hbits].
    destruct (Hbits x y Hg) as [Hz|[Hm _]]; [done|]. destruct HnP. by apply HP.
  - eapply fits_weaken; [exact Hfit | lia |]. intros x' y' _ HP'. by left.
Qed.

Lemma seed_cell_again (P : Z -> Z -> Prop) D r x y :
  Fits P D r -> D + 1 <= 4 -> Grid x y ->
  Fits (fun x' y' => P x' y' \/ (x' = x /\ y' = y)) (D + 1)
    (Geo.seed_cell le e0 h W level (W * H) x y r).
Proof using HW HH Hnd H4 Hdry.
  intros Hfit HD Hg. pose proof Hfit as (s & -> & Hmask & Hqt & HP).
  simpl. destruct (le (rd e0 h (y * W + x)) level) eqn:Hle.
  - apply mark_push_again; done.
  - eapply fits_weaken; [exact Hfit | lia |]. intros x' y' _ HP'. by left.
Qed.

(** The edge loops enter each border cell once, except for the four
    corners, which the loop over the rows meets again. *)
Lemma seed_edges_fits r :
  Fits (fun _ _ => False) 0 r ->
  Fits (fun _ _ => True) 4 (Geo.seed_edges le e0 h W H level (W * H) r).
Proof using HW HH Hnd H4 Hdry.
  intros Hfit. unfold Geo.seed_edges.
  set (rx := for_range 0 W 1 _ r).
  assert (Hx : Fits (fun x y => x < W /\ (y = 0 \/ y = H - 1)) 0 rx).
  { unfold rx.
    apply (for_range_ind
             (fun k r' => Fits (fun x y => x < k /\ (y = 0 \/ y = H - 1)) 0 r'));
      [lia | |].
    - eapply fits_weaken; [exact Hfit | lia | done].
    - intros i r' Hi Hr'.
      eapply fits_weaken; [apply seed_cell_new; [apply seed_cell_new| | |] | |].
      + exact Hr'.
      + cbn beta; lia.
      + split; lia.
      + cbn beta; lia.
      + cbn beta; lia.
      + split; lia.
      + cbn beta; lia.
      + cbn beta; lia.
      + intros x y _ HP. simpl in HP. lia. }
  clearbody rx.
  set (dup := fun k : Z => (if 0 <? k then 2 else 0)
                           + (if H - 1 <? k then 2 else 0)).
  assert (Hy : Fits (fun x y => (y = 0 \/ y = H - 1)
                        \/ ((x = 0 \/ x = W - 1) /\ y < H)) (dup H)
                 (for_range 0 H 1 (fun y r =>
                    Geo.seed_cell le e0 h W level (W * H) (W - 1) y
                      (Geo.seed_cell le e0 h W level (W * H) 0 y r)) rx)).
  { apply (for_range_ind
             (fun k r' => Fits (fun x y => (y = 0 \/ y = H - 1)
                                  \/ ((x = 0 \/ x = W - 1) /\ y < k))
                            (dup k) r'));
      [lia | |].
    - eapply fits_weaken; [exact Hx | |].
      + unfold dup. destruct (Z.ltb_spec 0 0), (Z.ltb_spec (H - 1) 0); lia.
      + intros x y _ [_ Hy]. by left.
    - intros i r' Hi Hr'.
      assert (Hdi : dup i = if 0 <? i then 2 else 0).
      { unfold dup. destruct (Z.ltb_spec 0 i), (Z.ltb_spec (H - 1) i); lia. }
      assert (Hdi' : dup (i + 1)
                     = dup i + if (i =? 0) || (i =? H - 1) then 2 else 0).
      { unfold dup. destruct (Z.ltb_spec 0 i), (Z.ltb_spec (H - 1) i),
          (Z.ltb_spec 0 (i + 1)), (Z.ltb_spec (H - 1) (i + 1)),
          (Z.eqb_spec i 0), (Z.eqb_spec i (H - 1)); simpl; lia. }
      destruct ((i =? 0) || (i =? H - 1)) eqn:Hedge.
      + eapply fits_weaken;
          [apply seed_cell_again; [apply seed_cell_again| |] | |].
        * exact Hr'.
        * rewrite Hdi. destruct (Z.ltb_spec 0 i); lia.
        * split; lia.
        * rewrite Hdi. destruct (Z.ltb_spec 0 i); [|lia].
          destruct (Z.eqb_spec i 0); [lia|]. lia.
        * split; lia.
        * cbn beta; lia.
        * intros x y _ HP. simpl in HP. lia.
      + apply orb_false_iff in Hedge as [H0 H1].
        apply Z.eqb_neq in H0, H1.
        eapply fits_weaken;
          [apply seed_cell_new; [apply seed_cell_new| | |] | |].
        * exact Hr'.
        * rewrite Hdi. destruct (Z.ltb_spec 0 i); lia.
        * split; lia.
        * cbn beta; lia.
        * rewrite Hdi. destruct (Z.ltb_spec 0 i); lia.
        * split; lia.
        * cbn beta; lia.
        * cbn beta; lia.
        * intros x y _ HP. simpl in HP. lia. }
  eapply fits_weaken; [exact Hy | | done].
  unfold dup. destruct (Z.ltb_spec 0 H), (Z.ltb_spec (H - 1) H); lia.
Qed.

Lemma seed_point_fits D r :
  Fits (fun _ _ => True) D r -> D <= 4 ->
  Fits (fun _ _ => True) D (Geo.seed_point le e0 h W H level (W * H) sx sy r).
Proof using HW HH Hnd H4 Hdry.
  intros Hfit HD. pose proof Hfit as (s & -> & Hmask & Hqt & HP). simpl.
  set (cx := Geo.clamp_idx sx W). set (cy := Geo.clamp_idx sy H).
  assert (Hg : Grid cx cy).
  { split; apply clamp_idx_range; lia. }
  destruct (le (rd e0 h (cy * W + cx)) level) eqn:Hle; simpl; [|done].
  destruct (Z.eqb_spec (rd 0 (Geo.mask s) (cy * W + cx)) 0) as [Hz|Hnz]; [|done].
  eapply fits_weaken;
    [by apply (mark_push_new (fun _ _ => True) D s cx cy) | lia | done].
Qed.

Lemma visit_neighbor_fits D r cx cy k :
  Fits (fun _ _ => True) D r -> D <= 4 ->
  Fits (fun _ _ => True) D
    (Geo.visit_neighbor le e0 h W H level (W * H) cx cy k r).
Proof using HW HH Hnd H4 Hdry.
  intros Hfit HD. pose proof Hfit as (s & -> & Hmask & Hqt & HP). simpl.
  set (nx := cx + rd 0 Geo.dx k). set (ny := cy + rd 0 Geo.dy k).
  destruct (Z.ltb_spec nx 0); simpl; [done|].
  destruct (Z.ltb_spec ny 0); simpl; [done|].
  destruct (Z.leb_spec W nx); simpl; [done|].
  destruct (Z.leb_spec H ny); simpl; [done|].
  destruct (Z.eqb_spec (rd 0 (Geo.mask s) (ny * W + nx)) 0) as [Hz|Hnz];
    simpl; [|done].
  destruct (le (rd e0 h (ny * W + nx)) level) eqn:Hle; [|done].
  eapply fits_weaken;
    [apply (mark_push_new (fun _ _ => True) D s nx ny) | lia | done];
    [done | done | | done].
  split; [split; lia | done].
Qed.

Lemma bfs_step_fits D s :
  Fits (fun _ _ => True) D (Geo.Ok s) -> D <= 4 ->
  Fits (fun _ _ => True) D (Geo.bfs_step le e0 h W H level (W * H) s).
Proof using HW HH Hnd H4 Hdry.
  intros (s0 & [= <-] & Hmask & Hqt & HP) HD. unfold Geo.bfs_step.
  apply (for_range_ind (fun _ r' => Fits (fun _ _ => True) D r')); [lia | |].
  - eexists. split; [done|]. done.
  - intros i r' _ Hr'. by apply visit_neighbor_fits.
Qed.

Lemma bfs_loop_fits fuel D r :
  Fits (fun _ _ => True) D r -> D <= 4 ->
  Fits (fun _ _ => True) D (Geo.bfs_loop le e0 fuel h W H level (W * H) r).
Proof using HW HH Hnd H4 Hdry.
  revert r. induction fuel as [|f IH]; intros r Hfit HD;
    pose proof Hfit as (s & -> & _); simpl; [done|].
  destruct (Geo.qh s <? Geo.qt s); [|done].
  apply IH; [|done]. by apply bfs_step_fits.
Qed.

End Flood_safe.

(** X2.  When the grid has two rows and two columns at least and four of its
    cells are above the level, and both queue arrays are granted,
    [flood_from_edges_or_seed] never writes past the end of its queue: it
    returns after its search, with the mask holding 1 exactly at the cells
    that a 4-connected path of cells [<= level] joins to a source. *)
Theorem flood_fits_its_queue {E} (le : E -> E -> bool) (e0 : E) (h : list E)
    (W H : Z) (level : E) (from_edge seed_set sx sy : Z)
    (mask : list Z) (hp : heap) (dry : list (Z * Z)) :
  2 <= W -> 2 <= H -> Z.of_nat (length mask) = W * H ->
  NoDup dry -> (4 <= length dry)%nat ->
  (forall x y, In (x, y) dry ->
     Geo.in_grid W H x y /\ le (rd e0 h (y * W + x)) level = false) ->
  refuse hp (allocs hp) = false -> refuse hp (S (allocs hp)) = false ->
  exists m,
    Geo.flood_from_edges_or_seed le e0 h W H level from_edge seed_set sx sy
      mask hp = (Geo.Flooded m, heap_next (heap_next hp))
    /\ forall x y, Geo.in_grid W H x y ->
         (rd 0 m (y * W + x) = 1
          <-> Geo.reached le e0 h W H level from_edge seed_set sx sy x y).
Proof.
  intros HW HH Hlen Hnd H4 Hdry Hr1 Hr2.
  pose proof (flood_outcome le e0 h W H level from_edge seed_set sx sy
                ltac:(lia) ltac:(lia) mask hp Hlen) as Hout.
  revert Hout. unfold Geo.flood_from_edges_or_seed.
  destruct (fill1d 0 (fun _ => 0) mask (W * H)) as (Hl0 & Hz0 & _); [nia|].
  set (m0 := for_range 0 (W * H) 1 (fun i m => wr m i 0) mask) in *.
  unfold malloc_int. cbn [allocs refuse heap_next junkZ]. rewrite Hr1, Hr2.
  set (s0 := {| Geo.mask := m0; Geo.queue_x := _; Geo.queue_y := _;
                Geo.qh := 0; Geo.qt := 0 |}).
  assert (H0 : queue_fits le e0 h W H level (fun _ _ => False) 0 (Geo.Ok s0)).
  { exists s0. split; [done|]. cbn [Geo.mask Geo.qt s0]. split_and!.
    - split; [lia|]. intros x y [Hx Hy]. left. apply Hz0.
      by apply cell_index_bound.
    - unfold ones. lia.
    - unfold ones. lia.
    - intros x y [Hx Hy] Hm. unfold Geo.marked in Hm.
      rewrite Hz0 in Hm by (by apply cell_index_bound). done. }
  set (r1 := if from_edge =? 0 then Geo.Ok s0 else _).
  assert (H1 : queue_fits le e0 h W H level (fun _ _ => True) 4 r1).
  { unfold r1. destruct (from_edge =? 0).
    - eapply fits_weaken; [exact H0 | lia | done].
    - by apply (seed_edges_fits le e0 h W H level HW HH dry). }
  set (r2 := if seed_set =? 0 then r1 else _).
  assert (H2 : queue_fits le e0 h W H level (fun _ _ => True) 4 r2).
  { unfold r2. destruct (seed_set =? 0); [done|].
    by apply (seed_point_fits le e0 h W H level sx sy HW HH dry). }
  pose proof (bfs_loop_fits le e0 h W H level HW HH dry Hnd H4 Hdry
                (S (Z.to_nat (W * H))) 4 r2 H2 ltac:(lia))
    as (s3 & Hs3 & _).
  rewrite Hs3. cbn [fst]. intros [_ Hiff]. eexists. split; [done|].
  intros x y Hg. rewrite <- flooded_reached. by apply Hiff.
Qed.

Lemma flood_fits_its_queue_witness :
  exists m,
    Geo.flood_from_edges_or_seed PrimFloat.leb 0%float basin_grid 4 4 d0_2
      1 0 0 0 (repeat 9 16) (heap_with 0)
    = (Geo.Flooded m, heap_next (heap_next (heap_with 0)))
    /\ forall x y, Geo.in_grid 4 4 x y ->
         (rd 0 m (y * 4 + x) = 1
          <-> Geo.reached PrimFloat.leb 0%float basin_grid 4 4 d0_2
                1 0 0 0 x y).
Proof.
  apply (flood_fits_its_queue PrimFloat.leb 0%float basin_grid 4 4 d0_2
           1 0 0 0 (repeat 9 16) (heap_with 0) [(0, 0); (1, 0); (2, 0); (3, 0)]);
    [lia | lia | reflexivity | | simpl; lia | | reflexivity | reflexivity].
  - apply (bool_decide_unpack _). vm_compute. reflexivity.
  - intros x y Hin. simpl in Hin.
    destruct Hin as [[= <- <-]|[[= <- <-]|[[= <- <-]|[[= <- <-]|[]]]]];
      (split; [split; lia | vm_compute; reflexivity]).
Defined.

(** ** geo.c: the flood and the water level *)

Section Flood_levels.
Context {E : Type} (le : E -> E -> bool) (e0 : E).
Context (h : list E) (W H : Z) (level level' : E).
Context (from_edge seed_set sx sy : Z).
Context (Hrise : forall v, le v level = true -> le v level' = true).

Lemma low_rises x y :
  Geo.low le e0 h W H level x y -> Geo.low le e0 h W H level' x y.
Proof using Hrise. intros [Hg Hl]. split; [done | by apply Hrise]. Qed.

Lemma flooded_rises x y :
  Geo.flooded le e0 h W H level from_edge seed_set sx sy x y ->
  Geo.flooded le e0 h W H level' from_edge seed_set sx sy x y.
Proof using Hrise.
  induction 1 as [x y [Hl Hsrc]|x y x' y' _ IH Hadj Hl].
  - apply Geo.flooded_source. split; [by apply low_rises | done].
  - eapply Geo.flooded_step; [exact IH | done | by apply low_rises].
Qed.

End Flood_levels.

(** X3.  The water only grows with the level, and it depends on nothing but
    the grid, the level and the sources: of two floods of one grid that
    return after their search, the second at a level that is not lower, the
    second marks every cell that the first marks, whatever the masks held
    before and whatever [malloc] left in the queues. *)
Theorem flood_grows_with_level {E} (le : E -> E -> bool) (e0 : E)
    (h : list E) (W H : Z) (level level' : E)
    (from_edge seed_set sx sy : Z) (mask mask' m m' : list Z)
    (hp hp' : heap) (i : Z) :
  0 < W -> 0 < H ->
  Z.of_nat (length mask) = W * H -> Z.of_nat (length mask') = W * H ->
  (forall v, le v level = true -> le v level' = true) ->
  fst (Geo.flood_from_edges_or_seed le e0 h W H level from_edge seed_set
         sx sy mask hp) = Geo.Flooded m ->
  fst (Geo.flood_from_edges_or_seed le e0 h W H level' from_edge seed_set
         sx sy mask' hp') = Geo.Flooded m' ->
  0 <= i < W * H -> rd 0 m i <= rd 0 m' i.
Proof.
  intros HW HH Hlen Hlen' Hrise Hres Hres' Hi.
  pose proof (flood_outcome le e0 h W H level from_edge seed_set sx sy
                HW HH mask hp Hlen) as Hout.
  pose proof (flood_outcome le e0 h W H level' from_edge seed_set sx sy
                HW HH mask' hp' Hlen') as Hout'.
  rewrite Hres in Hout. rewrite Hres' in Hout'.
  destruct Hout as [[_ Hbits] Hiff]. destruct Hout' as [[_ Hbits'] Hiff'].
  assert (Hcell : i = (i / W) * W + i mod W).
  { rewrite Z.mul_comm. apply Z.div_mod. lia. }
  assert (Hg : Geo.in_grid W H (i mod W) (i / W)).
  { split; [apply Z.mod_pos_bound; lia|].
    split; [apply Z.div_pos; lia | apply Z.div_lt_upper_bound; lia]. }
  rewrite Hcell.
  destruct (Hbits _ _ Hg) as [Hz|[Hm _]].
  - rewrite Hz. destruct (Hbits' _ _ Hg) as [Hz'|[Hm' _]].
    + by rewrite Hz'.
    + unfold Geo.marked in Hm'. rewrite Hm'. lia.
  - assert (Hm' : Geo.marked W m' (i mod W) (i / W)).
    { apply Hiff'; [done|].
      apply (flooded_rises le e0 h W H level level'); [done|].
      by apply Hiff. }
    unfold Geo.marked in Hm, Hm'. rewrite Hm, Hm'. lia.
Qed.

Lemma flood_grows_with_level_witness :
  rd 0 [1; 0; 0; 0; 0; 0; 0; 0; 0] 4 <= rd 0 [1; 0; 0; 1; 1; 0; 0; 0; 0] 4.
Proof.
  apply (flood_grows_with_level Qle_bool 0%Q
           [0.25; 0.75; 0.75; 0.5; 0.5; 0.75; 0.75; 0.75; 0.75]%Q 3 3
           0.25%Q 0.5%Q 1 0 0 0 (repeat 9 9) (repeat 7 9) _ _
           (heap_with 0) (heap_with 1) 4);
    [lia | lia | reflexivity | reflexivity | | vm_compute; reflexivity
    | vm_compute; reflexivity | lia].
  intros v Hv. apply Qle_bool_iff. apply Qle_bool_iff in Hv.
  apply (Qle_trans _ _ _ Hv). vm_compute. discriminate.
Defined.

(** ** geo.c: the values printed with water *)




(** ** plasma.c: the random offsets *)

(** X24.  With a [rand] that returns a number of 0..[RAND_MAX], [frand01] is
    between 0 and 1 and [frand_symmetric amp] between [-|amp|] and [|amp|].
    Both bounds are closed: when [rand] returns [RAND_MAX], [frand01] is 1
    and the offset is [amp] itself. *)
Theorem frand_range (L : libc) (amp : Q) (rs : rand_state L) :
  0 < RAND_MAX L -> 0 <= fst (rand L rs) <= RAND_MAX L ->
  (0 <= fst (Plasma.frand01 L rs) <= 1)%Q
  /\ (- Qabs amp <= fst (Plasma.frand_symmetric L amp rs) <= Qabs amp)%Q
  /\ (fst (rand L rs) = RAND_MAX L ->
      (fst (Plasma.frand01 L rs) == 1)%Q
      /\ (fst (Plasma.frand_symmetric L amp rs) == amp)%Q).
Proof.
  intros Hmax Hr. unfold Plasma.frand_symmetric, Plasma.frand01.
  destruct (rand L rs) as [r rs']. simpl in *.
  pose proof (inject_Z_pos (RAND_MAX L) Hmax) as Hpos.
  assert (H0 : (0 <= inject_Z r)%Q).
  { change 0%Q with (inject_Z 0). rewrite <- Zle_Qle. lia. }
  assert (H1 : (inject_Z r <= inject_Z (RAND_MAX L))%Q).
  { rewrite <- Zle_Qle. lia. }
  assert (Hu : (0 <= inject_Z r / inject_Z (RAND_MAX L) <= 1)%Q).
  { split.
    - apply Qle_shift_div_l; [done|]. lra.
    - apply Qle_shift_div_r; [done|]. lra. }
  split; [done|]. split.
  - set (u := (inject_Z r / inject_Z (RAND_MAX L))%Q) in *. clearbody u.
    destruct (Qlt_le_dec amp 0) as [Hneg|Hnn].
    + rewrite (Qabs_neg amp) by lra. split; nra.
    + rewrite (Qabs_pos amp) by lra. split; nra.
  - intros ->.
    assert (Hone : (inject_Z (RAND_MAX L) / inject_Z (RAND_MAX L) == 1)%Q).
    { field. lra. }
    split; [done|]. rewrite Hone. ring.
Qed.

Lemma frand_range_witness :
  let L := {| rand_state := unit; RAND_MAX := 32767; srand := fun _ => tt;
              rand := fun _ => (32767, tt); pow := fun v _ => v |} in
  (0 <= fst (Plasma.frand01 L tt) <= 1)%Q
  /\ (- Qabs 0.5 <= fst (Plasma.frand_symmetric L 0.5 tt) <= Qabs 0.5)%Q
  /\ (fst (Plasma.frand01 L tt) == 1)%Q
  /\ (fst (Plasma.frand_symmetric L 0.5 tt) == 0.5)%Q.
Proof.
  intros L.
  destruct (frand_range L 0.5 tt ltac:(simpl; lia) ltac:(simpl; lia))
    as (Hu & Hs & Hmax).
  split; [exact Hu|]. split; [exact Hs|]. apply Hmax. reflexivity.
Defined.

(** ** geo.c: the draws of the generator *)

(** X25.  Whatever the state of the generator and the width of
    [unsigned long], [rng_rand01] returns a number of [[0,1)], the number 1
    excluded, and [rng_randm1p1] one of [[-1,1)]: the 24 low bits of the
    state, over [2^24]. *)
Theorem rng_draw_range (w st : Z) :
  (0 <= fst (Geo.rng_rand01 w st) < 1)%Q
  /\ (-1 <= fst (Geo.rng_randm1p1 w st) < 1)%Q.
Proof.
  unfold Geo.rng_randm1p1, Geo.rng_rand01. cbv zeta. cbn [fst].
  change 0xFFFFFF with (Z.ones 24). rewrite Z.land_ones by lia.
  pose proof (Z.mod_pos_bound (Geo.rng_nextu w st) (2 ^ 24) ltac:(lia)) as Hb.
  set (k := Geo.rng_nextu w st mod 2 ^ 24) in *. clearbody k.
  change 0x1000000 with (2 ^ 24).
  assert (Hpos : (0 < inject_Z (2 ^ 24))%Q) by (apply inject_Z_pos; lia).
  assert (H0 : (0 <= inject_Z k)%Q).
  { change 0%Q with (inject_Z 0). rewrite <- Zle_Qle. lia. }
  assert (H1 : (inject_Z k < inject_Z (2 ^ 24))%Q).
  { rewrite <- Zlt_Qlt. lia. }
  assert (Hu : (0 <= inject_Z k / inject_Z (2 ^ 24) < 1)%Q).
  { split.
    - apply Qle_shift_div_l; [done|]. lra.
    - apply Qlt_shift_div_r; [done|]. lra. }
  split; [done|]. split; lra.
Qed.

(** ** Machine integers *)

Lemma wrap_small w z :
  1 <= w -> - 2 ^ (w - 1) <= z < 2 ^ (w - 1) -> wrap w z = z.
Proof.
  intros Hw Hz. unfold wrap.
  assert (H2 : 2 ^ w = 2 * 2 ^ (w - 1)).
  { replace w with (Z.succ (w - 1)) at 1 by lia. apply Z.pow_succ_r. lia. }
  rewrite Z.mod_small; lia.
Qed.

Lemma int32_small z : - 2 ^ 31 <= z < 2 ^ 31 -> int32 z = z.
Proof. intros Hz. apply wrap_small; [lia | exact Hz]. Qed.

Lemma long_small lw z :
  32 <= lw -> - 2 ^ (lw - 1) <= z < 2 ^ (lw - 1) -> Iso32.long lw z = z.
Proof. intros Hw Hz. apply wrap_small; [lia | exact Hz]. Qed.

Lemma pow2_mono_31 lw : 32 <= lw -> 2 ^ 31 <= 2 ^ (lw - 1).
Proof. intros Hw. apply Z.pow_le_mono_r; lia. Qed.

Lemma abs_mul_le a b M :
  Z.abs a <= M -> Z.abs b <= M -> Z.abs (a * b) <= M * M.
Proof.
  intros Ha Hb. rewrite Z.abs_mul.
  apply Z.mul_le_mono_nonneg; lia.
Qed.

(** ** The fill routines within range *)

Section Iso_refinement.
Context (lw B : Z) (Hrange : in_range lw B).

Lemma edge_fn_exact p a A q c B' :
  - B <= p <= B -> - B <= a <= B -> - B <= q <= B -> - B <= c <= B ->
  Z.abs A <= 2 * B -> Z.abs B' <= 2 * B ->
  Iso32.edge_fn lw p a A q c B' = (p - a) * A + (q - c) * B'.
Proof using Hrange.
  destruct Hrange as (HB0 & HB31 & Hlw & HB63). unfold INT_MAX in HB31.
  intros Hp Ha Hq Hc HA HB'. unfold Iso32.edge_fn.
  pose proof (pow2_mono_31 lw Hlw) as H31.
  rewrite (int32_small (p - a)) by lia.
  rewrite (int32_small (q - c)) by lia.
  rewrite (long_small lw (p - a)) by lia.
  rewrite (long_small lw (q - c)) by lia.
  assert (H1 : Z.abs ((p - a) * A) <= 2 * B * (2 * B))
    by (apply abs_mul_le; lia).
  assert (H2 : Z.abs ((q - c) * B') <= 2 * B * (2 * B))
    by (apply abs_mul_le; lia).
  rewrite (long_small lw ((p - a) * A)) by lia.
  rewrite (long_small lw ((q - c) * B')) by lia.
  apply long_small; lia.
Qed.

Lemma diff_exact a b :
  - B <= a <= B -> - B <= b <= B ->
  Iso32.long lw (int32 (a - b)) = a - b.
Proof using Hrange.
  destruct Hrange as (HB0 & HB31 & Hlw & HB63). unfold INT_MAX in HB31.
  intros Ha Hb. pose proof (pow2_mono_31 lw Hlw).
  rewrite int32_small by lia. apply long_small; lia.
Qed.

(** Within range the test of the machine is the test on the integers. *)
Lemma same_sign_b_exact x0 y0 x1 y1 x2 y2 x y :
  coords_within B [x0; y0; x1; y1; x2; y2; x; y] ->
  Iso32.same_sign_b lw x0 y0 x1 y1 x2 y2 x y
  = Iso.same_sign_b x0 y0 x1 y1 x2 y2 x y.
Proof using Hrange.
  intros Hc. unfold coords_within in Hc.
  rewrite !list.Forall_cons in Hc.
  destruct Hc as (Hx0 & Hy0 & Hx1 & Hy1 & Hx2 & Hy2 & Hx & Hy & _).
  unfold Iso32.same_sign_b, Iso.same_sign_b. cbv zeta.
  rewrite !diff_exact by done.
  rewrite !edge_fn_exact by (done || lia). done.
Qed.

End Iso_refinement.

Lemma store_inside fb i v :
  0 <= i < Z.of_nat (length fb) -> Iso32.store fb i v = Some (wr fb i v).
Proof.
  intros Hi. unfold Iso32.store.
  destruct (Z.leb_spec 0 i); [|lia].
  destruct (Z.ltb_spec i (Z.of_nat (length fb))); [done | lia].
Qed.

(** In a framebuffer whose size fits an [int], [put_px] stores where the
    integers say. *)
Lemma put_px_exact fb W H x y r g b :
  0 <= W -> 0 <= H -> W * H * 3 <= INT_MAX ->
  Z.of_nat (length fb) = W * H * 3 ->
  Iso32.put_px fb W H x y r g b = Some (Iso.put_px fb W H x y r g b).
Proof.
  intros HW HH Hfit Hlen. unfold Iso32.put_px, Iso.put_px, INT_MAX in *.
  destruct (Z.ltb_spec x 0); [done|]. destruct (Z.ltb_spec y 0); [done|].
  destruct (Z.leb_spec W x); [done|]. destruct (Z.leb_spec H y); [done|].
  simpl. cbv zeta.
  pose proof (cell_index_bound W H y x ltac:(lia) ltac:(lia)) as Hb.
  assert (Hyw : 0 <= y * W <= y * W + x) by nia.
  unfold Iso32.px_offset.
  rewrite (int32_small (y * W)) by lia.
  rewrite (int32_small (y * W + x)) by lia.
  rewrite (int32_small ((y * W + x) * 3)) by lia.
  rewrite !int32_small by lia.
  rewrite store_inside by lia.
  rewrite store_inside by (rewrite length_wr; lia).
  rewrite store_inside by (rewrite !length_wr; lia).
  done.
Qed.

Lemma for_range_Some_inv {St} (Inv : St -> Prop)
    (b : Z -> option St -> option St) (g : Z -> St -> St) lo hi step s :
  1 <= step -> Inv s ->
  (forall i s', lo <= i < hi -> Inv s' ->
     b i (Some s') = Some (g i s') /\ Inv (g i s')) ->
  for_range lo hi step b (Some s) = Some (for_range lo hi step g s)
  /\ Inv (for_range lo hi step g s).
Proof.
  intros Hstep Hs Hsome. rewrite !for_range_fold.
  pose proof (fun i => proj1 (idx_range_spec lo hi step i Hstep)) as Hin.
  revert Hin s Hs. generalize (idx_range lo hi step). intros l Hin.
  induction l as [|a l IH]; intros s Hs; simpl; [done|].
  destruct (Hsome a s) as [Hb Hi]; [apply Hin; by left | done |].
  rewrite Hb. apply IH; [|done].
  intros i Hi'. apply Hin. by right.
Qed.

(** Within range, and in a framebuffer whose size fits an [int],
    [fill_tri] on the machine is [fill_tri] on the integers. *)
Lemma fill_tri_exact lw B fb W H x0 y0 x1 y1 x2 y2 r g b :
  in_range lw B -> coords_within B [x0; y0; x1; y1; x2; y2] ->
  0 <= W <= INT_MAX -> 0 <= H <= INT_MAX -> W * H * 3 <= INT_MAX ->
  Z.of_nat (length fb) = W * H * 3 ->
  Iso32.fill_tri lw fb W H x0 y0 x1 y1 x2 y2 r g b
  = Some (Iso.fill_tri fb W H x0 y0 x1 y1 x2 y2 r g b).
Proof.
  intros Hrange Hc HW HH Hfit Hlen.
  pose proof Hc as Hc'. unfold coords_within in Hc'.
  rewrite !list.Forall_cons in Hc'.
  destruct Hc' as (Hx0 & Hy0 & Hx1 & Hy1 & Hx2 & Hy2 & _).
  unfold Iso32.fill_tri, Iso.fill_tri.
  pose proof (clip_lo x0 x1 x2) as Hminx. pose proof (clip_lo y0 y1 y2) as Hminy.
  pose proof (clip_hi x0 x1 x2 W) as Hmaxx.
  pose proof (clip_hi y0 y1 y2 H) as Hmaxy.
  rewrite (int32_small (W - 1)) by (unfold INT_MAX in *; lia).
  rewrite (int32_small (H - 1)) by (unfold INT_MAX in *; lia).
  cbv zeta in *. rewrite Hminx, Hminy, Hmaxx, Hmaxy.
  clear Hminx Hminy Hmaxx Hmaxy.
  set (lx := Z.max 0 (Z.min x0 (Z.min x1 x2))).
  set (ly := Z.max 0 (Z.min y0 (Z.min y1 y2))).
  set (hx := Z.min (W - 1) (Z.max x0 (Z.max x1 x2))).
  set (hy := Z.min (H - 1) (Z.max y0 (Z.max y1 y2))).
  assert (HB0 : 0 <= B) by apply Hrange.
  apply (for_range_Some_inv (fun f => Z.of_nat (length f) = W * H * 3));
    [lia | done |].
  intros y f Hy Hf.
  apply (for_range_Some_inv (fun f => Z.of_nat (length f) = W * H * 3));
    [lia | done |].
  intros x f' Hx Hf'.
  rewrite (same_sign_b_exact lw B Hrange).
  2:{ unfold coords_within. rewrite !list.Forall_cons.
      repeat split; try done; try lia. }
  change (Iso.same_sign_b x0 y0 x1 y1 x2 y2 x y)
    with (((0 <=? (x - x1) * (y1 - y2) + (y - y1) * (x2 - x1))
   && (0 <=? (x - x2) * (y2 - y0) + (y - y2) * (x0 - x2))
   && (0 <=? (x - x0) * (y0 - y1) + (y - y0) * (x1 - x0)))
  || (((x - x1) * (y1 - y2) + (y - y1) * (x2 - x1) <=? 0)
      && ((x - x2) * (y2 - y0) + (y - y2) * (x0 - x2) <=? 0)
      && ((x - x0) * (y0 - y1) + (y - y0) * (x1 - x0) <=? 0))).
  destruct (_ || _).
  - rewrite put_px_exact by (done || lia). split; [done|].
    by rewrite length_put_px.
  - done.
Qed.

Lemma in_range_64 : in_range 64 (2 ^ 30 - 1).
Proof.
  unfold in_range, INT_MAX. split_and!; [lia | lia | lia | reflexivity].
Qed.

Section Fill_in_range.
Import Iso.

(** Each vertex of a triangle is one of its pixels when it lies in the
    framebuffer. *)
Lemma tri_pixel_vertices W H x0 y0 x1 y1 x2 y2 :
  (0 <= x0 < W -> 0 <= y0 < H -> tri_pixel W H x0 y0 x1 y1 x2 y2 x0 y0)
  /\ (0 <= x1 < W -> 0 <= y1 < H -> tri_pixel W H x0 y0 x1 y1 x2 y2 x1 y1)
  /\ (0 <= x2 < W -> 0 <= y2 < H -> tri_pixel W H x0 y0 x1 y1 x2 y2 x2 y2).
Proof.
  split_and!; intros Hx Hy;
    unfold tri_pixel, in_clipped_box, same_sign, edge; cbv zeta.
  - split; [lia|].
    replace ((x0 - x2) * (y2 - y0) + (y0 - y2) * (x0 - x2)) with 0 by ring.
    replace ((x0 - x0) * (y0 - y1) + (y0 - y0) * (x1 - x0)) with 0 by ring.
    lia.
  - split; [lia|].
    replace ((x1 - x1) * (y1 - y2) + (y1 - y1) * (x2 - x1)) with 0 by ring.
    replace ((x1 - x0) * (y0 - y1) + (y1 - y0) * (x1 - x0)) with 0 by ring.
    lia.
  - split; [lia|].
    replace ((x2 - x1) * (y1 - y2) + (y2 - y1) * (x2 - x1)) with 0 by ring.
    replace ((x2 - x2) * (y2 - y0) + (y2 - y2) * (x0 - x2)) with 0 by ring.
    lia.
Qed.

(** The pixels of a triangle are pixels of the framebuffer. *)
Lemma tri_pixel_inside W H x0 y0 x1 y1 x2 y2 x y :
  tri_pixel W H x0 y0 x1 y1 x2 y2 x y -> 0 <= x < W /\ 0 <= y < H.
Proof. unfold tri_pixel, in_clipped_box. lia. Qed.

(** X26.  [fill_tri] on machine integers, within range: a framebuffer of
    [W * H * 3 <= INT_MAX] bytes, and the coordinates of the vertices in
    [[-B, B]], where [2 * B] fits an [int] and [8 * B * B] a [long]
    ([in_range]).  The routine returns, every store falls inside the
    framebuffer, and the pixels that receive the colour are those of the
    clipped bounding box at which the three edge functions have the same
    sign (zeros allowed); every other pixel keeps its bytes. *)
Theorem fill_tri_in_range (lw B : Z) (fb : list Z)
    (W H x0 y0 x1 y1 x2 y2 r g b : Z) :
  in_range lw B -> coords_within B [x0; y0; x1; y1; x2; y2] ->
  0 <= W <= INT_MAX -> 0 <= H <= INT_MAX -> W * H * 3 <= INT_MAX ->
  Z.of_nat (length fb) = W * H * 3 ->
  exists fb', Iso32.fill_tri lw fb W H x0 y0 x1 y1 x2 y2 r g b = Some fb'
    /\ length fb' = length fb
    /\ (forall x y, tri_pixel W H x0 y0 x1 y1 x2 y2 x y ->
          0 <= x < W /\ 0 <= y < H)
    /\ forall x y c, 0 <= x < W -> 0 <= y < H -> 0 <= c < 3 ->
         (tri_pixel W H x0 y0 x1 y1 x2 y2 x y ->
          px_byte fb' W x y c = colour_byte r g b c)
         /\ (~ tri_pixel W H x0 y0 x1 y1 x2 y2 x y ->
             px_byte fb' W x y c = px_byte fb W x y c).
Proof.
  intros Hr Hc HW HH Hfit Hlen.
  exists (fill_tri fb W H x0 y0 x1 y1 x2 y2 r g b).
  split; [by apply (fill_tri_exact lw B)|].
  destruct (fill_tri_paint fb W H x0 y0 x1 y1 x2 y2 r g b) as [Hl Hp];
    [lia | lia | done|].
  split; [done|]. split; [|done].
  intros x y. apply tri_pixel_inside.
Qed.

Lemma fill_tri_in_range_witness :
  exists fb',
    Iso32.fill_tri 64 (repeat 7 48) 4 4 0 0 3 0 0 3 300 20 (-5) = Some fb'
    /\ length fb' = 48%nat
    /\ (forall x y, tri_pixel 4 4 0 0 3 0 0 3 x y -> 0 <= x < 4 /\ 0 <= y < 4)
    /\ forall x y c, 0 <= x < 4 -> 0 <= y < 4 -> 0 <= c < 3 ->
         (tri_pixel 4 4 0 0 3 0 0 3 x y ->
          px_byte fb' 4 x y c = colour_byte 300 20 (-5) c)
         /\ (~ tri_pixel 4 4 0 0 3 0 0 3 x y ->
             px_byte fb' 4 x y c = px_byte (repeat 7 48) 4 x y c).
Proof.
  apply (fill_tri_in_range 64 (2 ^ 30 - 1) (repeat 7 48) 4 4 0 0 3 0 0 3
           300 20 (-5)).
  - exact in_range_64.
  - unfold coords_within. repeat (apply list.Forall_cons; split; [lia|]).
    apply Forall_nil_2.
  - unfold INT_MAX. lia.
  - unfold INT_MAX. lia.
  - unfold INT_MAX. lia.
  - reflexivity.
Defined.

(** X14.  [fill_quad] on machine integers, for a framebuffer of
    [W * H * 3 <= INT_MAX] bytes and vertices with coordinates in
    [[-B, B]], where [2 * B] fits an [int] and [8 * B * B] a [long]: it
    gives the colour to the pixels of its two triangles [(0, 1, 2)] and
    [(0, 2, 3)], and to no other pixel: the framebuffer keeps its size and
    every other pixel keeps its bytes. *)
Theorem fill_quad_pixels (lw B : Z) (fb : list Z)
    (W H x0 y0 x1 y1 x2 y2 x3 y3 r g b : Z) :
  in_range lw B -> coords_within B [x0; y0; x1; y1; x2; y2; x3; y3] ->
  0 <= W <= INT_MAX -> 0 <= H <= INT_MAX -> W * H * 3 <= INT_MAX ->
  Z.of_nat (length fb) = W * H * 3 ->
  exists fb',
    Iso32.fill_quad lw fb W H x0 y0 x1 y1 x2 y2 x3 y3 r g b = Some fb'
    /\ length fb' = length fb
    /\ forall x y c, 0 <= x < W -> 0 <= y < H -> 0 <= c < 3 ->
         (tri_pixel W H x0 y0 x1 y1 x2 y2 x y
          \/ tri_pixel W H x0 y0 x2 y2 x3 y3 x y ->
          px_byte fb' W x y c = colour_byte r g b c)
         /\ (~ (tri_pixel W H x0 y0 x1 y1 x2 y2 x y
                \/ tri_pixel W H x0 y0 x2 y2 x3 y3 x y) ->
             px_byte fb' W x y c = px_byte fb W x y c).
Proof.
  intros Hr Hc HW HH Hfit Hlen.
  unfold coords_within in Hc. rewrite !list.Forall_cons in Hc.
  destruct Hc as (Hx0 & Hy0 & Hx1 & Hy1 & Hx2 & Hy2 & Hx3 & Hy3 & _).
  destruct (fill_tri_paint fb W H x0 y0 x1 y1 x2 y2 r g b)
    as [Hl1 Hp1]; [lia | lia | done|].
  set (fb1 := fill_tri fb W H x0 y0 x1 y1 x2 y2 r g b) in *.
  destruct (fill_tri_paint fb1 W H x0 y0 x2 y2 x3 y3 r g b)
    as [Hl2 Hp2]; [lia | lia | by rewrite Hl1|].
  exists (fill_tri fb1 W H x0 y0 x2 y2 x3 y3 r g b). split.
  { unfold Iso32.fill_quad.
    rewrite (fill_tri_exact lw B fb) by
      (try done; unfold coords_within; rewrite !list.Forall_cons; done).
    fold fb1.
    apply (fill_tri_exact lw B fb1);
      try done; [|by rewrite Hl1].
    unfold coords_within; rewrite !list.Forall_cons; done. }
  split; [by rewrite Hl2|].
  intros x y c Hx Hy Hc.
  destruct (Hp1 x y c Hx Hy Hc) as [Hin1 Hout1].
  destruct (Hp2 x y c Hx Hy Hc) as [Hin2 Hout2].
  destruct (tri_pixel_dec W H x0 y0 x2 y2 x3 y3 x y) as [Ht2|Ht2].
  - split; [intros _; by apply Hin2 | intros Hn; exfalso; apply Hn; by right].
  - rewrite (Hout2 Ht2). split.
    + intros [Ht1|?]; [by apply Hin1 | done].
    + intros Hn. apply Hout1. intros Ht1. apply Hn. by left.
Qed.

Lemma fill_quad_pixels_witness :
  exists fb',
    Iso32.fill_quad 64 (repeat 7 48) 4 4 0 0 3 0 3 3 0 3 300 20 (-5)
    = Some fb'
    /\ length fb' = 48%nat
    /\ forall x y c, 0 <= x < 4 -> 0 <= y < 4 -> 0 <= c < 3 ->
         (tri_pixel 4 4 0 0 3 0 3 3 x y \/ tri_pixel 4 4 0 0 3 3 0 3 x y ->
          px_byte fb' 4 x y c = colour_byte 300 20 (-5) c)
         /\ (~ (tri_pixel 4 4 0 0 3 0 3 3 x y
                \/ tri_pixel 4 4 0 0 3 3 0 3 x y) ->
             px_byte fb' 4 x y c = px_byte (repeat 7 48) 4 x y c).
Proof.
  apply (fill_quad_pixels 64 (2 ^ 30 - 1) (repeat 7 48) 4 4 0 0 3 0 3 3 0 3
           300 20 (-5)).
  - exact in_range_64.
  - unfold coords_within. repeat (apply list.Forall_cons; split; [lia|]).
    apply Forall_nil_2.
  - unfold INT_MAX. lia.
  - unfold INT_MAX. lia.
  - unfold INT_MAX. lia.
  - reflexivity.
Defined.

(** X15.  [fill_tri] on machine integers, for a framebuffer of
    [W * H * 3 <= INT_MAX] bytes and vertices with coordinates in
    [[-B, B]], where [2 * B] fits an [int] and [8 * B * B] a [long]: it
    returns, and its result does not depend on the order in which the
    three vertices are given, clockwise or counter-clockwise, nor on the
    one it starts from. *)
Theorem fill_tri_vertex_order (lw B : Z) (fb : list Z)
    (W H x0 y0 x1 y1 x2 y2 r g b : Z) :
  in_range lw B -> coords_within B [x0; y0; x1; y1; x2; y2] ->
  0 <= W <= INT_MAX -> 0 <= H <= INT_MAX -> W * H * 3 <= INT_MAX ->
  Z.of_nat (length fb) = W * H * 3 ->
  Iso32.fill_tri lw fb W H x0 y0 x1 y1 x2 y2 r g b <> None
  /\ Iso32.fill_tri lw fb W H x0 y0 x2 y2 x1 y1 r g b
     = Iso32.fill_tri lw fb W H x0 y0 x1 y1 x2 y2 r g b
  /\ Iso32.fill_tri lw fb W H x1 y1 x2 y2 x0 y0 r g b
     = Iso32.fill_tri lw fb W H x0 y0 x1 y1 x2 y2 r g b.
Proof.
  intros Hr Hc HW HH Hfit Hlen.
  pose proof Hc as Hc'. unfold coords_within in Hc'.
  rewrite !list.Forall_cons in Hc'.
  destruct Hc' as (Hx0 & Hy0 & Hx1 & Hy1 & Hx2 & Hy2 & _).
  rewrite (fill_tri_exact lw B fb W H x0 y0 x1 y1 x2 y2) by done.
  rewrite (fill_tri_exact lw B fb W H x0 y0 x2 y2 x1 y1) by
    (try done; unfold coords_within; rewrite !list.Forall_cons; done).
  rewrite (fill_tri_exact lw B fb W H x1 y1 x2 y2 x0 y0) by
    (try done; unfold coords_within; rewrite !list.Forall_cons; done).
  split; [done|]. split; f_equal.
  - apply fill_tri_same_pixels; [lia | lia | done |].
    intros x y. apply tri_pixel_swap.
  - apply fill_tri_same_pixels; [lia | lia | done |].
    intros x y. apply tri_pixel_rotate.
Qed.

Lemma fill_tri_vertex_order_witness :
  Iso32.fill_tri 64 (repeat 7 48) 4 4 0 0 3 0 0 3 300 20 (-5) <> None
  /\ Iso32.fill_tri 64 (repeat 7 48) 4 4 0 0 0 3 3 0 300 20 (-5)
     = Iso32.fill_tri 64 (repeat 7 48) 4 4 0 0 3 0 0 3 300 20 (-5)
  /\ Iso32.fill_tri 64 (repeat 7 48) 4 4 3 0 0 3 0 0 300 20 (-5)
     = Iso32.fill_tri 64 (repeat 7 48) 4 4 0 0 3 0 0 3 300 20 (-5).
Proof.
  apply (fill_tri_vertex_order 64 (2 ^ 30 - 1) (repeat 7 48) 4 4 0 0 3 0 0 3
           300 20 (-5)).
  - exact in_range_64.
  - unfold coords_within. repeat (apply list.Forall_cons; split; [lia|]).
    apply Forall_nil_2.
  - unfold INT_MAX. lia.
  - unfold INT_MAX. lia.
  - unfold INT_MAX. lia.
  - reflexivity.
Defined.

(** X16.  [fill_tri] on machine integers, for a framebuffer of
    [W * H * 3 <= INT_MAX] bytes and vertices with coordinates in
    [[-B, B]], where [2 * B] fits an [int] and [8 * B * B] a [long]: a
    vertex of the triangle that lies in the framebuffer is always painted,
    also when the triangle is flat (its three vertices on a line, or
    equal). *)
Theorem fill_tri_paints_vertices (lw B : Z) (fb : list Z)
    (W H x0 y0 x1 y1 x2 y2 r g b c : Z) :
  in_range lw B -> coords_within B [x0; y0; x1; y1; x2; y2] ->
  0 <= W <= INT_MAX -> 0 <= H <= INT_MAX -> W * H * 3 <= INT_MAX ->
  Z.of_nat (length fb) = W * H * 3 -> 0 <= c < 3 ->
  exists fb', Iso32.fill_tri lw fb W H x0 y0 x1 y1 x2 y2 r g b = Some fb'
    /\ (0 <= x0 < W -> 0 <= y0 < H ->
        px_byte fb' W x0 y0 c = colour_byte r g b c)
    /\ (0 <= x1 < W -> 0 <= y1 < H ->
        px_byte fb' W x1 y1 c = colour_byte r g b c)
    /\ (0 <= x2 < W -> 0 <= y2 < H ->
        px_byte fb' W x2 y2 c = colour_byte r g b c).
Proof.
  intros Hr Hcw HW HH Hfit Hlen Hc.
  exists (fill_tri fb W H x0 y0 x1 y1 x2 y2 r g b).
  split; [by apply (fill_tri_exact lw B)|].
  destruct (fill_tri_paint fb W H x0 y0 x1 y1 x2 y2 r g b) as [_ Hp];
    [lia | lia | done |].
  destruct (tri_pixel_vertices W H x0 y0 x1 y1 x2 y2) as (Hv0 & Hv1 & Hv2).
  split_and!; intros Hx Hy.
  - apply (Hp x0 y0 c Hx Hy Hc). by apply Hv0.
  - apply (Hp x1 y1 c Hx Hy Hc). by apply Hv1.
  - apply (Hp x2 y2 c Hx Hy Hc). by apply Hv2.
Qed.

Lemma fill_tri_paints_vertices_witness :
  exists fb',
    Iso32.fill_tri 64 (repeat 7 48) 4 4 0 0 3 0 0 3 300 20 (-5) = Some fb'
    /\ px_byte fb' 4 0 0 0 = colour_byte 300 20 (-5) 0
    /\ px_byte fb' 4 3 0 0 = colour_byte 300 20 (-5) 0
    /\ px_byte fb' 4 0 3 0 = colour_byte 300 20 (-5) 0.
Proof.
  destruct (fill_tri_paints_vertices 64 (2 ^ 30 - 1) (repeat 7 48) 4 4
              0 0 3 0 0 3 300 20 (-5) 0) as (fb' & Hfb & Hv0 & Hv1 & Hv2).
  - exact in_range_64.
  - unfold coords_within. repeat (apply list.Forall_cons; split; [lia|]).
    apply Forall_nil_2.
  - unfold INT_MAX. lia.
  - unfold INT_MAX. lia.
  - unfold INT_MAX. lia.
  - reflexivity.
  - lia.
  - exists fb'. split; [exact Hfb|].
    split; [apply Hv0; lia|]. split; [apply Hv1; lia | apply Hv2; lia].
Defined.

End Fill_in_range.

(** ** The fill routines beyond range *)

(** C9.  [fill_tri] does not paint the pixels of its triangle for every
    triangle and framebuffer.  In the run [iso -x 3000 -y 3000] the
    framebuffer has 48048 x 24104 pixels, more bytes than an [int] counts;
    the top of the column of the cell [(2490, 2490)], of height 0, is the
    triangle [(24016, 19996), (24008, 20000), (24024, 20000)], whose first
    vertex is one of its pixels and lies in the framebuffer; [put_px]
    computes its offset in [int], where it wraps to a negative number, and
    the store falls outside the framebuffer, whatever the framebuffer
    holds.  And with vertices far apart the differences of coordinates
    wrap in [int] before they are widened to [long]: on a 4 x 4
    framebuffer the triangle [(0, 0), (-2000000000, 1), (2000000000, 3)]
    does not contain the pixel [(1, 3)], which is painted. *)
Theorem fill_tri_beyond_range :
  let c := iso_3000 in
  let t := Iso_main.column_tile c 0 2490 2490 in
  let W := Iso_main.FB_W c in
  let H := Iso_main.FB_H c in
  (W = 48048 /\ H = 24104 /\ INT_MAX < W * H * 3)
  /\ (Iso_main.top_x t, Iso_main.top_y t) = (24016, 19996)
  /\ Iso.tri_pixel W H (Iso_main.top_x t) (Iso_main.top_y t)
       (Iso_main.left_x t) (Iso_main.left_y t)
       (Iso_main.right_x t) (Iso_main.right_y t) 24016 19996
  /\ Iso32.px_offset W 24016 19996 = -1412591824
  /\ (forall fb g,
        Iso32.fill_tri 64 fb W H (Iso_main.top_x t) (Iso_main.top_y t)
          (Iso_main.left_x t) (Iso_main.left_y t)
          (Iso_main.right_x t) (Iso_main.right_y t) g g g = None)
  /\ (exists fb',
        Iso32.fill_tri 64 (repeat 7 48) 4 4
          0 0 (-2000000000) 1 2000000000 3 9 9 9 = Some fb'
        /\ Iso.px_byte fb' 4 1 3 0 = 9
        /\ ~ Iso.tri_pixel 4 4 0 0 (-2000000000) 1 2000000000 3 1 3).
Proof.
  cbv zeta. split_and!.
  - reflexivity.
  - reflexivity.
  - reflexivity.
  - reflexivity.
  - vm_compute. split; [repeat split; discriminate|].
    right. repeat split; discriminate.
  - reflexivity.
  - intros fb g. vm_compute. reflexivity.
  - eexists. split; [vm_compute; reflexivity|]. split; [reflexivity|].
    unfold Iso.tri_pixel, Iso.same_sign, Iso.edge. cbv zeta. lia.
Qed.

(** ** Binary64: rounding of exact results *)

Section Binary64.

Local Abbreviation fexp64 := (fexp prec emax).


(** *** Number of digits *)




(** *** Shifts that drop zeros only *)



(** *** Rounding a number that needs none *)



(** *** Integers *)








(** *** Conversions, products and quotients of integers *)










(** *** Operations that change nothing *)

(** The difference of a number and itself is [+0]. *)
Lemma sub_self (x : float) : finite x = true -> (x - x)%float = 0%float.
Proof.
  intros Hx. apply Prim2SF_inj. rewrite sub_spec. unfold finite in Hx.
  destruct (Prim2SF x) as [s|s| |s m e]; [| done | done |].
  - by destruct s.
  - unfold SF64sub, SFsub. rewrite ?Z.min_id. unfold shl_align.
    rewrite (Z.sub_diag e). cbn [fst]. by rewrite Z.sub_diag.
Qed.

Lemma Prim2SF_one : Prim2SF 1 = S754_finite false 4503599627370496 (-52).
Proof. reflexivity. Qed.







End Binary64.

(** ** Bilinear resampling in binary64 *)



Section Same_size.
Context (src : list float) (P : Z).
Context (HP : 2 <= P) (Hfit : P * P <= INT_MAX).
Context (Hfin : forall i, 0 <= i < P * P -> finite (rd 0%float src i) = true).







End Same_size.





(** ** geo.c: elevations that are not numbers *)

Lemma halving_fuel_ext {St} (Q : Z -> Prop) (b b' : Z -> St -> St) :
  (forall k, Q k -> 1 < k -> Q (Z.quot k 2)) ->
  (forall k s, Q k -> 1 < k -> b k s = b' k s) ->
  forall fuel k s, Q k -> halving_fuel fuel k b s = halving_fuel fuel k b' s.
Proof.
  intros Hq Hb. induction fuel as [|f IH]; intros k s Hk; simpl; [done|].
  destruct (Z.ltb_spec 1 k); [|done].
  rewrite Hb by done. apply IH. by apply Hq.
Qed.

(** The library is asked for the scale of each round and for nothing
    else. *)
Lemma ds_level_scale w (m m' : Libm.t) A R P step o :
  GeoF.ds_scale m A R P step = GeoF.ds_scale m' A R P step ->
  GeoF.ds_level w m A R P step o = GeoF.ds_level w m' A R P step o.
Proof. intros Hs. unfold GeoF.ds_level. destruct o; [|done]. by rewrite Hs. Qed.

Lemma sample_libm_at_1e200 : libm_at_1e200 sample_libm.
Proof. repeat split; vm_compute; reflexivity. Qed.

Lemma ds_scale_at_1e200 (m : Libm.t) (step : Z) :
  libm_at_1e200 m -> step = 8 \/ step = 4 \/ step = 2 ->
  GeoF.ds_scale m 0 d1e200 9 step = GeoF.ds_scale sample_libm 0 d1e200 9 step.
Proof.
  intros (H8 & H4 & H2 & P0 & P1 & P2) Hstep.
  transitivity
    (Some (if step =? 8 then 0%float else if step =? 4 then 0%float else nan)).
  - unfold GeoF.ds_scale. change (dbl (9 - 1)) with (dbl 8). rewrite H8.
    destruct Hstep as [->|[->| ->]].
    + rewrite H8. change (dbl (int32 (3 - 3))) with (dbl 0). by rewrite P0.
    + rewrite H4. change (dbl (int32 (3 - 2))) with (dbl 1). by rewrite P1.
    + rewrite H2. change (dbl (int32 (3 - 1))) with (dbl 2). by rewrite P2.
  - destruct Hstep as [->|[->| ->]]; vm_compute; reflexivity.
Qed.

Lemma terrain_at_1e200 (m : Libm.t) (ds map tmp : list float) :
  libm_at_1e200 m ->
  GeoF.terrain 64 m geo_rough_6x6 ds map tmp
  = GeoF.terrain 64 sample_libm geo_rough_6x6 ds map tmp.
Proof.
  intros Hm. unfold GeoF.terrain.
  change (Geo_side.side (GeoF.GRID_W geo_rough_6x6)
            (GeoF.GRID_H geo_rough_6x6)) with (Some 9).
  cbv iota beta.
  assert (Hds : forall buf st,
            GeoF.ds_generate 64 m 0 d1e200 buf 9 st
            = GeoF.ds_generate 64 sample_libm 0 d1e200 buf 9 st).
  { intros buf st. unfold GeoF.ds_generate.
    destruct (GeoF.rng_rand01 64 st) as [r1 st1].
    destruct (GeoF.rng_rand01 64 st1) as [r2 st2].
    destruct (GeoF.rng_rand01 64 st2) as [r3 st3].
    destruct (GeoF.rng_rand01 64 st3) as [r4 st4].
    unfold for_halving.
    apply (halving_fuel_ext
             (fun k => k = 8 \/ k = 4 \/ k = 2 \/ k = 1)).
    - intros k Hk Hk1. rewrite Z.quot_div_nonneg by lia.
      destruct Hk as [->|[->|[->| ->]]];
        [change (8 / 2) with 4 | change (4 / 2) with 2
         | change (2 / 2) with 1 |]; lia.
    - intros k s Hk Hk1. apply ds_level_scale, ds_scale_at_1e200; [done|].
      lia.
    - by left. }
  change (GeoF.AMP0 geo_rough_6x6) with 0%float.
  change (GeoF.ROUGH geo_rough_6x6) with d1e200.
  by rewrite Hds.
Qed.

(** C3.  An elevation that geo.c exports is not always in [[0,1]].  In
    the run [geo -x 6 -y 6 -a 0 -k 1e200] the scale of the last round of
    diamond-square is [0 * pow(1e200, 2)], zero times an infinity, which is
    NaN; every cell of that round is [clamp01d] of NaN, and [clamp01d],
    whose two comparisons are false on NaN, returns it.  The map holds NaN
    in 35 of its 36 cells, and NaN is not in [[0,1]]. *)
Theorem geo_exports_not_a_number (m : Libm.t) :
  libm_at_1e200 m ->
  GeoF.clamp01d nan = nan
  /\ GeoF.ds_scale m 0 d1e200 9 2 = Some nan
  /\ exists map,
       GeoF.terrain 64 m geo_rough_6x6 (repeat 0%float 81)
         (repeat 0%float 36) [] = Some map
       /\ length map = 36%nat
       /\ (forall i, 0 <= i < 35 -> is_nan (rd 0%float map i) = true)
       /\ in_unit (rd 0%float map 0) = false.
Proof.
  intros Hm. split; [reflexivity|]. split.
  { rewrite ds_scale_at_1e200 by (done || lia). vm_compute. reflexivity. }
  rewrite terrain_at_1e200 by done.
  eexists. split; [vm_compute; reflexivity|].
  split; [reflexivity|]. split; [|reflexivity].
  intros i Hi.
  assert (Hc : exists k : nat, (k < 35)%nat /\ i = Z.of_nat k).
  { exists (Z.to_nat i). lia. }
  destruct Hc as (k & Hk & ->).
  do 35 (destruct k as [|k]; [reflexivity|]). lia.
Qed.

Lemma geo_exports_not_a_number_witness :
  GeoF.clamp01d nan = nan
  /\ GeoF.ds_scale sample_libm 0 d1e200 9 2 = Some nan
  /\ exists map,
       GeoF.terrain 64 sample_libm geo_rough_6x6 (repeat 0%float 81)
         (repeat 0%float 36) [] = Some map
       /\ length map = 36%nat
       /\ (forall i, 0 <= i < 35 -> is_nan (rd 0%float map i) = true)
       /\ in_unit (rd 0%float map 0) = false.
Proof.
  apply (geo_exports_not_a_number sample_libm). exact sample_libm_at_1e200.
Defined.

(** ** geo.c: a width or a height of 1 *)

(** Zero times anything, divided by zero, is NaN, which has no integer
    part. *)
Lemma zero_times_over_zero (p : float) :
  int_floor (0 * p / 0)%float = None.
Proof.
  unfold int_floor, floor_Z. rewrite div_spec, mul_spec.
  change (Prim2SF 0) with (S754_zero false).
  by destruct (Prim2SF p) as [s|s| |s mp e].
Qed.

Lemma geo_resample_cell_width_1 (src out : list float) (P y y0 y1 : Z)
    (fy : float) :
  GeoF.resample_cell src P 1 y y0 y1 fy 0 (Some out) = None.
Proof.
  unfold GeoF.resample_cell. change (dbl 0) with 0%float.
  change (dbl (1 - 1)) with 0%float. by rewrite zero_times_over_zero.
Qed.

Lemma geo_resample_row_height_1 (src out : list float) (P W : Z) :
  GeoF.resample_row src P W 1 0 (Some out) = None.
Proof.
  unfold GeoF.resample_row. change (dbl 0) with 0%float.
  change (dbl (1 - 1)) with 0%float. by rewrite zero_times_over_zero.
Qed.

Lemma geo_resample_row_width_1 (src out : list float) (P H y : Z) :
  GeoF.resample_row src P 1 H y (Some out) = None.
Proof.
  unfold GeoF.resample_row.
  destruct (int_floor _) as [y0|]; [|done].
  unfold for_range. change (Z.to_nat (1 - 0)) with 1%nat. cbn [for_fuel].
  change (0 <? 1) with true. cbv iota. apply geo_resample_cell_width_1.
Qed.

Lemma geo_resample_None (src : list float) (P W H : Z) fuel i :
  for_fuel fuel i H 1 (GeoF.resample_row src P W H) None = None.
Proof. by apply for_fuel_None. Qed.

Lemma geo_resample_width_1_undefined (src out : list float) (P H : Z) :
  1 <= H -> GeoF.resample_bilinear src P out 1 H = None.
Proof.
  intros HH. unfold GeoF.resample_bilinear, for_range.
  replace (Z.to_nat (H - 0)) with (S (Z.to_nat (H - 1))) by lia.
  cbn [for_fuel]. destruct (Z.ltb_spec 0 H); [|lia].
  rewrite geo_resample_row_width_1. apply geo_resample_None.
Qed.

Lemma geo_resample_height_1_undefined (src out : list float) (P W : Z) :
  GeoF.resample_bilinear src P out W 1 = None.
Proof.
  unfold GeoF.resample_bilinear, for_range.
  change (Z.to_nat (1 - 0)) with 1%nat. cbn [for_fuel].
  change (0 <? 1) with true. cbv iota. apply geo_resample_row_height_1.
Qed.

(** C7.  geo.c does not keep the widths and heights of 1 away from its
    resampler, which divides by [W - 1] and by [H - 1].  [-x 4294967297]
    passes the test [v <= 1], made on the [long], and [(int)v] is 1.  At
    the width 1 the first cell of every row computes [0 * (P - 1) / 0],
    which is NaN, and converts it to [int], which C leaves undefined; the
    same happens in the first row at the height 1.  The run
    [geo -x 4294967297 -y 3] has no defined map, whatever the library and
    the blocks of [malloc].  The resampler of plasma.c divides by 1 there
    and returns a grid. *)
Theorem geo_resample_divides_by_zero :
  Geo_side.accept_dim 4294967297 = Some 1
  /\ (forall src out P y y0 y1 fy,
        GeoF.resample_cell src P 1 y y0 y1 fy 0 (Some out) = None)
  /\ (forall src out P W, GeoF.resample_row src P W 1 0 (Some out) = None)
  /\ (forall src out P, GeoF.resample_bilinear src P out 1 3 = None)
  /\ (forall src out P W, GeoF.resample_bilinear src P out W 1 = None)
  /\ (forall w m ds map tmp, GeoF.terrain w m geo_1x3 ds map tmp = None)
  /\ PlasmaF.denom 1 = 1%float
  /\ PlasmaF.resample_bilinear [0.25%float; 0.5%float; 0.75%float; 1%float]
       2 (repeat 0%float 3) 1 3
     = Some [0.25%float; 0.5%float; 0.75%float].
Proof.
  split; [reflexivity|].
  split; [intros; apply geo_resample_cell_width_1|].
  split; [intros; apply geo_resample_row_height_1|].
  split; [intros; apply geo_resample_width_1_undefined; lia|].
  split; [intros; apply geo_resample_height_1_undefined|].
  split; [|split; [reflexivity | vm_compute; reflexivity]].
  intros w m ds map tmp. unfold GeoF.terrain.
  change (Geo_side.side (GeoF.GRID_W geo_1x3) (GeoF.GRID_H geo_1x3))
    with (Some 3).
  cbv iota beta.
  destruct (GeoF.ds_generate _ _ _ _ _ _ _) as [[ds' st]|]; [|done].
  change (GeoF.GRID_W geo_1x3) with 1. change (GeoF.GRID_H geo_1x3) with 3.
  by rewrite geo_resample_width_1_undefined by lia.
Qed.

(** ** plasma.c: normalisation of a flat grid *)

(** The minimum and the maximum that [normalize01] finds are cells of the
    grid. *)
Lemma min_max_cells (grid : list float) (N : Z) :
  1 <= N ->
  exists i j, 0 <= i < N /\ 0 <= j < N
    /\ PlasmaF.min_max grid N = (rd 0%float grid i, rd 0%float grid j).
Proof.
  intros HN. unfold PlasmaF.min_max.
  apply (for_range_ind
           (fun (_ : Z) (s : float * float) =>
              exists i j, 0 <= i < N /\ 0 <= j < N
                /\ s = (rd 0%float grid i, rd 0%float grid j))); [lia | |].
  - exists 0, 0. split; [lia|]. split; [lia | done].
  - intros k [mn mx] Hk (i & j & Hi & Hj & [= -> ->]).
    destruct (rd 0%float grid k <? rd 0%float grid i)%float;
      destruct (rd 0%float grid j <? rd 0%float grid k)%float.
    + exists k, k. split; [lia|]. split; [lia | done].
    + exists k, j. split; [lia|]. split; [lia | done].
    + exists i, k. split; [lia|]. split; [lia | done].
    + exists i, j. split; [lia|]. split; [lia | done].
Qed.

(** [normalize01] on a grid whose cells differ by at most [1e-12]. *)
Lemma normalize01_close (grid : list float) (N : Z) :
  1 <= N <= Z.of_nat (length grid) ->
  (forall i j, 0 <= i < N -> 0 <= j < N ->
     (rd 0%float grid i - rd 0%float grid j <=? PlasmaF.d1e_12)%float = true) ->
  length (PlasmaF.normalize01 grid N) = length grid
  /\ (forall i, 0 <= i < N ->
        rd 0%float (PlasmaF.normalize01 grid N) i = 0.5%float)
  /\ (forall i, N <= i ->
        rd 0%float (PlasmaF.normalize01 grid N) i = rd 0%float grid i).
Proof.
  intros HN Hclose. unfold PlasmaF.normalize01.
  destruct (min_max_cells grid N) as (i & j & Hi & Hj & ->); [lia|].
  rewrite (Hclose j i Hj Hi).
  apply (fill1d 0%float (fun _ => 0.5%float) grid N). lia.
Qed.

(** [apply_gamma] on a grid that holds 0.5 in its first [N] cells. *)
Lemma apply_gamma_half (m : Libm.t) (g : list float) (N : Z) (gamma : float) :
  0 <= N <= Z.of_nat (length g) ->
  (forall i, 0 <= i < N -> rd 0%float g i = 0.5%float) ->
  length (PlasmaF.apply_gamma m g N gamma) = length g
  /\ forall i, 0 <= i < N ->
       rd 0%float (PlasmaF.apply_gamma m g N gamma) i
       = if PlasmaF.gamma_off gamma then 0.5%float
         else Libm.pow m 0.5 (1 / gamma).
Proof.
  intros HN Hhalf. unfold PlasmaF.apply_gamma.
  destruct (PlasmaF.gamma_off gamma); [done|].
  set (v := Libm.pow m 0.5 (1 / gamma)).
  set (Inv := fun (k : Z) (g' : list float) =>
    length g' = length g
    /\ (forall i, 0 <= i < k -> rd 0%float g' i = v)
    /\ (forall i, k <= i -> rd 0%float g' i = rd 0%float g i)).
  assert (HInv : Inv N (for_range 0 N 1 (fun i g0 =>
      wr g0 i
        (Libm.pow m
           (if (1 <? (if (rd 0%float g0 i <? 0)%float then 0%float
                      else rd 0%float g0 i))%float
            then 1%float
            else if (rd 0%float g0 i <? 0)%float then 0%float
                 else rd 0%float g0 i) (1 / gamma))) g)).
  { apply for_range_ind; [lia | |].
    - split; [done|]. split; [intros; lia | done].
    - intros k g' Hk (Hl & Hdone & Hrest).
      rewrite (Hrest k) by lia. rewrite (Hhalf k) by lia.
      change (0.5 <? 0)%float with false. cbv iota.
      change (1 <? 0.5)%float with false. cbv iota. fold v.
      split; [by rewrite length_wr|]. split.
      + intros i Hi. destruct (Z.eq_dec i k) as [->|Hne].
        * apply rd_wr_eq. lia.
        * rewrite rd_wr_ne by done. apply Hdone. lia.
      + intros i Hi. rewrite rd_wr_ne by lia. apply Hrest. lia. }
  destruct HInv as (Hl & Hdone & _). done.
Qed.

Lemma leb_zero_1e_12 : (0 <=? PlasmaF.d1e_12)%float = true.
Proof. reflexivity. Qed.

Lemma rd_repeat {A} (d v : A) (n : nat) (i : Z) :
  0 <= i < Z.of_nat n -> rd d (repeat v n) i = v.
Proof.
  intros Hi. unfold rd. destruct (Z.ltb_spec i 0); [lia|].
  apply nth_repeat_lt. lia.
Qed.

(** C10, as the code has it.  In plasma.c, a non-empty grid any two cells
    of which differ by at most 1e-12, the difference taken as the program
    takes it, in doubles, leaves [normalize01] with 0.5 in every cell; so
    does every grid that holds one number (not NaN, not an infinity) in
    every cell.  [main] then applies the gamma correction: the grid is
    exported as 0.5 in every cell when the correction is off
    ([gamma <= 0] or [|gamma - 1| < 1e-12], as by default), and as
    [pow(0.5, 1 / gamma)] in every cell otherwise. *)
Theorem normalize01_flat (m : Libm.t) (grid : list float) (N : Z)
    (gamma : float) :
  1 <= N <= Z.of_nat (length grid) ->
  (forall i j, 0 <= i < N -> 0 <= j < N ->
     (rd 0%float grid i - rd 0%float grid j <=? PlasmaF.d1e_12)%float = true) ->
  let g := PlasmaF.normalize01 grid N in
  let e := PlasmaF.apply_gamma m g N gamma in
  (forall i, 0 <= i < N -> rd 0%float g i = 0.5%float)
  /\ (forall i, 0 <= i < N ->
        rd 0%float e i = if PlasmaF.gamma_off gamma then 0.5%float
                         else Libm.pow m 0.5 (1 / gamma))
  /\ (forall (v : float) (n : nat) i,
        finite v = true -> 0 <= i < Z.of_nat n ->
        rd 0%float (PlasmaF.normalize01 (repeat v n) (Z.of_nat n)) i
        = 0.5%float).
Proof.
  intros HN Hclose g e. subst g e.
  destruct (normalize01_close grid N HN Hclose) as (Hl & Hhalf & _).
  split; [exact Hhalf|]. split.
  - apply apply_gamma_half; [|exact Hhalf]. rewrite Hl. lia.
  - intros v n i Hv Hi.
    apply (normalize01_close (repeat v n) (Z.of_nat n)); [|  | done].
    + rewrite repeat_length. lia.
    + intros a b Ha Hb. rewrite !rd_repeat by done.
      rewrite sub_self by done. apply leb_zero_1e_12.
Qed.

Lemma normalize01_flat_witness :
  let grid := [0.25%float; 0.25%float; 0.25%float] in
  let g := PlasmaF.normalize01 grid 3 in
  let e := PlasmaF.apply_gamma sample_libm g 3 0.5 in
  (forall i, 0 <= i < 3 -> rd 0%float g i = 0.5%float)
  /\ (forall i, 0 <= i < 3 ->
        rd 0%float e i = if PlasmaF.gamma_off 0.5 then 0.5%float
                         else Libm.pow sample_libm 0.5 (1 / 0.5)).
Proof.
  intros grid g e.
  destruct (normalize01_flat sample_libm grid 3 0.5) as (Hg & He & _).
  - simpl. lia.
  - intros i j Hi Hj.
    assert (Hci : i = 0 \/ i = 1 \/ i = 2) by lia.
    assert (Hcj : j = 0 \/ j = 1 \/ j = 2) by lia.
    destruct Hci as [->|[->| ->]]; destruct Hcj as [->|[->| ->]]; reflexivity.
  - split; [exact Hg | exact He].
Defined.

(** C10 as stated fails in its last part.  In the run
    [plasma -x 3 -y 2 -a 0 -g 0.5] the terrain is flat, a zero in every
    cell, and normalisation makes it 0.5 in every cell; the gamma
    correction that follows exports [pow(0.5, 2)], which is 0.25, in every
    cell.  And a grid that holds an infinity in every cell is constant, but
    the difference of its maximum and its minimum is NaN, which is not
    below 1e-12: its cells are divided by NaN. *)
Lemma flat_terrain_not_exported_as_half :
  let c := plasma_flat_3x2 0.5 in
  let zeros n := repeat 0%float n in
  (exists t,
     plasma_terrain sample_libc c (zeros 9%nat) (zeros 6%nat) = Some t
     /\ forallb (fun v => (v =? 0)%float) t = true
     /\ PlasmaF.normalize01 t 6 = repeat 0.5%float 6)
  /\ PlasmaF.exported sample_libc sample_libm c (zeros 9%nat) (zeros 6%nat) []
     = Some (repeat 0.25%float 6)
  /\ Libm.pow sample_libm 0.5 (1 / 0.5) = (0.5 * 0.5)%float
  /\ PlasmaF.normalize01 [infinity; infinity] 2 = [nan; nan].
Proof.
  cbv zeta. split; [|repeat split; vm_compute; reflexivity].
  eexists. split; [vm_compute; reflexivity|].
  split; vm_compute; reflexivity.
Qed.

(** ** geo.c: what [clamp01d] lets through *)

Lemma Prim2SF_zero : Prim2SF 0 = S754_zero false.
Proof. reflexivity. Qed.

(** Comparing the other way round gives the opposite. *)
Lemma SFcompare_pos_antisym (m1 m2 : positive) (e1 e2 : Z) :
  SFcompare (S754_finite false m2 e2) (S754_finite false m1 e1)
  = option_map CompOpp
      (SFcompare (S754_finite false m1 e1) (S754_finite false m2 e2)).
Proof.
  cbn [SFcompare option_map]. rewrite (Z.compare_antisym e1 e2).
  destruct (e1 ?= e2); cbn [CompOpp]; [|done..].
  change (Pos.compare_cont Eq m2 m1) with (Pos.compare m2 m1).
  change (Pos.compare_cont Eq m1 m2) with (Pos.compare m1 m2).
  by rewrite (Pos.compare_antisym m1 m2).
Qed.

Lemma SFcompare_refl_finite (s : bool) (m : positive) (e : Z) :
  SFcompare (S754_finite s m e) (S754_finite s m e) = Some Eq.
Proof.
  cbn [SFcompare]. rewrite Z.compare_refl.
  change (Pos.compare_cont Eq m m) with (Pos.compare m m).
  rewrite Pos.compare_refl. by destruct s.
Qed.

(** A double is NaN exactly when it has no place in the order. *)
Lemma is_nan_spec (v : float) :
  is_nan v = match Prim2SF v with S754_nan => true | _ => false end.
Proof.
  unfold is_nan. rewrite FloatAxioms.eqb_spec. unfold SFeqb.
  destruct (Prim2SF v) as [s|s| |s m e]; [done | by destruct s | done |].
  by rewrite SFcompare_refl_finite.
Qed.

Lemma clamp01d_cases (v : float) :
  (is_nan v = true /\ GeoF.clamp01d v = v)
  \/ (is_nan v = false /\ in_unit (GeoF.clamp01d v) = true
      /\ is_nan (GeoF.clamp01d v) = false).
Proof.
  rewrite (is_nan_spec v). unfold GeoF.clamp01d.
  rewrite (ltb_spec v 0), (ltb_spec 1 v), Prim2SF_zero, Prim2SF_one.
  destruct (Prim2SF v) as [s|s| |s m e] eqn:Hv.
  - (* a zero *)
    right. cbn [SFltb SFcompare]. split; [done|]. unfold in_unit.
    rewrite is_nan_spec, !leb_spec, Hv, Prim2SF_zero, Prim2SF_one. done.
  - (* an infinity *)
    right. destruct s; cbn [SFltb SFcompare]; done.
  - (* NaN *)
    left. done.
  - (* a number that is not zero *)
    right. split; [done|].
    destruct s; [cbn [SFltb SFcompare]; done|].
    unfold SFltb at 1. cbn [SFcompare].
    unfold SFltb. rewrite SFcompare_pos_antisym.
    destruct (SFcompare (S754_finite false m e)
                (S754_finite false 4503599627370496 (-52))) as [[| |]|] eqn:Hc;
      cbn [option_map CompOpp]; try done;
      unfold in_unit;
      rewrite is_nan_spec, !leb_spec, Hv, Prim2SF_zero, Prim2SF_one;
      unfold SFleb; rewrite Hc; simpl; rewrite Hv; done.
Qed.

(** X27.  [clamp01d] brings every double that is a number, and the two
    infinities, into [[0,1]]; a NaN it returns as it is, both of its
    comparisons being false. *)
Theorem clamp01d_range (v : float) :
  in_unit (GeoF.clamp01d v) = negb (is_nan v)
  /\ is_nan (GeoF.clamp01d v) = is_nan v
  /\ (if is_nan v then GeoF.clamp01d v = v else True).
Proof.
  destruct (clamp01d_cases v) as [[Hn Hc]|(Hn & Hu & Hn')].
  - rewrite Hc, Hn. split; [|done]. unfold in_unit.
    rewrite leb_spec. rewrite is_nan_spec in Hn.
    by destruct (Prim2SF v).
  - rewrite Hn, Hu, Hn'. done.
Qed.
